(** * Corporate Genome: entity-resolution core, embedded in Rocq

    A shallow embedding of the recognition modules of the browser
    extension (company normalizer, fuzzy matcher, knowledge base,
    confidence scorer, NLP result cache, entity ranking, structural
    weight), followed by the properties established about them.

    Conventions of the embedding:
    - a JavaScript string is the list of its UTF-16 code units;
    - a JavaScript number is an exact rational ([Q]); the only
      non-rational number that the modelled code can produce ([NaN] in
      [Math.max]) is represented explicitly where it can arise;
    - a [Map] or [Set] is a list in insertion order;
    - a method that mutates [this] takes the state and returns the new
      one; an exception is a value of the result type, and the state
      reached when it was thrown is kept. *)

From Stdlib Require Import Ascii String DecimalString.
From Stdlib Require Import List Bool Arith NArith ZArith QArith Qminmax.
From Stdlib Require Import Lia Lqa Permutation Sorted.
Import ListNotations.

Set Implicit Arguments.
Close Scope Q_scope.
Open Scope N_scope.

(* ================================================================== *)
(** * Part I: definitions *)
(* ================================================================== *)

(** ** JavaScript strings *)

Module Js.

Definition jsstring := list N.

Definition str (s : string) : jsstring :=
  map N_of_ascii (list_ascii_of_string s).

Fixpoint streq (a b : jsstring) : bool :=
  match a, b with
  | [], [] => true
  | x :: a', y :: b' => N.eqb x y && streq a' b'
  | _, _ => false
  end.

Definition between (lo hi c : N) : bool := N.leb lo c && N.leb c hi.

(** [\s] of a regular expression, which is also the set removed by
    [String.prototype.trim]: white space and line terminators. *)
Definition isSpace (c : N) : bool :=
  between 9 13 c || N.eqb c 32 || N.eqb c 160 || N.eqb c 5760
  || between 8192 8202 c || N.eqb c 8232 || N.eqb c 8233
  || N.eqb c 8239 || N.eqb c 8287 || N.eqb c 12288 || N.eqb c 65279.

(** [\w] without the [u] flag: [A-Za-z0-9_]. *)
Definition isWordChar (c : N) : bool :=
  between 48 57 c || between 65 90 c || between 97 122 c || N.eqb c 95.

(** Case mapping is given for Basic Latin and Latin-1, together with the
    code units outside them whose lower case holds an ASCII letter
    (U+0130, U+212A) or whose upper case is made of ASCII letters
    (U+0131, U+017F and the ligatures U+FB00 to U+FB06).  Other code
    units are left as they are: the modelled code compares case-mapped
    text with ASCII literals, or with other text mapped the same way. *)
Definition lowerUnit (c : N) : list N :=
  if between 65 90 c then [c + 32]
  else if between 192 222 c && negb (N.eqb c 215) then [c + 32]
  else if N.eqb c 304 then [105; 775]
  else if N.eqb c 8490 then [107]
  else [c].

Definition toLowerCase (s : jsstring) : jsstring := flat_map lowerUnit s.

Definition upperUnit (c : N) : list N :=
  if between 97 122 c then [c - 32]
  else if between 224 254 c && negb (N.eqb c 247) then [c - 32]
  else if N.eqb c 223 then [83; 83]
  else if N.eqb c 255 then [376]
  else if N.eqb c 181 then [924]
  else if N.eqb c 305 then [73]
  else if N.eqb c 383 then [83]
  else if N.eqb c 64256 then [70; 70]
  else if N.eqb c 64257 then [70; 73]
  else if N.eqb c 64258 then [70; 76]
  else if N.eqb c 64259 then [70; 70; 73]
  else if N.eqb c 64260 then [70; 70; 76]
  else if N.eqb c 64261 || N.eqb c 64262 then [83; 84]
  else [c].

Definition toUpperCase (s : jsstring) : jsstring := flat_map upperUnit s.

Fixpoint trimStart (s : jsstring) : jsstring :=
  match s with
  | c :: s' => if isSpace c then trimStart s' else s
  | [] => []
  end.

Fixpoint trimEnd (s : jsstring) : jsstring :=
  match s with
  | [] => []
  | c :: s' =>
      match trimEnd s' with
      | [] => if isSpace c then [] else [c]
      | r => c :: r
      end
  end.

Definition trim (s : jsstring) : jsstring := trimEnd (trimStart s).

(** [s.replace(/\s+/g, ' ')]: every maximal run of white space becomes
    one space.  [inRun] tells that the previous unit was white space. *)
Fixpoint collapseFrom (inRun : bool) (s : jsstring) : jsstring :=
  match s with
  | [] => []
  | c :: s' =>
      if isSpace c
      then (if inRun then collapseFrom true s' else 32 :: collapseFrom true s')
      else c :: collapseFrom false s'
  end.

Definition collapseSpaces (s : jsstring) : jsstring := collapseFrom false s.

Fixpoint startsWith (p s : jsstring) : bool :=
  match p, s with
  | [], _ => true
  | x :: p', y :: s' => N.eqb x y && startsWith p' s'
  | _ :: _, [] => false
  end.

(** [s.includes(p)] *)
Fixpoint includes (s p : jsstring) : bool :=
  startsWith p s ||
  match s with
  | [] => false
  | _ :: s' => includes s' p
  end.

(** [s.substring(i, j)] for [0 <= i <= j]. *)
Definition substring (s : jsstring) (i j : nat) : jsstring :=
  firstn (j - i)%nat (skipn i s).

(** [a.join(' ')] *)
Fixpoint joinSpace (l : list jsstring) : jsstring :=
  match l with
  | [] => []
  | [a] => a
  | a :: l' => a ++ 32 :: joinSpace l'
  end.

(** [s.split(/\s+/)]: the pieces between maximal runs of white space;
    a leading or trailing run leaves an empty first or last piece.
    [cur] is the piece being read, reversed. *)
Fixpoint splitFrom (inRun : bool) (cur : jsstring) (s : jsstring)
  : list jsstring :=
  match s with
  | [] => [rev cur]
  | c :: s' =>
      if isSpace c
      then (if inRun then splitFrom true cur s'
            else rev cur :: splitFrom true [] s')
      else splitFrom false (c :: cur) s'
  end.

Definition splitSpaces (s : jsstring) : list jsstring := splitFrom false [] s.

(** The default order of [Array.prototype.sort] on strings: code units,
    lexicographically. *)
Fixpoint strle (a b : jsstring) : bool :=
  match a, b with
  | [], _ => true
  | _ :: _, [] => false
  | x :: a', y :: b' => N.ltb x y || (N.eqb x y && strle a' b')
  end.

(** [Array.prototype.sort]: stable; [lte a b] stands for
    [compare(a, b) <= 0]. *)
Section Sort.
Variable A : Type.
Variable lte : A -> A -> bool.

Fixpoint insertSorted (x : A) (l : list A) : list A :=
  match l with
  | [] => [x]
  | y :: l' => if lte x y then x :: l else y :: insertSorted x l'
  end.

Definition sortBy (l : list A) : list A := fold_right insertSorted [] l.

(** Two elements that the comparison leaves in this order. *)
Definition inOrder (a b : A) : Prop := lte a b = true.
End Sort.

(** A [Set] of strings in insertion order. *)
Definition setHas (s : list jsstring) (x : jsstring) : bool :=
  existsb (streq x) s.

Definition setAdd (s : list jsstring) (x : jsstring) : list jsstring :=
  if setHas s x then s else s ++ [x].

Definition setOf (l : list jsstring) : list jsstring :=
  fold_left setAdd l [].

End Js.

Import Js.

(** ** fuzzy-matcher.js, second unit: [CompanyNormalizer] *)

Module CompanyNormalizer.

Definition suffixes_us : list jsstring :=
  map str
    ["Inc"; "Inc."; "Incorporated";
     "Corp"; "Corp."; "Corporation";
     "Co"; "Co."; "Company";
     "LLC"; "L.L.C."; "Limited Liability Company";
     "LP"; "L.P."; "Limited Partnership";
     "LLP"; "L.L.P."; "Limited Liability Partnership";
     "Ltd"; "Ltd."; "Limited";
     "PC"; "P.C."; "Professional Corporation";
     "PA"; "P.A."; "Professional Association";
     "PLLC"; "P.L.L.C."; "Professional Limited Liability Company"]%string.

Definition suffixes_uk : list jsstring :=
  map str
    ["Ltd"; "Ltd."; "Limited";
     "PLC"; "P.L.C."; "Public Limited Company";
     "LLP"; "L.L.P."; "Limited Liability Partnership"]%string.

Definition suffixes_europe : list jsstring :=
  [str "AG"; str "A.G."; str "Aktiengesellschaft";
   str "GmbH"; str "G.m.b.H.";
   str "Gesellschaft mit beschr" ++ [228] ++ str "nkter Haftung";
   str "SA"; str "S.A.";
   str "Soci" ++ [233] ++ str "t" ++ [233] ++ str " Anonyme";
   str "SARL"; str "S.A.R.L.";
   str "Soci" ++ [233] ++ str "t" ++ [233] ++ str " " ++ [224]
     ++ str " responsabilit" ++ [233] ++ str " limit" ++ [233] ++ str "e";
   str "BV"; str "B.V."; str "Besloten Vennootschap";
   str "NV"; str "N.V."; str "Naamloze Vennootschap";
   str "SpA"; str "S.p.A."; str "Societ" ++ [224] ++ str " per Azioni";
   str "AB"; str "A.B."; str "Aktiebolag";
   str "AS"; str "A.S."; str "Aksjeselskap";
   str "Oy"; str "Oyj"].

Definition suffixes_asia : list jsstring :=
  [str "KK"; str "K.K."; str "Kabushiki Kaisha";
   [26666; 24335; 20250; 31038];
   str "YK"; str "Y.K."; str "Yugen Kaisha";
   [26377; 38480; 20250; 31038];
   str "Pte Ltd"; str "Pte. Ltd."; str "Private Limited";
   str "Sdn Bhd"; str "Sdn. Bhd."; str "Sendirian Berhad";
   str "Co., Ltd.";
   [26377; 38480; 20844; 21496];
   [32929; 20221; 26377; 38480; 20844; 21496]].

Definition suffixes_other : list jsstring :=
  map str
    ["Group"; "Groups";
     "Holdings"; "Holding";
     "International"; "Intl"; "Intl.";
     "Global";
     "Worldwide";
     "Partners";
     "Associates";
     "Enterprises";
     "Ventures";
     "Technologies"; "Tech";
     "Solutions";
     "Services";
     "Systems";
     "Industries"]%string.

Definition allSuffixes : list jsstring :=
  suffixes_us ++ suffixes_uk ++ suffixes_europe ++ suffixes_asia
  ++ suffixes_other.

(** [allSuffixes.sort((a, b) => b.length - a.length)] *)
Definition sortedSuffixes : list jsstring :=
  Eval vm_compute in
    sortBy (fun a b => Nat.leb (length b) (length a)) allSuffixes.

(** *** The suffix pattern [/\b(s1|s2|...)\b/gi]

    Every suffix is escaped by [buildPatterns], so an alternative
    matches its own text only, up to case.  Without the [u] flag the
    [i] flag compares code units after upper-casing each one on its own,
    and a unit outside ASCII is never identified with an ASCII one. *)
Definition canonicalize (c : N) : N :=
  if between 97 122 c then c - 32
  else if between 224 254 c && negb (N.eqb c 247) then c - 32
  else if N.eqb c 255 then 376
  else if N.eqb c 181 then 924
  else c.

Definition isWordOpt (o : option N) : bool :=
  match o with
  | Some c => isWordChar c
  | None => false
  end.

(** [\b] between the unit before a position and the unit at it. *)
Definition wordBoundary (before after : option N) : bool :=
  xorb (isWordOpt before) (isWordOpt after).

(** The alternative [p] read at the head of [s], followed by [\b].
    [prev] is the unit before the position reached. *)
Fixpoint matchSuffix (p : jsstring) (prev : option N) (s : jsstring) : bool :=
  match p with
  | [] => wordBoundary prev (hd_error s)
  | x :: p' =>
      match s with
      | [] => false
      | y :: s' =>
          N.eqb (canonicalize x) (canonicalize y) && matchSuffix p' (Some y) s'
      end
  end.

(** One attempt of the pattern at a position: the leading [\b], then
    the first alternative, in the order of the pattern, that matches
    and is followed by [\b].  The answer is the length matched. *)
Definition matchAt (prev : option N) (s : jsstring) : option nat :=
  if wordBoundary prev (hd_error s)
  then option_map (@length N)
         (find (fun p => matchSuffix p prev s) sortedSuffixes)
  else None.

(** [s.replace(suffixPattern, '')].  [skip] counts the units of the
    current match that are still to be dropped. *)
Fixpoint removeFrom (prev : option N) (skip : nat) (s : jsstring) : jsstring :=
  match s with
  | [] => []
  | c :: s' =>
      match skip with
      | S k => removeFrom (Some c) k s'
      | O =>
          match matchAt prev s with
          | Some (S k) => removeFrom (Some c) k s'
          | _ => c :: removeFrom (Some c) O s'
          end
      end
  end.

Definition removeSuffixes (s : jsstring) : jsstring := removeFrom None 0 s.

(** [s.replace(/[,;]/g, '')] *)
Definition isPunctuation (c : N) : bool := N.eqb c 44 || N.eqb c 59.

Definition removePunctuation (s : jsstring) : jsstring :=
  filter (fun c => negb (isPunctuation c)) s.

Definition abbreviations : list (jsstring * jsstring) :=
  map (fun p => (str (fst p), str (snd p)))
    [("IBM", "International Business Machines");
     ("GM", "General Motors");
     ("GE", "General Electric");
     ("P&G", "Procter & Gamble");
     ("J&J", "Johnson & Johnson");
     ("AT&T", "American Telephone & Telegraph");
     ("UPS", "United Parcel Service");
     ("FedEx", "Federal Express");
     ("BMW", "Bayerische Motoren Werke");
     ("HSBC", "Hongkong and Shanghai Banking Corporation");
     ("KPMG", "Klynveld Peat Marwick Goerdeler");
     ("PwC", "PricewaterhouseCoopers");
     ("EY", "Ernst & Young");
     ("CVS", "Consumer Value Stores");
     ("IKEA", "Ingvar Kamprad Elmtaryd Agunnaryd")]%string.

(** The part of [normalize] before the abbreviation table is read. *)
Definition stripped (companyName : jsstring) : jsstring :=
  trim (collapseSpaces (removeSuffixes (removePunctuation companyName))).

(** The loop over [this.abbreviations]. *)
Definition expansionOf (lowerNormalized : jsstring) : option jsstring :=
  option_map snd
    (find (fun p => streq lowerNormalized (toLowerCase (fst p)))
       abbreviations).

(** [normalize(companyName)] on a string; the empty string is falsy and
    is answered at once. *)
Definition normalize (companyName : jsstring) : jsstring :=
  match companyName with
  | [] => []
  | _ =>
      let normalized := stripped companyName in
      match expansionOf (toLowerCase normalized) with
      | Some full => full
      | None => normalized
      end
  end.

(** [getBaseName(companyName)] *)
Definition getBaseName (companyName : jsstring) : jsstring :=
  normalize companyName.

(** The matches of the suffix pattern, in the order in which
    [removeFrom] drops them. *)
Fixpoint matchesFrom (prev : option N) (skip : nat) (s : jsstring)
  : list jsstring :=
  match s with
  | [] => []
  | c :: s' =>
      match skip with
      | S k => matchesFrom (Some c) k s'
      | O =>
          match matchAt prev s with
          | Some (S k) => firstn (S k) s :: matchesFrom (Some c) k s'
          | _ => matchesFrom (Some c) O s'
          end
      end
  end.

(** [getSuffixes(companyName)]: [companyName.match(suffixPattern) || []] *)
Definition getSuffixes (companyName : jsstring) : list jsstring :=
  matchesFrom None 0 companyName.

Definition isOneOf (x : jsstring) (l : list string) : bool :=
  existsb (fun y => streq x (str y)) l.

(** The tag that [getType] adds for one suffix, if any. *)
Definition typeOfSuffix (suffix : jsstring) : option jsstring :=
  let lowerSuffix := toLowerCase suffix in
  if isOneOf lowerSuffix
       ["inc"; "inc."; "incorporated"; "corp"; "corp."; "corporation"]%string
  then Some (str "corporation")
  else if isOneOf lowerSuffix ["llc"; "l.l.c."; "limited liability company"]%string
  then Some (str "limited_liability_company")
  else if isOneOf lowerSuffix ["ltd"; "ltd."; "limited"]%string
  then Some (str "limited_company")
  else if isOneOf lowerSuffix ["plc"; "p.l.c."; "public limited company"]%string
  then Some (str "public_limited_company")
  else if isOneOf lowerSuffix ["lp"; "l.p."; "limited partnership"]%string
  then Some (str "limited_partnership")
  else if isOneOf lowerSuffix
            ["llp"; "l.l.p."; "limited liability partnership"]%string
  then Some (str "limited_liability_partnership")
  else None.

(** [getType(companyName)]: the tags, in the order in which the set
    received them. *)
Definition getType (companyName : jsstring) : list jsstring :=
  fold_left
    (fun types suffix =>
       match typeOfSuffix suffix with
       | Some t => setAdd types t
       | None => types
       end)
    (getSuffixes companyName) [].

Definition variations : list (jsstring * list jsstring) :=
  map (fun p => (str (fst p), map str (snd p)))
    [("alphabet", ["google"; "alphabet inc"]);
     ("meta", ["facebook"; "meta platforms"]);
     ("x", ["twitter"; "x corp"]);
     ("salesforce", ["salesforce.com"]);
     ("walmart", ["wal-mart"]);
     ("exxonmobil", ["exxon mobil"; "exxon"; "mobil"]);
     ("jpmorgan", ["jp morgan"; "jpmorgan chase"; "chase"]);
     ("berkshire hathaway", ["berkshire"]);
     ("procter gamble", ["p&g"; "procter and gamble"]);
     ("johnson johnson", ["j&j"; "johnson and johnson"])]%string.

(** [isVariation(name1, name2)] *)
Definition isVariation (name1 name2 : jsstring) : bool :=
  let norm1 := toLowerCase (normalize name1) in
  let norm2 := toLowerCase (normalize name2) in
  streq norm1 norm2
  || existsb
       (fun entry : jsstring * list jsstring =>
          let allNames := fst entry :: snd entry in
          setHas allNames norm1 && setHas allNames norm2)
       variations.

End CompanyNormalizer.

(** ** fuzzy-matcher.js, first unit: [FuzzyMatcher] *)

Module FuzzyMatcher.

Definition abbreviationBonus : Q := 0.1%Q.
Definition defaultThreshold : Q := 0.8%Q.

Definition stopWords : list jsstring :=
  map str
    ["the"; "and"; "of"; "in"; "for"; "a"; "an"; "&";
     "company"; "corporation"; "incorporated"; "limited";
     "corp"; "inc"; "ltd"; "llc"; "co"]%string.

(** A natural number (a length, a distance, a count) as a JavaScript
    number. *)
Definition ofNat (n : nat) : Q := inject_Z (Z.of_nat n).

(** *** [levenshteinDistance]

    The table [dp] is filled row by row.  [fillRow] computes
    [dp[i][j..n]] from the row above, given from column [j-1] on, and
    from [left = dp[i][j-1]]. *)
Fixpoint fillRow (c1 : N) (s2 : jsstring) (above : list nat) (left : nat)
  : list nat :=
  match s2, above with
  | c2 :: s2', diag :: above' =>
      match above' with
      | up :: _ =>
          let v := if N.eqb c1 c2 then diag
                   else S (Nat.min (Nat.min up left) diag) in
          v :: fillRow c1 s2' above' v
      | [] => []
      end
  | _, _ => []
  end.

(** Rows [i+1 .. m] from row [i]; [dp[i][0] = i]. *)
Fixpoint fillRows (s1 s2 : jsstring) (i : nat) (row : list nat) : list nat :=
  match s1 with
  | [] => row
  | c1 :: s1' => fillRows s1' s2 (S i) (S i :: fillRow c1 s2 row (S i))
  end.

Definition levenshteinDistance (str1 str2 : jsstring) : nat :=
  last (fillRows str1 str2 0 (seq 0 (S (length str2)))) 0%nat.

Definition isEmpty (s : jsstring) : bool :=
  match s with
  | [] => true
  | _ => false
  end.

Definition ratio (str1 str2 : jsstring) : Q :=
  if isEmpty str1 || isEmpty str2 then 0%Q
  else if streq str1 str2 then 1%Q
  else
    let s1 := trim (toLowerCase str1) in
    let s2 := trim (toLowerCase str2) in
    if streq s1 s2 then 1%Q
    else
      let maxLen := Nat.max (length s1) (length s2) in
      if Nat.eqb maxLen 0 then 1%Q
      else
        let distance := levenshteinDistance s1 s2 in
        (1 - ofNat distance / ofNat maxLen)%Q.

Definition partialRatio (str1 str2 : jsstring) : Q :=
  if isEmpty str1 || isEmpty str2 then 0%Q
  else
    let s1 := trim (toLowerCase str1) in
    let s2 := trim (toLowerCase str2) in
    if streq s1 s2 then 1%Q
    else
      let (shorter, longer) :=
        if Nat.leb (length s1) (length s2) then (s1, s2) else (s2, s1) in
      fold_left
        (fun bestRatio i =>
           let substring := substring longer i (i + length shorter) in
           let currentRatio := ratio shorter substring in
           Qmax bestRatio currentRatio)
        (seq 0 (S (length longer - length shorter)))
        0%Q.

Definition tokenize (s : jsstring) : list jsstring :=
  filter (fun token => negb (isEmpty token))
    (splitSpaces
       (map (fun c => if isWordChar c || isSpace c then c else 32)
          (toLowerCase s))).

Definition tokenSortRatio (str1 str2 : jsstring) : Q :=
  if isEmpty str1 || isEmpty str2 then 0%Q
  else
    let tokens1 := sortBy strle (tokenize str1) in
    let tokens2 := sortBy strle (tokenize str2) in
    ratio (joinSpace tokens1) (joinSpace tokens2).

Definition tokenSetRatio (str1 str2 : jsstring) : Q :=
  if isEmpty str1 || isEmpty str2 then 0%Q
  else
    let tokens1 := setOf (tokenize str1) in
    let tokens2 := setOf (tokenize str2) in
    let filtered1 := filter (fun t => negb (setHas stopWords t)) tokens1 in
    let filtered2 := filter (fun t => negb (setHas stopWords t)) tokens2 in
    let set1 := if Nat.ltb 0 (length filtered1) then filtered1 else tokens1 in
    let set2 := if Nat.ltb 0 (length filtered2) then filtered2 else tokens2 in
    let intersection := filter (setHas set2) set1 in
    let union := setOf (set1 ++ set2) in
    if Nat.eqb (length union) 0 then 1%Q
    else (ofNat (length intersection) / ofNat (length union))%Q.

(** The merged weights [w = { ...defaultWeights, ...weights }]; keys of
    [weights] that name no score are skipped by the loop and are not
    represented. *)
Record Weights := {
  w_ratio : Q;
  w_partial : Q;
  w_tokenSort : Q;
  w_tokenSet : Q
}.

Definition defaultWeights : Weights :=
  {| w_ratio := 0.2; w_partial := 0.2; w_tokenSort := 0.3;
     w_tokenSet := 0.3 |}%Q.

Definition companyNameRatioWith (w : Weights) (str1 str2 : jsstring) : Q :=
  let entries :=
    [(ratio str1 str2, w_ratio w);
     (partialRatio str1 str2, w_partial w);
     (tokenSortRatio str1 str2, w_tokenSort w);
     (tokenSetRatio str1 str2, w_tokenSet w)] in
  let weightedSum :=
    fold_left (fun acc e => (acc + fst e * snd e)%Q) entries 0%Q in
  let totalWeight := fold_left (fun acc e => (acc + snd e)%Q) entries 0%Q in
  if Qlt_le_dec 0%Q totalWeight then (weightedSum / totalWeight)%Q else 0%Q.

(** [companyNameRatio(str1, str2)], the third argument left out. *)
Definition companyNameRatio (str1 str2 : jsstring) : Q :=
  companyNameRatioWith defaultWeights str1 str2.

Definition scoreToConfidence (score : Q) : string :=
  if Qle_bool 0.95%Q score then "very_high"%string
  else if Qle_bool 0.85%Q score then "high"%string
  else if Qle_bool 0.75%Q score then "medium"%string
  else if Qle_bool 0.65%Q score then "low"%string
  else "very_low"%string.

Definition isMatch (str1 str2 : jsstring) (threshold : option Q) : bool :=
  let score := companyNameRatio str1 str2 in
  let minThreshold :=
    match threshold with
    | Some t => if Qeq_bool t 0%Q then defaultThreshold else t
    | None => defaultThreshold
    end in
  Qle_bool minThreshold score.

Definition abbreviationPairs : list (jsstring * jsstring) :=
  map (fun p => (str (fst p), str (snd p)))
    [("intl", "international");
     ("corp", "corporation");
     ("inc", "incorporated");
     ("ltd", "limited");
     ("co", "company");
     ("assoc", "associates");
     ("mgmt", "management");
     ("svcs", "services");
     ("tech", "technologies");
     ("pharm", "pharmaceutical");
     ("mfg", "manufacturing")]%string.

Definition handleSpecialCases (str1 str2 : jsstring) : Q :=
  let s1 := trim (toLowerCase str1) in
  let s2 := trim (toLowerCase str2) in
  if existsb
       (fun p : jsstring * jsstring =>
          let (abbr, full) := p in
          (includes s1 abbr && includes s2 full)
          || (includes s1 full && includes s2 abbr))
       abbreviationPairs
  then abbreviationBonus
  else 0%Q.

Definition enhancedCompanyRatio (str1 str2 : jsstring) : Q :=
  let baseScore := companyNameRatio str1 str2 in
  let specialBonus := handleSpecialCases str1 str2 in
  Qmin 1%Q (baseScore + specialBonus)%Q.

(** *** [extractBest] and [extractOne] *)

Record Match := {
  m_match : jsstring;
  m_score : Q;
  m_confidence : string
}.

(** [extractBest(query, choices, limit, scorer)]; [limit] is a count and
    [scorer] is [None] for [null]. *)
Definition extractBest (query : jsstring) (choices : list jsstring)
  (limit : nat) (scorer : option (jsstring -> jsstring -> Q)) : list Match :=
  if isEmpty query || Nat.eqb (length choices) 0 then []
  else
    let scorerFunc :=
      match scorer with
      | Some f => f
      | None => companyNameRatio
      end in
    let scored := map (fun choice => (choice, scorerFunc query choice)) choices in
    map
      (fun item =>
         {| m_match := fst item; m_score := snd item;
            m_confidence := scoreToConfidence (snd item) |})
      (firstn limit
         (sortBy (fun a b => Qle_bool (snd b - snd a) 0) scored)).

Definition extractOne (query : jsstring) (choices : list jsstring)
  (scorer : option (jsstring -> jsstring -> Q)) : option Match :=
  match extractBest query choices 1 scorer with
  | first :: _ => Some first
  | [] => None
  end.

End FuzzyMatcher.

(** ** JavaScript values, [Map] and [Set] *)

Module JsValue.

(** The values that [JSON.parse] builds, with [undefined] and [Set].
    [ref] is the identity of an array or object: two of them are the
    same key of a [Map] when they are the same object, whatever they
    hold.  Properties are listed in insertion order. *)
#[warnings="-register-all"] Inductive jsval : Type :=
| VUndefined
| VNull
| VBool (b : bool)
| VNum (q : Q)
| VStr (s : jsstring)
| VArr (ref : N) (items : list jsval)
| VObj (ref : N) (props : list (jsstring * jsval))
| VSet (elems : list jsval).

Inductive exn : Type :=
| TypeError
| SyntaxError.

Definition truthy (v : jsval) : bool :=
  match v with
  | VUndefined | VNull => false
  | VBool b => b
  | VNum q => negb (Qeq_bool q 0)
  | VStr s => match s with [] => false | _ => true end
  | VArr _ _ | VObj _ _ | VSet _ => true
  end.

Definition isNullish (v : jsval) : bool :=
  match v with
  | VUndefined | VNull => true
  | _ => false
  end.

(** [===] and the key comparison of [Map] and [Set]; they differ on
    [NaN] only, which is not a value here. *)
Definition sameValue (a b : jsval) : bool :=
  match a, b with
  | VUndefined, VUndefined => true
  | VNull, VNull => true
  | VBool x, VBool y => Bool.eqb x y
  | VNum x, VNum y => Qeq_bool x y
  | VStr x, VStr y => streq x y
  | VArr r _, VArr r' _ => N.eqb r r'
  | VObj r _, VObj r' _ => N.eqb r r'
  | _, _ => false
  end.

(** *** [Map], in insertion order *)
Section Map.
Variables K V : Type.
Variable keq : K -> K -> bool.

Fixpoint mapGet (m : list (K * V)) (k : K) : option V :=
  match m with
  | [] => None
  | (k', v) :: m' => if keq k' k then Some v else mapGet m' k
  end.

(** [m.set(k, v)]: a key already present keeps its place. *)
Fixpoint mapSet (m : list (K * V)) (k : K) (v : V) : list (K * V) :=
  match m with
  | [] => [(k, v)]
  | (k', v') :: m' =>
      if keq k' k then (k', v) :: m' else (k', v') :: mapSet m' k v
  end.

Fixpoint mapDelete (m : list (K * V)) (k : K) : list (K * V) :=
  match m with
  | [] => []
  | (k', v') :: m' => if keq k' k then m' else (k', v') :: mapDelete m' k
  end.
End Map.

(** *** [Set] of values, in insertion order *)
Definition valSetHas (s : list jsval) (x : jsval) : bool :=
  existsb (sameValue x) s.

Definition valSetAdd (s : list jsval) (x : jsval) : list jsval :=
  if valSetHas s x then s else s ++ [x].

Fixpoint valSetDelete (s : list jsval) (x : jsval) : list jsval :=
  match s with
  | [] => []
  | y :: s' => if sameValue y x then s' else y :: valSetDelete s' x
  end.

(** *** Objects *)

(** Reading a property named by an identifier that no prototype of the
    values above defines ([id], [name], [aliases], [ticker],
    [companies], [normalizedName]): an own property of an object,
    [undefined] on any other value that is not [null] or [undefined],
    where the read throws. *)
Definition getField (v : jsval) (k : jsstring) : exn + jsval :=
  match v with
  | VUndefined | VNull => inl TypeError
  | VObj _ props =>
      inr match mapGet streq props k with
          | Some x => x
          | None => VUndefined
          end
  | _ => inr VUndefined
  end.

Definition indexKey (i : nat) : jsstring :=
  str (NilEmpty.string_of_uint (Nat.to_uint i)).

(** A string read as an iterable: one piece for each code point, a
    surrogate pair being one piece.  [pending] is a high surrogate just
    read. *)
Definition isHighSurrogate (c : N) : bool := between 55296 56319 c.
Definition isLowSurrogate (c : N) : bool := between 56320 57343 c.

Fixpoint codePointsFrom (pending : option N) (s : jsstring)
  : list jsstring :=
  match s with
  | [] =>
      match pending with
      | Some h => [[h]]
      | None => []
      end
  | c :: s' =>
      let next :=
        if isHighSurrogate c then codePointsFrom (Some c) s'
        else [c] :: codePointsFrom None s' in
      match pending with
      | Some h =>
          if isLowSurrogate c then [h; c] :: codePointsFrom None s'
          else [h] :: next
      | None => next
      end
  end.

Definition codePoints (s : jsstring) : list jsstring :=
  codePointsFrom None s.

End JsValue.

(** ** part_005, second unit: [CompanyKnowledgeBase] *)

Module CompanyKnowledgeBase.
Import JsValue.

(** The object stored for a company: its properties. *)
Definition company := list (jsstring * jsval).

(** The fields of [this].  [normalizer] tells whether
    [window.CompanyNormalizer] was there when the base was built. *)
Record state := {
  companies : list (jsval * company);
  nameIndex : list (jsstring * list jsval);
  tickerIndex : list (jsstring * jsval);
  aliasIndex : list (jsstring * list jsval);
  normalizer : bool
}.

(** A method body: it reads and writes [this], and returns or throws.
    The state is returned in both cases. *)
Definition M (A : Type) : Type := state -> (exn + A) * state.

Definition ret {A} (a : A) : M A := fun s => (inr a, s).
Definition throw {A} (e : exn) : M A := fun s => (inl e, s).
Definition bind {A B} (m : M A) (f : A -> M B) : M B :=
  fun s =>
    match m s with
    | (inl e, s') => (inl e, s')
    | (inr a, s') => f a s'
    end.
Definition lift {A} (r : exn + A) : M A := fun s => (r, s).
Definition get : M state := fun s => (inr s, s).
Definition put (s : state) : M unit := fun _ => (inr tt, s).

Notation "x <- m ;; k" := (bind m (fun x => k))
  (at level 61, m at next level, right associativity).
Notation "m ;;; k" := (bind m (fun _ => k))
  (at level 61, right associativity).

Fixpoint forEach {A} (f : A -> M unit) (l : list A) : M unit :=
  match l with
  | [] => ret tt
  | a :: l' => f a ;;; forEach f l'
  end.

(** [this.normalizer ? this.normalizer.normalize(v) : v.toLowerCase()] *)
Definition normalizedKey (v : jsval) : M jsstring :=
  s <- get ;;
  if normalizer s
  then ret match v with
           | VStr x => CompanyNormalizer.normalize x
           | _ => []
           end
  else match v with
       | VStr x => ret (toLowerCase x)
       | _ => throw TypeError
       end.

(** [new Set(v)] *)
Definition newSet (v : jsval) : exn + list jsval :=
  match v with
  | VUndefined | VNull => inr []
  | VArr _ items => inr (fold_left valSetAdd items [])
  | VStr x => inr (fold_left valSetAdd (map VStr (codePoints x)) [])
  | VSet elems => inr elems
  | VBool _ | VNum _ | VObj _ _ => inl TypeError
  end.

Definition indexed (l : list jsval) : list (jsstring * jsval) :=
  combine (map indexKey (seq 0 (length l))) l.

(** The own enumerable properties of a value. *)
Definition ownProps (v : jsval) : list (jsstring * jsval) :=
  match v with
  | VObj _ props => props
  | VArr _ items => indexed items
  | VStr x => indexed (map (fun c => VStr [c]) x)
  | _ => []
  end.

Definition k_id := str "id".
Definition k_name := str "name".
Definition k_aliases := str "aliases".
Definition k_ticker := str "ticker".
Definition k_normalizedName := str "normalizedName".
Definition k_dateAdded := str "dateAdded".
Definition k_lastUpdated := str "lastUpdated".
Definition k_companies := str "companies".

(** [Object.assign(target, source)], also the spread of [source] in an
    object literal after the properties of [target]. *)
Definition assign (target : company) (source : list (jsstring * jsval))
  : company :=
  fold_left (fun o p => mapSet streq o (fst p) (snd p)) source target.

Definition addToNameIndex (name : jsstring) (companyId : jsval) : M unit :=
  s <- get ;;
  let existing :=
    match mapGet streq (nameIndex s) name with
    | Some ids => ids
    | None => []
    end in
  put {| companies := companies s;
         nameIndex := mapSet streq (nameIndex s) name
                        (valSetAdd existing companyId);
         tickerIndex := tickerIndex s;
         aliasIndex := aliasIndex s;
         normalizer := normalizer s |}.

Definition addToAliasIndex (alias : jsstring) (companyId : jsval) : M unit :=
  s <- get ;;
  let existing :=
    match mapGet streq (aliasIndex s) alias with
    | Some ids => ids
    | None => []
    end in
  put {| companies := companies s;
         nameIndex := nameIndex s;
         tickerIndex := tickerIndex s;
         aliasIndex := mapSet streq (aliasIndex s) alias
                         (valSetAdd existing companyId);
         normalizer := normalizer s |}.

Definition setCompany (id : jsval) (c : company) : M unit :=
  s <- get ;;
  put {| companies := mapSet sameValue (companies s) id c;
         nameIndex := nameIndex s;
         tickerIndex := tickerIndex s;
         aliasIndex := aliasIndex s;
         normalizer := normalizer s |}.

Definition setTicker (ticker : jsstring) (id : jsval) : M unit :=
  s <- get ;;
  put {| companies := companies s;
         nameIndex := nameIndex s;
         tickerIndex := mapSet streq (tickerIndex s) ticker id;
         aliasIndex := aliasIndex s;
         normalizer := normalizer s |}.

(** [addCompany(companyData)]; [now] is what [Date.now()] answers. *)
Definition addCompany (now : Q) (companyData : jsval) : M unit :=
  (* const { id, name, aliases = [], ticker, ...metadata } = companyData *)
  id <- lift (getField companyData k_id) ;;
  name <- lift (getField companyData k_name) ;;
  aliases0 <- lift (getField companyData k_aliases) ;;
  let aliases := match aliases0 with
                 | VUndefined => VArr 0 []
                 | v => v
                 end in
  ticker <- lift (getField companyData k_ticker) ;;
  let metadata :=
    filter
      (fun p => negb (streq (fst p) k_id || streq (fst p) k_name
                      || streq (fst p) k_aliases || streq (fst p) k_ticker))
      (ownProps companyData) in
  (* this.companies.set(id, { ... }) *)
  normalizedName <- normalizedKey name ;;
  aliasSet <- lift (newSet aliases) ;;
  setCompany id
    (mapSet streq
       (assign
          [(k_id, id); (k_name, name);
           (k_normalizedName, VStr normalizedName);
           (k_aliases, VSet aliasSet); (k_ticker, ticker)]
          metadata)
       k_dateAdded (VNum now)) ;;;
  (* update indexes *)
  normalizedName <- normalizedKey name ;;
  addToNameIndex normalizedName id ;;;
  match aliases with
  | VArr _ items | VSet items =>
      forEach
        (fun alias =>
           normalizedAlias <- normalizedKey alias ;;
           addToAliasIndex normalizedAlias id)
        items
  | _ => throw TypeError
  end ;;;
  if truthy ticker
  then match ticker with
       | VStr t => setTicker (toUpperCase t) id
       | _ => throw TypeError
       end
  else ret tt.

(** What a finder answers. *)
Inductive answer (A : Type) : Type :=
| Null
| Undefined
| Value (a : A).
Arguments Null {A}.
Arguments Undefined {A}.

Definition getCompany (s : state) (id : jsval) : answer company :=
  match mapGet sameValue (companies s) id with
  | Some c => Value c
  | None => Undefined
  end.

Definition normalizeString (s : state) (x : jsstring) : jsstring :=
  if normalizer s then CompanyNormalizer.normalize x else toLowerCase x.

Definition findByName (s : state) (name : jsstring) : answer company :=
  let normalized := normalizeString s name in
  match mapGet streq (nameIndex s) normalized with
  | None | Some [] => Null
  | Some (companyId :: _) => getCompany s companyId
  end.

Definition findByTicker (s : state) (ticker : jsstring) : answer company :=
  match mapGet streq (tickerIndex s) (toUpperCase ticker) with
  | Some companyId =>
      if truthy companyId then getCompany s companyId else Null
  | None => Null
  end.

Definition findByAlias (s : state) (alias : jsstring)
  : answer (list (answer company)) :=
  let normalized := normalizeString s alias in
  match mapGet streq (aliasIndex s) normalized with
  | None | Some [] => Null
  | Some companyIds => Value (map (getCompany s) companyIds)
  end.

Definition getProp (c : company) (k : jsstring) : jsval :=
  match mapGet streq c k with
  | Some v => v
  | None => VUndefined
  end.

(** The removal of the old name from the name index, in
    [updateCompany]; [oldNormalized] is [company.normalizedName]. *)
Definition removeFromNameIndex (oldNormalized : jsval) (companyId : jsval)
  : M unit :=
  s <- get ;;
  match oldNormalized with
  | VStr old =>
      match mapGet streq (nameIndex s) old with
      | Some nameIds =>
          let nameIds' := valSetDelete nameIds companyId in
          put {| companies := companies s;
                 nameIndex :=
                   match nameIds' with
                   | [] => mapDelete streq (nameIndex s) old
                   | _ => mapSet streq (nameIndex s) old nameIds'
                   end;
                 tickerIndex := tickerIndex s;
                 aliasIndex := aliasIndex s;
                 normalizer := normalizer s |}
      | None => ret tt
      end
  | _ => ret tt
  end.

Definition companyOf (companyId : jsval) : M (option company) :=
  s <- get ;; ret (mapGet sameValue (companies s) companyId).

(** [updateCompany(companyId, updates)] *)
Definition updateCompany (now : Q) (companyId : jsval) (updates : jsval)
  : M bool :=
  found <- companyOf companyId ;;
  match found with
  | None => ret false
  | Some company0 =>
      (* Object.assign(company, updates, { lastUpdated: Date.now() }) *)
      let company1 :=
        assign (assign company0 (ownProps updates))
          [(k_lastUpdated, VNum now)] in
      setCompany companyId company1 ;;;
      (* if (updates.name && updates.name !== company.name) *)
      newName <- lift (getField updates k_name) ;;
      if truthy newName && negb (sameValue newName (getProp company1 k_name))
      then
        removeFromNameIndex (getProp company1 k_normalizedName) companyId ;;;
        newNormalized <- normalizedKey newName ;;
        setCompany companyId
          (mapSet streq company1 k_normalizedName (VStr newNormalized)) ;;;
        addToNameIndex newNormalized companyId ;;;
        ret true
      else ret true
  end.

(** What [JSON.parse(jsonData)] does with the text given to [fromJSON]:
    it throws a [SyntaxError] or returns the decoded value. *)
Inductive parsed : Type :=
| ParseError
| Parsed (data : jsval).

Definition clear : M unit :=
  s <- get ;;
  put {| companies := []; nameIndex := []; tickerIndex := [];
         aliasIndex := []; normalizer := normalizer s |}.

(** [addCompany] on each element in turn; [clock i] is what [Date.now()]
    answers for the element of index [i]. *)
Fixpoint addAll (clock : nat -> Q) (i : nat) (l : list jsval) : M unit :=
  match l with
  | [] => ret tt
  | c :: l' => addCompany (clock i) c ;;; addAll clock (S i) l'
  end.

(** The [try] block of [fromJSON]. *)
Definition importData (clock : nat -> Q) (jsonData : parsed) : M bool :=
  match jsonData with
  | ParseError => throw SyntaxError
  | Parsed data =>
      clear ;;;
      cs <- lift (getField data k_companies) ;;
      match cs with
      | VArr _ items => addAll clock 0 items
      | _ => ret tt
      end ;;;
      ret true
  end.

(** [fromJSON(jsonData)]: the [catch] answers [false]. *)
Definition fromJSON (clock : nat -> Q) (jsonData : parsed) (s : state)
  : bool * state :=
  match importData clock jsonData s with
  | (inr b, s') => (b, s')
  | (inl _, s') => (false, s')
  end.

(** *** The companies loaded by the constructor *)

Definition sv (x : string) : jsval := VStr (str x).

Definition seed (ref : N) (id name : string) (aliases : list string)
  (ticker exchange industry : string) (more : list (jsstring * jsval))
  : jsval :=
  VObj ref
    ([(k_id, sv id); (k_name, sv name);
      (k_aliases, VArr (ref + 1) (map sv aliases));
      (k_ticker, sv ticker);
      (str "exchange", sv exchange);
      (str "industry", sv industry);
      (str "type", sv "corporation")] ++ more).

Definition commonCompanies : list jsval :=
  [seed 10 "apple" "Apple Inc."
     ["Apple"; "Apple Computer"; "Apple Computer Inc."; "AAPL"]
     "AAPL" "NASDAQ" "Technology" [];
   seed 20 "microsoft" "Microsoft Corporation"
     ["Microsoft"; "Microsoft Corp."; "MSFT"]
     "MSFT" "NASDAQ" "Technology" [];
   seed 30 "alphabet" "Alphabet Inc."
     ["Alphabet"; "Google"; "Google Inc."; "GOOGL"; "GOOG"]
     "GOOGL" "NASDAQ" "Technology"
     [(str "subsidiaries",
       VArr 32 [sv "Google"; sv "YouTube"; sv "Waymo"])];
   seed 40 "amazon" "Amazon.com Inc."
     ["Amazon"; "Amazon.com"; "AMZN"]
     "AMZN" "NASDAQ" "E-commerce/Cloud" [];
   seed 50 "meta" "Meta Platforms Inc."
     ["Meta"; "Facebook"; "Facebook Inc."; "FB"; "META"]
     "META" "NASDAQ" "Technology"
     [(str "previousNames", VArr 52 [sv "Facebook Inc."])];
   seed 60 "berkshire" "Berkshire Hathaway Inc."
     ["Berkshire Hathaway"; "Berkshire"; "BRK.A"; "BRK.B"]
     "BRK.A" "NYSE" "Conglomerate" [];
   seed 70 "jpmorgan" "JPMorgan Chase & Co."
     ["JPMorgan"; "JP Morgan"; "JPMorgan Chase"; "Chase"; "JPM"]
     "JPM" "NYSE" "Banking" [];
   seed 80 "walmart" "Walmart Inc."
     ["Walmart"; "Wal-Mart"; "Wal-Mart Stores"; "WMT"]
     "WMT" "NYSE" "Retail" [];
   seed 90 "tesla" "Tesla Inc."
     ["Tesla"; "Tesla Motors"; "TSLA"]
     "TSLA" "NASDAQ" "Automotive/Energy" [];
   seed 100 "nvidia" "NVIDIA Corporation"
     ["NVIDIA"; "Nvidia"; "NVDA"]
     "NVDA" "NASDAQ" "Technology" []]%string.

Definition empty (hasNormalizer : bool) : state :=
  {| companies := []; nameIndex := []; tickerIndex := [];
     aliasIndex := []; normalizer := hasNormalizer |}.

(** [new CompanyKnowledgeBase()] *)
Definition construct (hasNormalizer : bool) (clock : nat -> Q) : state :=
  snd (addAll clock 0 commonCompanies (empty hasNormalizer)).

(** *** [search], with a fuzzy matcher

    [searchCandidates] is the list that the first loop of [search]
    collects from the names, the aliases and the tickers of the
    companies; the texts compared are strings. *)
Record Candidate := {
  text : jsval;
  normalized : jsstring;
  companyId : jsval;
  type : jsstring;
  boost : Q
}.

(** A candidate with its score. *)
Record Scored := {
  candidate : Candidate;
  score : Q
}.

Record SearchResult := {
  r_company : answer company;
  r_score : Q;
  r_matchType : jsstring;
  r_matchedText : jsval
}.

(** [searchCandidates.map(...).filter(...).sort(...)] *)
Definition matchesOf (normalizedQuery : jsstring) (threshold : Q)
  (searchCandidates : list Candidate) : list Scored :=
  sortBy (fun a b => Qle_bool (score b - score a) 0)
    (filter (fun m => Qle_bool threshold (score m))
       (map
          (fun c =>
             {| candidate := c;
                score :=
                  (FuzzyMatcher.enhancedCompanyRatio normalizedQuery
                     (normalized c) * boost c)%Q |})
          searchCandidates)).

(** The last loop of [search]: the matches that give a result, with
    [seen] and [results.length] as they stand. *)
Fixpoint collect (limit : Q) (seen : list jsval) (results : nat)
  (matches : list Scored) : list Scored :=
  match matches with
  | [] => []
  | m :: rest =>
      if negb (valSetHas seen (companyId (candidate m)))
      then
        m :: (if Qle_bool limit (FuzzyMatcher.ofNat (S results)) then []
              else collect limit (valSetAdd seen (companyId (candidate m)))
                     (S results) rest)
      else collect limit seen results rest
  end.

Definition resultOf (s : state) (m : Scored) : SearchResult :=
  {| r_company := getCompany s (companyId (candidate m));
     r_score := score m;
     r_matchType := type (candidate m);
     r_matchedText := text (candidate m) |}.

Definition search (s : state) (searchCandidates : list Candidate)
  (query : jsstring) (limit threshold : Q) : list SearchResult :=
  let normalizedQuery := normalizeString s query in
  map (resultOf s)
    (collect limit [] 0 (matchesOf normalizedQuery threshold searchCandidates)).

End CompanyKnowledgeBase.

(** ** part_005, first unit: [ConfidenceScorer] *)

Module ConfidenceScorer.

(** The shape of [factors] and [context] that the callers build.  A
    field that may be left out is an [option]. *)
Record PatternMatch := {
  pm_confidence : option Q;
  pm_type : option jsstring;
  pm_entity : option jsstring
}.

Record Clue := { clue_type : jsstring }.

Record DomContext := {
  dc_confidence : option Q;
  dc_position : option (list jsstring);
  dc_contextClues : option (list Clue)
}.

(** An entity of [nlpConfidence.entities].  [normalized] is left out
    by the callers that pass the entities of a recognition result with
    their text, type and confidence only. *)
Record NlpEntity := {
  ne_confidence : Q;
  ne_normalized : option jsstring
}.

Record NlpConfidence := {
  nc_confidence : option Q;
  nc_entities : option (list NlpEntity)
}.

Record Entity := {
  e_text : option jsstring;
  e_normalized : option jsstring;
  e_type : option jsstring
}.

Record Factors := {
  f_patternMatch : option PatternMatch;
  f_domContext : option DomContext;
  f_nlpConfidence : option NlpConfidence;
  f_entity : option Entity
}.

Record Context := { industry : option jsstring }.

(** [factors] after [validateFactors]: the confidences are numbers and
    the two texts of the entity are strings. *)
Record Validated := {
  v_patternMatch : PatternMatch;
  v_patternConfidence : Q;
  v_domContext : DomContext;
  v_domConfidence : Q;
  v_nlpConfidence : NlpConfidence;
  v_nlpValue : Q;
  v_entityText : jsstring;
  v_entityNormalized : jsstring;
  v_entityType : option jsstring
}.

Record Weights := {
  w_patternMatch : Q;
  w_domContext : Q;
  w_nlpConfidence : Q;
  w_crossReference : Q;
  w_contextConsistency : Q
}.

Definition weights : Weights :=
  {| w_patternMatch := 0.25; w_domContext := 0.20; w_nlpConfidence := 0.25;
     w_crossReference := 0.15; w_contextConsistency := 0.15 |}%Q.

Record Thresholds := { t_high : Q; t_medium : Q; t_low : Q }.

Definition thresholds : Thresholds :=
  {| t_high := 0.85; t_medium := 0.65; t_low := 0.45 |}%Q.

Record KnownEntity := {
  ke_name : jsstring;
  ke_aliases : list jsstring;
  ke_ticker : option jsstring;
  ke_sector : jsstring
}.

Definition known (name : string) (aliases : list string)
  (ticker : option string) (sector : string) : KnownEntity :=
  {| ke_name := str name; ke_aliases := map str aliases;
     ke_ticker := option_map str ticker; ke_sector := str sector |}.

Definition knownCompanies : list KnownEntity :=
  [known "Apple Inc." ["Apple"; "AAPL"] (Some "AAPL") "technology";
   known "Microsoft Corporation" ["Microsoft"; "MSFT"] (Some "MSFT")
     "technology";
   known "Alphabet Inc." ["Google"; "Alphabet"; "GOOGL"; "GOOG"]
     (Some "GOOGL") "technology";
   known "Amazon.com Inc." ["Amazon"; "AMZN"] (Some "AMZN") "technology";
   known "Meta Platforms Inc." ["Facebook"; "Meta"; "FB"; "META"]
     (Some "META") "technology";
   known "JPMorgan Chase & Co." ["JPMorgan"; "Chase"; "JPM"] (Some "JPM")
     "finance";
   known "Bank of America Corporation" ["Bank of America"; "BofA"; "BAC"]
     (Some "BAC") "finance";
   known "Wells Fargo & Company" ["Wells Fargo"; "WFC"] (Some "WFC")
     "finance";
   known "Goldman Sachs Group Inc." ["Goldman Sachs"; "Goldman"; "GS"]
     (Some "GS") "finance";
   known "Morgan Stanley" ["MS"] (Some "MS") "finance";
   known "The Vanguard Group" ["Vanguard"] None "asset_management";
   known "BlackRock Inc." ["BlackRock"; "BLK"] (Some "BLK")
     "asset_management";
   known "State Street Corporation" ["State Street"; "STT"] (Some "STT")
     "asset_management";
   known "Fidelity Investments" ["Fidelity"] None "asset_management"]%string.

(** The keys under which [initializeKnownEntities] files one company,
    in the order of its [set] calls. *)
Definition keysOf (c : KnownEntity) : list jsstring :=
  toLowerCase (ke_name c)
  :: map toLowerCase (ke_aliases c)
  ++ match ke_ticker c with
     | Some t => [toLowerCase t; toLowerCase (36 :: t)]
     | None => []
     end.

Definition knownEntities : list (jsstring * KnownEntity) :=
  Eval vm_compute in
    fold_left
      (fun m c =>
         fold_left (fun m' k => JsValue.mapSet streq m' k c) (keysOf c) m)
      knownCompanies [].

Definition orZero (o : option Q) : Q :=
  match o with
  | Some q => q
  | None => 0%Q
  end.

Definition orEmpty (o : option jsstring) : jsstring :=
  match o with
  | Some s => s
  | None => []
  end.

Definition emptyPatternMatch : PatternMatch :=
  {| pm_confidence := None; pm_type := None; pm_entity := None |}.
Definition emptyDomContext : DomContext :=
  {| dc_confidence := None; dc_position := None; dc_contextClues := None |}.
Definition emptyNlpConfidence : NlpConfidence :=
  {| nc_confidence := None; nc_entities := None |}.
Definition emptyEntity : Entity :=
  {| e_text := None; e_normalized := None; e_type := None |}.

Definition validateFactors (factors : Factors) : Validated :=
  let patternMatch :=
    match f_patternMatch factors with Some x => x
                                    | None => emptyPatternMatch end in
  let domContext :=
    match f_domContext factors with Some x => x
                                  | None => emptyDomContext end in
  let nlpConfidence :=
    match f_nlpConfidence factors with Some x => x
                                     | None => emptyNlpConfidence end in
  let entity :=
    match f_entity factors with Some x => x | None => emptyEntity end in
  let text := orEmpty (e_text entity) in
  {| v_patternMatch := patternMatch;
     v_patternConfidence := orZero (pm_confidence patternMatch);
     v_domContext := domContext;
     v_domConfidence := orZero (dc_confidence domContext);
     v_nlpConfidence := nlpConfidence;
     v_nlpValue := orZero (nc_confidence nlpConfidence);
     v_entityText := text;
     v_entityNormalized :=
       match orEmpty (e_normalized entity) with
       | [] => text
       | n => n
       end;
     v_entityType := e_type entity |}.

Definition typeIs (t : option jsstring) (name : string) : bool :=
  match t with
  | Some s => streq s (str name)
  | None => false
  end.

Definition scorePatternMatch (v : Validated) : Q :=
  let t := pm_type (v_patternMatch v) in
  let score := v_patternConfidence v in
  let score :=
    if typeIs t "ticker" then (score * 1.2)%Q
    else if typeIs t "company_formal" then (score * 1.1)%Q
    else score in
  let score :=
    if typeIs t "company_context" then (score * 0.8)%Q else score in
  Qmin score 1.0%Q.

Definition hasTag (position : list jsstring) (name : string) : bool :=
  existsb (streq (str name)) position.

Definition scoreDOMContext (v : Validated) : Q :=
  let score := v_domConfidence v in
  let score :=
    match dc_position (v_domContext v) with
    | Some position =>
        if hasTag position "h1" then (score * 1.3)%Q
        else if hasTag position "h2" then (score * 1.2)%Q
        else if hasTag position "firstParagraph" then (score * 1.15)%Q
        else score
    | None => score
    end in
  let score :=
    match dc_contextClues (v_domContext v) with
    | Some contextClues =>
        let hasStrongClues :=
          existsb
            (fun clue =>
               streq (clue_type clue) (str "dataAttribute")
               || includes (clue_type clue) (str "ticker"))
            contextClues in
        if hasStrongClues then (score * 1.25)%Q else score
    | None => score
    end in
  Qmin score 1.0%Q.

(** [a > b] on numbers *)
Definition gt (a b : Q) : bool := negb (Qle_bool a b).

Definition scoreNLPConfidence (v : Validated) : Q :=
  let score := v_nlpValue v in
  let score :=
    match nc_entities (v_nlpConfidence v) with
    | Some (topEntity :: rest) =>
        let score :=
          if gt (ne_confidence topEntity) 0.9%Q then (score * 1.15)%Q
          else score in
        let supportingEntities :=
          filter (fun e => gt (ne_confidence e) 0.7%Q) rest in
        if Nat.ltb 0 (length supportingEntities) then (score * 1.1)%Q
        else score
    | _ => score
    end in
  Qmin score 1.0%Q.

(** Jaccard similarity of the words of two strings. *)
Definition calculateSimilarity (str1 str2 : jsstring) : Q :=
  let words1 := setOf (splitSpaces (toLowerCase str1)) in
  let words2 := setOf (splitSpaces (toLowerCase str2)) in
  let intersection := filter (setHas words2) words1 in
  let union := setOf (words1 ++ words2) in
  (FuzzyMatcher.ofNat (length intersection)
   / FuzzyMatcher.ofNat (length union))%Q.

Definition fuzzyMatchKnownEntity (entityText : jsstring) : Q :=
  fold_left
    (fun bestScore entry =>
       let similarity := calculateSimilarity entityText (fst entry) in
       if gt similarity 0.8%Q then Qmax bestScore (similarity * 0.8)%Q
       else bestScore)
    knownEntities 0%Q.

Definition sectorMap : list (jsstring * list jsstring) :=
  map (fun p => (str (fst p), map str (snd p)))
    [("technology", ["tech"; "software"; "internet"; "digital"]);
     ("finance", ["financial"; "banking"; "investment"]);
     ("asset_management", ["investment"; "fund"; "capital"])]%string.

Definition checkSectorConsistency (detectedIndustry knownSector : jsstring)
  : bool :=
  let sectorKeywords :=
    match JsValue.mapGet streq sectorMap knownSector with
    | Some l => l
    | None => []
    end in
  existsb (fun keyword => includes (toLowerCase detectedIndustry) keyword)
    sectorKeywords.

Definition optStreq (a : option jsstring) (b : jsstring) : bool :=
  match a with
  | Some x => streq x b
  | None => false
  end.

Definition scoreCrossReference (v : Validated) (context : Context) : Q :=
  let normalizedEntity :=
    match toLowerCase (v_entityNormalized v) with
    | [] => toLowerCase (v_entityText v)
    | n => n
    end in
  match JsValue.mapGet streq knownEntities normalizedEntity with
  | None => fuzzyMatchKnownEntity normalizedEntity
  | Some knownEntity =>
      let score := 0.9%Q in
      let score :=
        if typeIs (v_entityType v) "ticker"
           && optStreq (ke_ticker knownEntity) (toUpperCase (v_entityText v))
        then 1.0%Q else score in
      let score :=
        match industry context with
        | Some i =>
            if negb (FuzzyMatcher.isEmpty i)
               && negb (FuzzyMatcher.isEmpty (ke_sector knownEntity))
            then
              if checkSectorConsistency i (ke_sector knownEntity)
              then (score * 1.1)%Q else (score * 0.9)%Q
            else score
        | None => score
        end in
      Qmin score 1.0%Q
  end.

Definition nonEmpty (o : option jsstring) : option jsstring :=
  match o with
  | Some [] => None
  | x => x
  end.

(** The check of the pattern against the first NLP entity, in
    [scoreContextConsistency]: the values pushed, or [None] when
    [entities[0].normalized] is not there and [.toLowerCase()] throws a
    [TypeError]. *)
Definition patternCheck (v : Validated) : option (list Q) :=
  match nonEmpty (pm_entity (v_patternMatch v)),
        nc_entities (v_nlpConfidence v) with
  | Some e, Some (first :: _) =>
      let patternEntity := toLowerCase e in
      match ne_normalized first with
      | Some normalized =>
          let nlpEntity := toLowerCase normalized in
          Some (if streq patternEntity nlpEntity then [1.0%Q]
                else if gt (calculateSimilarity patternEntity nlpEntity) 0.7%Q
                then [0.8%Q]
                else [0.5%Q])
      | None => None
      end
  | _, _ => Some []
  end.

(** The check of the context clues against the type of the entity. *)
Definition clueCheck (v : Validated) : list Q :=
  match dc_contextClues (v_domContext v), nonEmpty (v_entityType v) with
  | Some contextClues, Some t =>
      let hasRelevantClues :=
        existsb
          (fun clue =>
             if streq t (str "ticker")
             then includes (clue_type clue) (str "ticker")
                  || includes (clue_type clue) (str "symbol")
             else includes (clue_type clue) (str "company"))
          contextClues in
      [if hasRelevantClues then 1.0%Q else 0.6%Q]
  | _, _ => []
  end.

(** The list [consistencyChecks], or [None] when the first check
    throws. *)
Definition consistencyChecks (v : Validated) : option (list Q) :=
  match patternCheck v with
  | Some checks => Some (checks ++ clueCheck v)
  | None => None
  end.

(** [scoreContextConsistency(factors, context)]: the score, or [None]
    when it throws. *)
Definition scoreContextConsistency (v : Validated) : option Q :=
  match consistencyChecks v with
  | Some [] => Some 0.7%Q
  | Some checks =>
      Some (fold_left Qplus checks 0 / FuzzyMatcher.ofNat (length checks))%Q
  | None => None
  end.

Record Scores := {
  s_patternMatch : Q;
  s_domContext : Q;
  s_nlpConfidence : Q;
  s_crossReference : Q;
  s_contextConsistency : Q
}.

Definition calculateWeightedScore (scores : Scores) : Q :=
  let entries :=
    [(s_patternMatch scores, w_patternMatch weights);
     (s_domContext scores, w_domContext weights);
     (s_nlpConfidence scores, w_nlpConfidence weights);
     (s_crossReference scores, w_crossReference weights);
     (s_contextConsistency scores, w_contextConsistency weights)] in
  let weightedSum :=
    fold_left (fun acc e => (acc + fst e * snd e)%Q) entries 0%Q in
  let totalWeight := fold_left (fun acc e => (acc + snd e)%Q) entries 0%Q in
  if Qlt_le_dec 0 totalWeight then (weightedSum / totalWeight)%Q else 0%Q.

Inductive Level : Type := high | medium | low | reject | error.

Definition determineConfidenceLevel (score : Q) : Level :=
  if Qle_bool (t_high thresholds) score then high
  else if Qle_bool (t_medium thresholds) score then medium
  else if Qle_bool (t_low thresholds) score then low
  else reject.

Record ScoreResult := {
  score : Q;
  level : Level;
  breakdown : option Scores
}.

(** The answer of the [catch] block. *)
Definition scoringError : ScoreResult :=
  {| score := 0%Q; level := error; breakdown := None |}.

(** [calculateScore(factors, context)], without the text of the
    recommendation and the running statistics.  The step of the [try]
    block that can throw on these inputs is [scoreContextConsistency];
    the [catch] block then answers [scoringError]. *)
Definition calculateScore (factors : Factors) (context : Context)
  : ScoreResult :=
  let validatedFactors := validateFactors factors in
  match scoreContextConsistency validatedFactors with
  | Some contextConsistency =>
      let scores :=
        {| s_patternMatch := scorePatternMatch validatedFactors;
           s_domContext := scoreDOMContext validatedFactors;
           s_nlpConfidence := scoreNLPConfidence validatedFactors;
           s_crossReference := scoreCrossReference validatedFactors context;
           s_contextConsistency := contextConsistency |} in
      let finalScore := calculateWeightedScore scores in
      {| score := finalScore;
         level := determineConfidenceLevel finalScore;
         breakdown := Some scores |}
  | None => scoringError
  end.

(** *** The recommendation and the statistics *)

(** [Object.entries(breakdown)] *)
Definition entries (breakdown : Scores) : list (jsstring * Q) :=
  [(str "patternMatch", s_patternMatch breakdown);
   (str "domContext", s_domContext breakdown);
   (str "nlpConfidence", s_nlpConfidence breakdown);
   (str "crossReference", s_crossReference breakdown);
   (str "contextConsistency", s_contextConsistency breakdown)].

Definition factorNames : list (jsstring * jsstring) :=
  map (fun p => (str (fst p), str (snd p)))
    [("patternMatch", "pattern matching");
     ("domContext", "DOM position");
     ("nlpConfidence", "NLP extraction");
     ("crossReference", "entity verification");
     ("contextConsistency", "context consistency")]%string.

(** The loop of [findWeakestFactor] on [(weakest, lowestScore)]. *)
Definition weakestOf (l : list (jsstring * Q)) (acc : option jsstring * Q)
  : option jsstring * Q :=
  fold_left
    (fun acc e =>
       if negb (Qle_bool (snd acc) (snd e)) then (Some (fst e), snd e)
       else acc)
    l acc.

Definition findWeakestFactor (breakdown : Scores) : jsstring :=
  match fst (weakestOf (entries breakdown) (None, 1.0%Q)) with
  | Some weakest =>
      match JsValue.mapGet streq factorNames weakest with
      | Some name => name
      | None => str "unknown factor"
      end
  | None => str "unknown factor"
  end.

Definition getRecommendation (score : Q) (level : Level) (breakdown : Scores)
  : jsstring :=
  match level with
  | high => str "Entity highly reliable - proceed with confidence"
  | medium =>
      str "Entity moderately reliable - verify "
      ++ findWeakestFactor breakdown
  | low => str "Entity uncertain - additional validation recommended"
  | _ => str "Entity not reliable - consider rejection"
  end.

Record Distribution := {
  d_high : nat;
  d_medium : nat;
  d_low : nat;
  d_reject : nat
}.

Record ScoringStats := {
  totalScored : nat;
  averageScore : Q;
  distributionByLevel : Distribution
}.

(** [updateStatistics(score, level)].  For a level that is none of the
    four keys the four counts stay as they are. *)
Definition updateStatistics (score : Q) (level : Level) (stats : ScoringStats)
  : ScoringStats :=
  let total := S (totalScored stats) in
  let d := distributionByLevel stats in
  {| totalScored := total;
     averageScore :=
       ((averageScore stats * FuzzyMatcher.ofNat (total - 1) + score)
        / FuzzyMatcher.ofNat total)%Q;
     distributionByLevel :=
       match level with
       | high =>
           {| d_high := S (d_high d); d_medium := d_medium d;
              d_low := d_low d; d_reject := d_reject d |}
       | medium =>
           {| d_high := d_high d; d_medium := S (d_medium d);
              d_low := d_low d; d_reject := d_reject d |}
       | low =>
           {| d_high := d_high d; d_medium := d_medium d;
              d_low := S (d_low d); d_reject := d_reject d |}
       | reject =>
           {| d_high := d_high d; d_medium := d_medium d;
              d_low := d_low d; d_reject := S (d_reject d) |}
       | error => d
       end |}.

End ConfidenceScorer.

(** ** dom-interpreter.js: the structural weight *)

Module DOMInterpreter.

(** A number, or [NaN]. *)
Inductive num : Type :=
| Num (q : Q)
| NaN.

Definition positionWeights : list (jsstring * Q) :=
  map (fun p => (str (fst p), snd p))
    [("title", 1.0); ("h1", 0.9); ("h2", 0.8); ("h3", 0.7);
     ("articleHeader", 0.85); ("articleBody", 0.6); ("sidebar", 0.3);
     ("footer", 0.1)]%string%Q.

(** The names that [positionWeights] inherits from [Object.prototype]:
    reading one of them gives a function or an object, not a number. *)
Definition inheritedNames : list jsstring :=
  map str
    ["constructor"; "toString"; "toLocaleString"; "valueOf";
     "hasOwnProperty"; "isPrototypeOf"; "propertyIsEnumerable";
     "__proto__"; "__defineGetter__"; "__defineSetter__";
     "__lookupGetter__"; "__lookupSetter__"]%string.

(** [this.positionWeights[pos] || 0.5], as the argument of [Math.max]. *)
Definition weightOf (pos : jsstring) : num :=
  match JsValue.mapGet streq positionWeights pos with
  | Some w => if Qeq_bool w 0 then Num 0.5%Q else Num w
  | None => if setHas inheritedNames pos then NaN else Num 0.5%Q
  end.

(** [Math.max(a, b)] *)
Definition max (a b : num) : num :=
  match a, b with
  | Num x, Num y => Num (Qmax x y)
  | _, _ => NaN
  end.

Definition calculateStructuralWeight (positions : list jsstring) : num :=
  fold_left (fun maxWeight pos => max maxWeight (weightOf pos))
    positions (Num 0%Q).

(** *** [calculateDOMConfidence] *)

(** The multipliers of a profile that [calculateDOMConfidence] reads;
    [None] for one that the profile does not give. *)
Record Multipliers := {
  inHeadline : option Q;
  inFirstParagraph : option Q;
  hasDataSymbol : option Q;
  hasTicker : option Q;
  hasCompanyTag : option Q
}.

(** The multiplier as a condition. *)
Definition given (multiplier : option Q) : bool :=
  match multiplier with
  | Some q => negb (Qeq_bool q 0)
  | None => false
  end.

(** [confidence *= multiplier] *)
Definition times (confidence : num) (multiplier : option Q) : num :=
  match confidence, multiplier with
  | Num c, Some q => Num (c * q)
  | _, _ => NaN
  end.

(** One turn of the loop over the context clues, on the type of the
    clue. *)
Definition applyClue (multipliers : Multipliers) (confidence : num)
  (clueType : jsstring) : num :=
  if streq clueType (str "dataAttribute") && given (hasDataSymbol multipliers)
  then times confidence (hasDataSymbol multipliers)
  else if includes clueType (str "ticker") && given (hasTicker multipliers)
  then times confidence (hasTicker multipliers)
  else if includes clueType (str "company")
          && given (hasCompanyTag multipliers)
  then times confidence (hasCompanyTag multipliers)
  else confidence.

(** [calculateDOMConfidence(analysis, profile)] on the structural
    weight, the positions and the types of the context clues of the
    analysis, and the multipliers of the profile. *)
Definition calculateDOMConfidence (structuralWeight : num)
  (position : list jsstring) (clueTypes : list jsstring)
  (multipliers : Multipliers) : num :=
  let confidence := structuralWeight in
  let confidence :=
    if setHas position (str "h1") && given (inHeadline multipliers)
    then times confidence (inHeadline multipliers) else confidence in
  let confidence :=
    if setHas position (str "firstParagraph")
       && given (inFirstParagraph multipliers)
    then times confidence (inFirstParagraph multipliers) else confidence in
  let confidence := fold_left (applyClue multipliers) clueTypes confidence in
  match confidence with
  | Num c => Num (Qmin c 1.0)
  | NaN => NaN
  end.

(** The multipliers of the four profiles of [loadSiteProfiles]. *)
Definition siteMultipliers : list (jsstring * Multipliers) :=
  [(str "forbes",
    {| inHeadline := Some 1.5%Q; inFirstParagraph := Some 1.3%Q;
       hasDataSymbol := None; hasTicker := None; hasCompanyTag := None |});
   (str "yahoo",
    {| inHeadline := None; inFirstParagraph := None;
       hasDataSymbol := Some 2.0%Q; hasTicker := None;
       hasCompanyTag := None |});
   (str "bloomberg",
    {| inHeadline := Some 1.5%Q; inFirstParagraph := None;
       hasDataSymbol := None; hasTicker := Some 1.6%Q;
       hasCompanyTag := Some 1.4%Q |});
   (str "marketwatch",
    {| inHeadline := Some 1.4%Q; inFirstParagraph := Some 1.3%Q;
       hasDataSymbol := None; hasTicker := None; hasCompanyTag := None |})].

End DOMInterpreter.

(** ** nlp-processor.js: [SecureNLPProcessor] *)

Module SecureNLPProcessor.

Definition maxInputLength : nat := 1000.
Definition maxEntities : nat := 20.
Definition cacheTimeout : Z := 300000.

Record Entity := {
  text : jsstring;
  normalized : jsstring;
  type : jsstring;
  confidence : Q;
  pattern : jsstring;
  position : Z
}.

(** The comparison function of [validateAndRankEntities]. *)
Definition compareEntities (a b : Entity) : Q :=
  if negb (Qeq_bool (confidence a) (confidence b))
  then (confidence b - confidence a)%Q
  else inject_Z (position a - position b).

(** [entities.sort(...)], the first step of [validateAndRankEntities]. *)
Definition sortEntities (entities : list Entity) : list Entity :=
  sortBy (fun a b => Qle_bool (compareEntities a b) 0) entities.

(** The object that [extractEntities] resolves to. *)
Record Result := {
  entities : list Entity;
  overallConfidence : Q;
  processingTime : option Q;
  errorMessage : option jsstring
}.

Record CacheEntry := {
  data : Result;
  timestamp : Z
}.

Record Stats := {
  totalProcessed : nat;
  averageTime : Q;
  cacheHits : nat
}.

Record state := {
  entityCache : list (jsstring * CacheEntry);
  performanceStats : Stats
}.

Definition isControl (c : N) : bool := between 0 31 c || between 127 159 c.

Definition sanitizeInput (text : jsstring) : jsstring :=
  let text :=
    if Nat.ltb maxInputLength (length text)
    then firstn maxInputLength text else text in
  trim
    (collapseSpaces
       (filter (fun c => negb (isControl c))
          (filter (fun c => negb (N.eqb c 60 || N.eqb c 62)) text))).

(** [ToInt32]: the result of a bitwise operator. *)
Definition toInt32 (z : Z) : Z :=
  ((z + 2147483648) mod 4294967296 - 2147483648)%Z.

(** One turn of the loop of [generateCacheKey]. *)
Definition hashStep (hash : Z) (char : N) : Z :=
  let hash := (toInt32 (Z.shiftl (toInt32 hash) 5) - hash + Z.of_N char)%Z in
  toInt32 (Z.land (toInt32 hash) (toInt32 hash)).

Definition generateCacheKey (text : jsstring) : jsstring :=
  let hash :=
    fold_left hashStep (firstn (Nat.min (length text) 100) text) 0%Z in
  str "nlp_" ++ str (NilEmpty.string_of_uint (N.to_uint (Z.to_N (Z.abs hash)))).

(** [checkCache(key)]; [now] is what [Date.now()] answers. *)
Definition checkCache (now : Z) (key : jsstring)
  (cache : list (jsstring * CacheEntry))
  : option Result * list (jsstring * CacheEntry) :=
  match JsValue.mapGet streq cache key with
  | Some cached =>
      if Z.ltb (now - timestamp cached) cacheTimeout
      then (Some (data cached), cache)
      else (None, JsValue.mapDelete streq cache key)
  | None => (None, cache)
  end.

(** [cacheResults(key, results)] *)
Definition cacheResults (now : Z) (key : jsstring) (results : Result)
  (cache : list (jsstring * CacheEntry)) : list (jsstring * CacheEntry) :=
  let cache :=
    if Nat.ltb 1000 (length cache)
    then match cache with
         | (firstKey, _) :: _ => JsValue.mapDelete streq cache firstKey
         | [] => cache
         end
    else cache in
  JsValue.mapSet streq cache key {| data := results; timestamp := now |}.

Definition updatePerformanceStats (processingTime : Q) (s : Stats) : Stats :=
  let total := S (totalProcessed s) in
  {| totalProcessed := total;
     averageTime :=
       ((averageTime s * FuzzyMatcher.ofNat (total - 1) + processingTime)
        / FuzzyMatcher.ofNat total)%Q;
     cacheHits := cacheHits s |}.

(** [normalizeEntity(entity)]: trailing punctuation and leading quotes
    are taken off the trimmed text with single spaces. *)
Fixpoint dropWhile (p : N -> bool) (s : jsstring) : jsstring :=
  match s with
  | c :: s' => if p c then dropWhile p s' else s
  | [] => []
  end.

Definition dropWhileEnd (p : N -> bool) (s : jsstring) : jsstring :=
  rev (dropWhile p (rev s)).

(** The class of the first pattern: full stop, comma, semicolon, colon,
    exclamation mark, question mark and the two quotes. *)
Definition isMark (c : N) : bool :=
  existsb (N.eqb c) [46; 44; 59; 58; 33; 63; 39; 34].

(** The class of the second pattern: the two quotes. *)
Definition isQuote (c : N) : bool := N.eqb c 39 || N.eqb c 34.

Definition normalizeEntity (entity : jsstring) : jsstring :=
  dropWhile isQuote (dropWhileEnd isMark (collapseSpaces (trim entity))).

(** The weights of [calculateOverallConfidence], as they are written. *)
Definition typeWeights : list (jsstring * Q) :=
  map (fun p => (str (fst p), snd p))
    [("ticker", 1.0); ("company", 0.9); ("company_abbrev", 0.8);
     ("company_intl", 0.85); ("company_context", 0.7)]%string%Q.

(** In [calculateOverallConfidence] the numbers are doubles: [round]
    takes the exact value of a literal or of an arithmetic operation to
    the double that stands for it.

    [weights[entity.type] || 0.5]: a number, or for a name that
    [weights] inherits from [Object.prototype] a function or an object
    ([None]). *)
Definition weightOfType (round : Q -> Q) (t : jsstring) : option Q :=
  match JsValue.mapGet streq typeWeights t with
  | Some w => if Qeq_bool (round w) 0 then Some (round 0.5%Q)
              else Some (round w)
  | None =>
      if setHas DOMInterpreter.inheritedNames t then None
      else Some (round 0.5%Q)
  end.

(** One turn of the loop of [calculateOverallConfidence] on
    [(weightedSum, totalWeight)].  With a weight that is no number the
    product is [NaN] and [totalWeight += weight] joins two strings: from
    then on [totalWeight] is a string ([None]) that is not the text of
    a number. *)
Definition addWeighted (round : Q -> Q)
  (acc : DOMInterpreter.num * option Q) (entity : Entity)
  : DOMInterpreter.num * option Q :=
  let (weightedSum, totalWeight) := acc in
  match weightOfType round (type entity) with
  | Some weight =>
      (match weightedSum with
       | DOMInterpreter.Num sum =>
           DOMInterpreter.Num
             (round (sum + round (confidence entity * weight)))%Q
       | DOMInterpreter.NaN => DOMInterpreter.NaN
       end,
       match totalWeight with
       | Some total => Some (round (total + weight))%Q
       | None => None
       end)
  | None => (DOMInterpreter.NaN, None)
  end.

(** [calculateOverallConfidence(entities)] *)
Definition calculateOverallConfidence (round : Q -> Q)
  (entities : list Entity) : DOMInterpreter.num :=
  match entities with
  | [] => DOMInterpreter.Num 0
  | _ =>
      let (weightedSum, totalWeight) :=
        fold_left (addWeighted round) entities
          (DOMInterpreter.Num 0, Some 0%Q) in
      match totalWeight with
      | Some total =>
          if negb (Qle_bool total 0)
          then match weightedSum with
               | DOMInterpreter.Num sum =>
                   DOMInterpreter.Num (round (sum / total)%Q)
               | DOMInterpreter.NaN => DOMInterpreter.NaN
               end
          else DOMInterpreter.Num 0
      | None => DOMInterpreter.Num 0
      end
  end.

Section ExtractEntities.

(** Lines 129 to 132 of [extractEntities]: the patterns are run on the
    sanitized text and the matches are validated and ranked.  The result
    is the value returned, or the message of the error thrown. *)
Variable extractAndValidate : jsstring -> jsstring + Result.

(** [extractEntities(text, context)].  [nowRead] and [nowWrite] are what
    [Date.now()] answers in [checkCache] and in [cacheResults];
    [elapsed] is [performance.now() - startTime]. *)
Definition extractEntities (nowRead nowWrite : Z) (elapsed : Q)
  (text : jsstring) (s : state) : Result * state :=
  let sanitized := sanitizeInput text in
  match sanitized with
  | [] =>
      ({| entities := []; overallConfidence := 0; processingTime := None;
          errorMessage := None |}, s)
  | _ =>
      let cacheKey := generateCacheKey sanitized in
      let (cached, cache1) := checkCache nowRead cacheKey (entityCache s) in
      match cached with
      | Some r =>
          (r, {| entityCache := cache1;
                 performanceStats :=
                   {| totalProcessed := totalProcessed (performanceStats s);
                      averageTime := averageTime (performanceStats s);
                      cacheHits := S (cacheHits (performanceStats s)) |} |})
      | None =>
          match extractAndValidate sanitized with
          | inr validated =>
              (validated,
               {| entityCache :=
                    cacheResults nowWrite cacheKey validated cache1;
                  performanceStats :=
                    updatePerformanceStats elapsed (performanceStats s) |})
          | inl message =>
              ({| entities := []; overallConfidence := 0;
                  processingTime := None; errorMessage := Some message |},
               {| entityCache := cache1;
                  performanceStats := performanceStats s |})
          end
      end
  end.

End ExtractEntities.

End SecureNLPProcessor.

(** ** nlp-processor-enhanced.js: the final ranking *)

Module EnhancedNLPProcessor.

(** The fields of an enhanced entity that the ranking reads, with its
    text.  [knowledgeBase] is the score of the best match of the
    knowledge base, when there is one; an entity without [position]
    counts as at [0]. *)
Record Entity := {
  text : jsstring;
  type : jsstring;
  confidence : Q;
  position : option Z;
  knowledgeBase : option Q
}.

Definition hasKB (e : Entity) : bool :=
  match knowledgeBase e with
  | Some s => negb (Qle_bool s 0.8%Q)
  | None => false
  end.

(** What [typeOrder[type] || 0] reads: a number, or for a name that
    [typeOrder] inherits from [Object.prototype] the function or the
    object of that name. *)
Inductive typeScore : Type :=
| Priority (z : Z)
| Inherited (name : jsstring).

Definition typeOrder (t : jsstring) : typeScore :=
  if streq t (str "ticker") then Priority 5
  else if streq t (str "company") then Priority 4
  else if streq t (str "company_intl") then Priority 3
  else if streq t (str "company_abbrev") then Priority 2
  else if streq t (str "company_context") then Priority 1
  else if setHas DOMInterpreter.inheritedNames t then Inherited t
  else Priority 0.

Definition positionOf (e : Entity) : Z :=
  match position e with
  | Some p => p
  | None => 0
  end.

(** The comparison function of [rankEnhancedEntities].  Two type
    scores are the same when they are the same number or the same
    inherited function; the difference of two scores that are not both
    numbers is [NaN]. *)
Definition compareEnhanced (a b : Entity) : DOMInterpreter.num :=
  let aHasKB := hasKB a in
  let bHasKB := hasKB b in
  if aHasKB && negb bHasKB then DOMInterpreter.Num (-1)
  else if negb aHasKB && bHasKB then DOMInterpreter.Num 1
  else if negb (Qeq_bool (confidence a) (confidence b))
  then DOMInterpreter.Num (confidence b - confidence a)
  else
    let byPosition :=
      DOMInterpreter.Num (inject_Z (positionOf a - positionOf b)) in
    match typeOrder (type a), typeOrder (type b) with
    | Priority aTypeScore, Priority bTypeScore =>
        if negb (Z.eqb aTypeScore bTypeScore)
        then DOMInterpreter.Num (inject_Z (bTypeScore - aTypeScore))
        else byPosition
    | Inherited aName, Inherited bName =>
        if negb (streq aName bName) then DOMInterpreter.NaN else byPosition
    | _, _ => DOMInterpreter.NaN
    end.

(** [compare(a, b) <= 0] as [sort] reads the comparison: [NaN] counts
    as [+0]. *)
Definition notAfter (comparison : DOMInterpreter.num) : bool :=
  match comparison with
  | DOMInterpreter.Num q => Qle_bool q 0
  | DOMInterpreter.NaN => true
  end.

(** [entities.sort(compare)].  With types that make the comparison
    inconsistent the order of the result is left to the engine; the
    stable insertion is one such order. *)
Definition rankEnhancedEntities (entities : list Entity) : list Entity :=
  sortBy (fun a b => notAfter (compareEnhanced a b)) entities.

(** An enhanced entity as [calculateEnhancedConfidence] reads it:
    [variations] is the length of [entity.variations] ([0] without the
    field), [financialData] tells that [entity.context] is there with
    a [financialData]. *)
Record Enhanced := {
  entity : Entity;
  variations : nat;
  financialData : bool
}.

(** The weight and the score of one entity in
    [calculateEnhancedConfidence].  The numbers are doubles: [round]
    takes the exact value of a literal or of an arithmetic operation to
    the double that stands for it. *)
Definition weightOfEnhanced (round : Q -> Q) (e : Enhanced) : Q :=
  let weight := 1.0%Q in
  let weight :=
    match knowledgeBase (entity e) with
    | Some _ => round (weight * round 1.2)%Q
    | None => weight
    end in
  let weight :=
    if Nat.ltb 0 (variations e) then round (weight * round 1.1)%Q
    else weight in
  if financialData e then round (weight * round 1.1)%Q else weight.

Definition scoreOfEnhanced (e : Enhanced) : Q :=
  match knowledgeBase (entity e) with
  | Some score => Qmax (confidence (entity e)) score
  | None => confidence (entity e)
  end.

(** [calculateEnhancedConfidence(entities)] *)
Definition calculateEnhancedConfidence (round : Q -> Q)
  (entities : list Enhanced) : Q :=
  match entities with
  | [] => 0
  | _ =>
      let (totalScore, totalWeight) :=
        fold_left
          (fun acc e =>
             (round (fst acc
                     + round (scoreOfEnhanced e * weightOfEnhanced round e)),
              round (snd acc + weightOfEnhanced round e))%Q)
          entities (0%Q, 0%Q) in
      if negb (Qle_bool totalWeight 0)
      then round (totalScore / totalWeight)%Q else 0
  end.

End EnhancedNLPProcessor.

(** ** The terms in which the properties are stated *)

Module Terms.

(** A string does not begin with white space. *)
Definition headless (s : jsstring) : Prop :=
  match s with
  | c :: _ => isSpace c = false
  | [] => True
  end.

(** A unit that [normalize] does not remove as punctuation. *)
Definition plain (c : N) : Prop :=
  negb (CompanyNormalizer.isPunctuation c) = true.

Definition unit_interval (q : Q) : Prop := (0 <= q /\ q <= 1)%Q.

(** Row [i] of the table of [levenshteinDistance]: the entry of column
    [k] is at most the longer of the two prefixes. *)
Definition rowBound (i : nat) (row : list nat) : Prop :=
  forall k, (nth k row 0 <= Nat.max i k)%nat.

(** A [Map] holds a key once. *)
Definition wellFormed {V : Type} (m : list (jsstring * V)) : Prop :=
  NoDup (map fst m).

(** *** Knowledge base *)

(** The ticker index and the alias index are the same in two states. *)
Definition sameTickersAndAliases (s s' : CompanyKnowledgeBase.state) : Prop :=
  CompanyKnowledgeBase.tickerIndex s' = CompanyKnowledgeBase.tickerIndex s
  /\ CompanyKnowledgeBase.aliasIndex s' = CompanyKnowledgeBase.aliasIndex s.

Definition keepsTickersAndAliases {A : Type} (m : CompanyKnowledgeBase.M A)
  : Prop :=
  forall s, sameTickersAndAliases s (snd (m s)).



(** *** Confidence scorer *)

(** The order of the levels, from the strictest answer to the best. *)
Definition levelRank (l : ConfidenceScorer.Level) : nat :=
  match l with
  | ConfidenceScorer.high => 3
  | ConfidenceScorer.medium => 2
  | ConfidenceScorer.low => 1
  | ConfidenceScorer.reject => 0
  | ConfidenceScorer.error => 0
  end.

(** Factors that give the three confidences and nothing else. *)
Definition plainFactors (pattern dom nlp : Q) : ConfidenceScorer.Factors :=
  {| ConfidenceScorer.f_patternMatch :=
       Some {| ConfidenceScorer.pm_confidence := Some pattern;
               ConfidenceScorer.pm_type := None;
               ConfidenceScorer.pm_entity := None |};
     ConfidenceScorer.f_domContext :=
       Some {| ConfidenceScorer.dc_confidence := Some dom;
               ConfidenceScorer.dc_position := None;
               ConfidenceScorer.dc_contextClues := None |};
     ConfidenceScorer.f_nlpConfidence :=
       Some {| ConfidenceScorer.nc_confidence := Some nlp;
               ConfidenceScorer.nc_entities := None |};
     ConfidenceScorer.f_entity := None |}.

(** The scoring throws: the pattern match names an entity and the
    first NLP entity has no normalized text. *)
Definition scoringThrows (factors : ConfidenceScorer.Factors) : bool :=
  let v := ConfidenceScorer.validateFactors factors in
  match ConfidenceScorer.pm_entity (ConfidenceScorer.v_patternMatch v),
        ConfidenceScorer.nc_entities (ConfidenceScorer.v_nlpConfidence v) with
  | Some (_ :: _), Some (first :: _) =>
      match ConfidenceScorer.ne_normalized first with
      | Some _ => false
      | None => true
      end
  | _, _ => false
  end.

(** The factors that the Yahoo Finance adapter builds for the ticker
    AAPL: the pattern match names the entity, and the NLP entity
    carries its text, type and confidence but no normalized text. *)
Definition adapterFactors : ConfidenceScorer.Factors :=
  {| ConfidenceScorer.f_patternMatch :=
       Some {| ConfidenceScorer.pm_confidence := Some 0.95%Q;
               ConfidenceScorer.pm_type := Some (str "ticker");
               ConfidenceScorer.pm_entity := Some (str "AAPL") |};
     ConfidenceScorer.f_domContext :=
       Some {| ConfidenceScorer.dc_confidence := Some 0.9%Q;
               ConfidenceScorer.dc_position := Some [str "ticker"];
               ConfidenceScorer.dc_contextClues := None |};
     ConfidenceScorer.f_nlpConfidence :=
       Some {| ConfidenceScorer.nc_confidence := Some 0.95%Q;
               ConfidenceScorer.nc_entities :=
                 Some [{| ConfidenceScorer.ne_confidence := 0.95%Q;
                          ConfidenceScorer.ne_normalized := None |}] |};
     ConfidenceScorer.f_entity :=
       Some {| ConfidenceScorer.e_text := Some (str "AAPL");
               ConfidenceScorer.e_normalized := None;
               ConfidenceScorer.e_type := Some (str "ticker") |} |}.

(** *** Result cache *)

Definition sampleResult : SecureNLPProcessor.Result :=
  {| SecureNLPProcessor.entities := [];
     SecureNLPProcessor.overallConfidence := 0;
     SecureNLPProcessor.processingTime := None;
     SecureNLPProcessor.errorMessage := None |}.

Definition sampleCache : list (jsstring * SecureNLPProcessor.CacheEntry) :=
  SecureNLPProcessor.cacheResults 0 (str "nlp_1") sampleResult [].

(** An extraction stage that finds one company, the text itself. *)
Definition echo (sanitized : jsstring)
  : jsstring + SecureNLPProcessor.Result :=
  inr {| SecureNLPProcessor.entities :=
           [{| SecureNLPProcessor.text := sanitized;
               SecureNLPProcessor.normalized := sanitized;
               SecureNLPProcessor.type := str "company";
               SecureNLPProcessor.confidence := 0.9;
               SecureNLPProcessor.pattern := str "company_formal";
               SecureNLPProcessor.position := 0 |}];
         SecureNLPProcessor.overallConfidence := 0.9;
         SecureNLPProcessor.processingTime := None;
         SecureNLPProcessor.errorMessage := None |}.

(** One hundred letters "a", then [tail]. *)
Definition longText (tail : string) : jsstring := repeat 97 100 ++ str tail.


Definition emptyState : SecureNLPProcessor.state :=
  {| SecureNLPProcessor.entityCache := [];
     SecureNLPProcessor.performanceStats :=
       {| SecureNLPProcessor.totalProcessed := 0;
          SecureNLPProcessor.averageTime := 0;
          SecureNLPProcessor.cacheHits := 0 |} |}.

(** *** Ranking *)

(** The priority of a type in the ranking: ticker, company,
    company_intl, company_abbrev, company_context, then any other. *)
Definition priority (t : jsstring) : Z :=
  if streq t (str "ticker") then 5
  else if streq t (str "company") then 4
  else if streq t (str "company_intl") then 3
  else if streq t (str "company_abbrev") then 2
  else if streq t (str "company_context") then 1
  else 0.

(** The order that [rankEnhancedEntities] follows: a match of the
    knowledge base with a score above 0.8 first, then the higher
    confidence, then the type of higher priority, then the earlier
    position. *)
Definition rankedBefore (a b : EnhancedNLPProcessor.Entity) : Prop :=
  (EnhancedNLPProcessor.hasKB a = true
   /\ EnhancedNLPProcessor.hasKB b = false)
  \/ (EnhancedNLPProcessor.hasKB a = EnhancedNLPProcessor.hasKB b
      /\ ((EnhancedNLPProcessor.confidence b
           < EnhancedNLPProcessor.confidence a)%Q
          \/ ((EnhancedNLPProcessor.confidence a
               == EnhancedNLPProcessor.confidence b)%Q
              /\ ((priority (EnhancedNLPProcessor.type b)
                   < priority (EnhancedNLPProcessor.type a))%Z
                  \/ (priority (EnhancedNLPProcessor.type a)
                      = priority (EnhancedNLPProcessor.type b)
                      /\ (EnhancedNLPProcessor.positionOf a
                          <= EnhancedNLPProcessor.positionOf b)%Z))))).

(** The order as the specification words it: the higher score, then the
    earlier position, then the type of higher priority. *)
Definition specifiedBefore (a b : EnhancedNLPProcessor.Entity) : Prop :=
  (EnhancedNLPProcessor.confidence b < EnhancedNLPProcessor.confidence a)%Q
  \/ ((EnhancedNLPProcessor.confidence a
       == EnhancedNLPProcessor.confidence b)%Q
      /\ (EnhancedNLPProcessor.positionOf a
          < EnhancedNLPProcessor.positionOf b)%Z)
  \/ ((EnhancedNLPProcessor.confidence a
       == EnhancedNLPProcessor.confidence b)%Q
      /\ EnhancedNLPProcessor.positionOf a = EnhancedNLPProcessor.positionOf b
      /\ (priority (EnhancedNLPProcessor.type b)
          <= priority (EnhancedNLPProcessor.type a))%Z).

(** [compare(a, b) <= 0] for the two comparison functions. *)
Definition enhancedLte (a b : EnhancedNLPProcessor.Entity) : bool :=
  EnhancedNLPProcessor.notAfter (EnhancedNLPProcessor.compareEnhanced a b).

Definition baseLte (a b : SecureNLPProcessor.Entity) : bool :=
  Qle_bool (SecureNLPProcessor.compareEntities a b) 0.

(** The order that the sort of [validateAndRankEntities] follows. *)
Definition sortedBefore (a b : SecureNLPProcessor.Entity) : Prop :=
  (SecureNLPProcessor.confidence b < SecureNLPProcessor.confidence a)%Q
  \/ ((SecureNLPProcessor.confidence a
       == SecureNLPProcessor.confidence b)%Q
      /\ (SecureNLPProcessor.position a
          <= SecureNLPProcessor.position b)%Z).

(** A context mention that the knowledge base matches, and a ticker of
    higher confidence, earlier in the text, that it does not hold. *)
Definition contextWithKB : EnhancedNLPProcessor.Entity :=
  {| EnhancedNLPProcessor.text := str "BlackRock";
     EnhancedNLPProcessor.type := str "company_context";
     EnhancedNLPProcessor.confidence := 0.85;
     EnhancedNLPProcessor.position := Some 40%Z;
     EnhancedNLPProcessor.knowledgeBase := Some 0.9%Q |}.

Definition tickerWithoutKB : EnhancedNLPProcessor.Entity :=
  {| EnhancedNLPProcessor.text := str "XYZ";
     EnhancedNLPProcessor.type := str "ticker";
     EnhancedNLPProcessor.confidence := 0.95;
     EnhancedNLPProcessor.position := Some 0%Z;
     EnhancedNLPProcessor.knowledgeBase := None |}.

(** *** Structural weight *)

(** The weight that one tag brings: its entry of the table, or 0.5 for
    a tag that the table does not hold. *)
Definition tagWeight (pos : jsstring) : Q :=
  match JsValue.mapGet streq DOMInterpreter.positionWeights pos with
  | Some w => w
  | None => 0.5%Q
  end.

(** The weight as the specification words it: the greatest entry of the
    table among the tags that it holds, and 0.5 when it holds none. *)
Definition specifiedWeight (positions : list jsstring) : Q :=
  match flat_map
          (fun pos =>
             match JsValue.mapGet streq DOMInterpreter.positionWeights pos
             with
             | Some w => [w]
             | None => []
             end)
          positions with
  | [] => 0.5%Q
  | w :: ws => fold_left Qmax ws w
  end.

(** A tag that is not a name inherited from [Object.prototype]. *)
Definition ownName (pos : jsstring) : Prop :=
  setHas DOMInterpreter.inheritedNames pos = false.

(** *** Edit distance *)

(** The recurrence of the edit distance, read from the ends of two
    strings; [a] and [b] are the strings reversed. *)
Fixpoint lev (a b : jsstring) {struct a} : nat :=
  match a with
  | [] => length b
  | x :: a' =>
      (fix inner (b : jsstring) : nat :=
         match b with
         | [] => length a
         | y :: b' =>
             if N.eqb x y then lev a' b'
             else S (Nat.min (Nat.min (lev a' b) (inner b')) (lev a' b'))
         end) b
  end.

(** Row [i] of the table of [levenshteinDistance] from a column on:
    [ra] is the prefix of the first string read so far, reversed; [rp]
    is the prefix of the second string up to the column, reversed; [q]
    is the rest of the second string. *)
Fixpoint rowFrom (ra rp q : jsstring) : list nat :=
  lev ra rp ::
  match q with
  | [] => []
  | y :: q' => rowFrom ra (y :: rp) q'
  end.

(** The sum of the lengths of a list of strings. *)
Definition totalLength (l : list jsstring) : nat :=
  fold_right (fun x n => (length x + n)%nat) 0%nat l.

(** *** Token sets *)

(** The set that [tokenSetRatio] keeps for one string: its tokens
    without the stop words, or all of them when nothing else is left. *)
Definition keptTokens (tokens : list jsstring) : list jsstring :=
  let filtered :=
    filter (fun t => negb (setHas FuzzyMatcher.stopWords t)) tokens in
  if Nat.ltb 0 (length filtered) then filtered else tokens.

(** The Jaccard quotient of two sets, 1 for two empty sets. *)
Definition jaccard (set1 set2 : list jsstring) : Q :=
  let intersection := filter (setHas set2) set1 in
  let union := setOf (set1 ++ set2) in
  if Nat.eqb (length union) 0 then 1%Q
  else (FuzzyMatcher.ofNat (length intersection)
        / FuzzyMatcher.ofNat (length union))%Q.

(** *** Candidates of [extractBest] *)

(** The scoring function that a call of [extractBest] uses. *)
Definition scorerOf (scorer : option (jsstring -> jsstring -> Q))
  : jsstring -> jsstring -> Q :=
  match scorer with
  | Some f => f
  | None => FuzzyMatcher.companyNameRatio
  end.

(** The comparison of [extractBest], as [compare(a, b) <= 0]. *)
Definition byScore (a b : jsstring * Q) : bool :=
  Qle_bool (snd b - snd a) 0.

(** *** Name variations *)

(** The names of one entry of [variations]: the key, then the others. *)
Definition allNames (entry : jsstring * list jsstring) : list jsstring :=
  fst entry :: snd entry.

Fixpoint sameNames (l l' : list jsstring) : bool :=
  match l, l' with
  | [], [] => true
  | x :: r, y :: r' => streq x y && sameNames r r'
  | _, _ => false
  end.

(** No name belongs to two entries of [variations]. *)
Definition entriesDisjoint : bool :=
  forallb
    (fun e1 =>
       forallb
         (fun e2 =>
            sameNames (allNames e1) (allNames e2)
            || forallb (fun x => negb (setHas (allNames e2) x))
                 (allNames e1))
         CompanyNormalizer.variations)
    CompanyNormalizer.variations.

(** *** The processor *)

(** What is asked of the rounding of real numbers to doubles: it keeps
    the order, leaves a double as it is, and 0, 1/2 and 1 are
    doubles.  Rounding to nearest is such a rounding, on numbers that
    do not overflow; so is the identity, which gives exact
    arithmetic. *)
Definition rounding (round : Q -> Q) : Prop :=
  (forall x y : Q, (x <= y)%Q -> (round x <= round y)%Q)
  /\ (forall x : Q, (round (round x) == round x)%Q)
  /\ (round 0 == 0)%Q /\ (round (1 # 2) == 1 # 2)%Q /\ (round 1 == 1)%Q.

(** Exact arithmetic. *)
Definition exact (q : Q) : Q := q.

(** A text is safe: no angle bracket and no control character. *)
Definition safeUnit (c : N) : Prop :=
  c <> 60 /\ c <> 62 /\ SecureNLPProcessor.isControl c = false.

(** The polynomial in 31 of the units of a text, by Horner's rule. *)
Definition polynomial (text : jsstring) : Z :=
  fold_left (fun h c => (31 * h + Z.of_N c)%Z) text 0%Z.

(** The cache key of the number [n]. *)
Definition keyOf (n : Z) : jsstring :=
  str "nlp_" ++ str (NilEmpty.string_of_uint (N.to_uint (Z.to_N n))).

Definition sumOf (l : list Q) : Q := fold_right Qplus 0%Q l.

(** The statistics after the processing times [times], in order. *)
Definition afterTimes (times : list Q) (s : SecureNLPProcessor.Stats)
  : SecureNLPProcessor.Stats :=
  fold_left (fun s t => SecureNLPProcessor.updatePerformanceStats t s)
    times s.

Definition beginsWith (p : N -> bool) (s : jsstring) : bool :=
  match s with
  | c :: _ => p c
  | [] => false
  end.

Definition endsWith (p : N -> bool) (s : jsstring) : bool :=
  beginsWith p (rev s).

(** *** Search *)

(** The score that [search] gives a candidate. *)
Definition scoreOf (s : CompanyKnowledgeBase.state) (query : jsstring)
  (c : CompanyKnowledgeBase.Candidate) : Q :=
  (FuzzyMatcher.enhancedCompanyRatio
     (CompanyKnowledgeBase.normalizeString s query)
     (CompanyKnowledgeBase.normalized c)
   * CompanyKnowledgeBase.boost c)%Q.

(** The matches behind the results of [search]. *)
Definition selected (s : CompanyKnowledgeBase.state)
  (searchCandidates : list CompanyKnowledgeBase.Candidate)
  (query : jsstring) (limit threshold : Q)
  : list CompanyKnowledgeBase.Scored :=
  CompanyKnowledgeBase.collect limit [] 0
    (CompanyKnowledgeBase.matchesOf
       (CompanyKnowledgeBase.normalizeString s query) threshold
       searchCandidates).

(** No later match is of the company of an earlier one. *)
Definition distinctCompanies (l : list CompanyKnowledgeBase.Scored) : Prop :=
  ForallOrdPairs
    (fun a b =>
       JsValue.sameValue
         (CompanyKnowledgeBase.companyId (CompanyKnowledgeBase.candidate b))
         (CompanyKnowledgeBase.companyId (CompanyKnowledgeBase.candidate a))
       = false)
    l.

(** *** The scorer's recommendation and statistics *)

(** The recommendation that [calculateScore] puts in its result, in
    the [try] block and in the [catch] block. *)
Definition recommendation (factors : ConfidenceScorer.Factors)
  (context : ConfidenceScorer.Context) : jsstring :=
  let r := ConfidenceScorer.calculateScore factors context in
  match ConfidenceScorer.breakdown r with
  | Some scores =>
      ConfidenceScorer.getRecommendation (ConfidenceScorer.score r)
        (ConfidenceScorer.level r) scores
  | None => str "Unable to calculate confidence"
  end.

(** The statistics after the scores [scores], in order, each filed
    under its own level. *)
Definition afterScores (scores : list Q) (stats : ConfidenceScorer.ScoringStats)
  : ConfidenceScorer.ScoringStats :=
  fold_left
    (fun stats score =>
       ConfidenceScorer.updateStatistics score
         (ConfidenceScorer.determineConfidenceLevel score) stats)
    scores stats.

(** How many of the scores are of a level. *)
Definition countOf (level : ConfidenceScorer.Level) (scores : list Q) : nat :=
  length
    (filter
       (fun score =>
          match ConfidenceScorer.determineConfidenceLevel score, level with
          | ConfidenceScorer.high, ConfidenceScorer.high
          | ConfidenceScorer.medium, ConfidenceScorer.medium
          | ConfidenceScorer.low, ConfidenceScorer.low
          | ConfidenceScorer.reject, ConfidenceScorer.reject => true
          | _, _ => false
          end)
       scores).

(** The statistics of a new scorer. *)
Definition newStats : ConfidenceScorer.ScoringStats :=
  {| ConfidenceScorer.totalScored := 0;
     ConfidenceScorer.averageScore := 0;
     ConfidenceScorer.distributionByLevel :=
       {| ConfidenceScorer.d_high := 0; ConfidenceScorer.d_medium := 0;
          ConfidenceScorer.d_low := 0; ConfidenceScorer.d_reject := 0 |} |}.

(** *** The confidence of a DOM analysis *)

(** A multiplier that a profile gives is at least 1. *)
Definition raises (multiplier : option Q) : Prop :=
  match multiplier with
  | Some q => (1 <= q)%Q
  | None => True
  end.

Definition raising (m : DOMInterpreter.Multipliers) : Prop :=
  raises (DOMInterpreter.inHeadline m)
  /\ raises (DOMInterpreter.inFirstParagraph m)
  /\ raises (DOMInterpreter.hasDataSymbol m)
  /\ raises (DOMInterpreter.hasTicker m)
  /\ raises (DOMInterpreter.hasCompanyTag m).

End Terms.


(* ================================================================== *)
(** * Part II: properties *)
(* ================================================================== *)

Unset Implicit Arguments.
Import Terms.

(** ** Strings *)

Module JsFacts.

Lemma streq_refl (a : jsstring) : streq a a = true.
Proof.
  induction a as [|x a IH]; simpl; [reflexivity|].
  now rewrite N.eqb_refl, IH.
Qed.

Lemma streq_eq (a b : jsstring) : streq a b = true <-> a = b.
Proof.
  split.
  - revert b; induction a as [|x a IH]; intros [|y b]; simpl;
      try discriminate; [reflexivity|].
    intros H. apply andb_true_iff in H as [Hx Hab].
    apply N.eqb_eq in Hx. apply IH in Hab. now subst.
  - intros ->. apply streq_refl.
Qed.

Lemma collapseFrom_length (b : bool) (s : jsstring) :
  (length (collapseFrom b s) <= length s)%nat.
Proof.
  revert b; induction s as [|c s IH]; intros b; simpl; [lia|].
  pose proof (IH true). pose proof (IH false).
  destruct (isSpace c); [destruct b|]; simpl; lia.
Qed.

Lemma collapseFrom_true_headless (s : jsstring) :
  collapseFrom true s = s -> headless s.
Proof.
  destruct s as [|c s]; simpl; [trivial|].
  destruct (isSpace c) eqn:E; [|reflexivity].
  intros H. pose proof (collapseFrom_length true s) as L.
  rewrite H in L. simpl in L. lia.
Qed.

Lemma collapseFrom_headless (b : bool) (s : jsstring) :
  headless s -> collapseFrom b s = collapseFrom false s.
Proof.
  destruct s as [|c s]; simpl; [reflexivity|].
  intros ->. reflexivity.
Qed.

Lemma trimStart_headless (s : jsstring) : headless s -> trimStart s = s.
Proof.
  destruct s as [|c s]; simpl; [reflexivity|]. now intros ->.
Qed.

Lemma trimStart_is_headless (s : jsstring) : headless (trimStart s).
Proof.
  induction s as [|c s IH]; simpl; [trivial|].
  destruct (isSpace c) eqn:E; [assumption|]. simpl. exact E.
Qed.

Lemma trimEnd_headless (s : jsstring) : headless s -> headless (trimEnd s).
Proof.
  destruct s as [|c s]; simpl; [trivial|].
  intros E. destruct (trimEnd s); [rewrite E|]; simpl; exact E.
Qed.

Lemma trimEnd_idempotent (s : jsstring) : trimEnd (trimEnd s) = trimEnd s.
Proof.
  induction s as [|c s IH]; simpl; [reflexivity|].
  destruct (trimEnd s) as [|x r] eqn:E.
  - destruct (isSpace c) eqn:Ec; simpl; [reflexivity|]. now rewrite Ec.
  - change (trimEnd (c :: x :: r)) with
      (match trimEnd (x :: r) with
       | [] => if isSpace c then [] else [c]
       | r0 => c :: r0
       end).
    now rewrite IH.
Qed.

Lemma trim_fixed (s : jsstring) : trim (trim s) = trim s.
Proof.
  unfold trim.
  rewrite (trimStart_headless (trimEnd (trimStart s))).
  - apply trimEnd_idempotent.
  - apply trimEnd_headless, trimStart_is_headless.
Qed.

(** The strings that [replace(/\s+/g, ' ')] leaves as they are. *)
Lemma collapse_trimStart (s : jsstring) :
  collapseFrom false s = s -> collapseFrom false (trimStart s) = trimStart s.
Proof.
  destruct s as [|c s]; simpl; [trivial|].
  destruct (isSpace c) eqn:E; simpl.
  - intros H. injection H as _ H.
    pose proof (collapseFrom_true_headless s H) as Hh.
    rewrite (trimStart_headless s Hh).
    now rewrite <- (collapseFrom_headless true s Hh).
  - now rewrite E.
Qed.

Lemma collapse_trimEnd (b : bool) (s : jsstring) :
  collapseFrom b s = s -> collapseFrom b (trimEnd s) = trimEnd s.
Proof.
  revert b; induction s as [|c s IH]; intros b; simpl; [trivial|].
  destruct (isSpace c) eqn:E.
  - destruct b.
    + intros H. pose proof (collapseFrom_length true s) as L.
      rewrite H in L. simpl in L. lia.
    + intros H. injection H as Hc H. specialize (IH true H).
      destruct (trimEnd s) as [|x r] eqn:Er; [reflexivity|].
      simpl. rewrite E. simpl in IH. now rewrite IH, Hc.
  - intros H. injection H as H. specialize (IH false H).
    destruct (trimEnd s) as [|x r] eqn:Er; simpl; rewrite E;
      [reflexivity|].
    simpl in IH. now rewrite IH.
Qed.

Lemma collapse_idempotent (b : bool) (s : jsstring) :
  collapseFrom false (collapseFrom b s) = collapseFrom b s
  /\ (b = true -> collapseFrom true (collapseFrom b s) = collapseFrom b s).
Proof.
  revert b; induction s as [|c s IH]; intros b; simpl; [auto|].
  destruct (isSpace c) eqn:E.
  - destruct b.
    + apply IH.
    + split; [|discriminate]. simpl.
      replace (isSpace 32) with true by reflexivity.
      f_equal. now apply IH.
  - simpl. rewrite E. destruct (IH false) as [H _]. rewrite H. auto.
Qed.

Lemma collapse_trim_fixed (s : jsstring) :
  collapseSpaces (trim (collapseSpaces s)) = trim (collapseSpaces s).
Proof.
  unfold collapseSpaces, trim.
  apply collapse_trimEnd, collapse_trimStart, collapse_idempotent.
Qed.

(** Units kept by the string operations satisfy what the units of the
    argument satisfy. *)
Section Kept.
Variable P : N -> Prop.

Lemma Forall_trimStart (s : jsstring) : Forall P s -> Forall P (trimStart s).
Proof.
  induction 1 as [|c s Hc Hs IH]; simpl; [constructor|].
  destruct (isSpace c); [assumption|now constructor].
Qed.

Lemma Forall_trimEnd (s : jsstring) : Forall P s -> Forall P (trimEnd s).
Proof.
  induction 1 as [|c s Hc Hs IH]; simpl; [constructor|].
  destruct (trimEnd s); [destruct (isSpace c)|]; auto.
Qed.

Lemma Forall_collapseFrom (b : bool) (s : jsstring) :
  P 32 -> Forall P s -> Forall P (collapseFrom b s).
Proof.
  intros H32 H. revert b.
  induction H as [|c s Hc Hs IH]; intros b; simpl; [constructor|].
  destruct (isSpace c); [destruct b|]; try constructor; auto.
Qed.

Lemma Forall_filter_keeps (f : N -> bool) (s : jsstring) :
  (forall c, f c = true -> P c) -> Forall P (filter f s).
Proof.
  intros Hf. induction s as [|c s IH]; simpl; [constructor|].
  destruct (f c) eqn:E; [constructor; auto|assumption].
Qed.
End Kept.

Lemma filter_all (f : N -> bool) (s : jsstring) :
  Forall (fun c => f c = true) s -> filter f s = s.
Proof.
  induction 1 as [|c s Hc Hs IH]; simpl; [reflexivity|].
  now rewrite Hc, IH.
Qed.

End JsFacts.

(** ** [CompanyNormalizer] *)

Module NormalizerFacts.
Import CompanyNormalizer JsFacts.

Lemma Forall_removeFrom (P : N -> Prop) (prev : option N) (skip : nat)
  (s : jsstring) :
  Forall P s -> Forall P (removeFrom prev skip s).
Proof.
  intros H. revert prev skip.
  induction H as [|c s Hc Hs IH]; intros prev skip; simpl; [constructor|].
  destruct skip as [|k]; [|apply IH].
  destruct (matchAt prev (c :: s)) as [[|k]|]; try constructor; auto.
Qed.

Lemma stripped_plain (x : jsstring) : Forall plain (stripped x).
Proof.
  unfold stripped, trim, collapseSpaces.
  apply Forall_trimEnd, Forall_trimStart, Forall_collapseFrom;
    [reflexivity|].
  apply Forall_removeFrom, Forall_filter_keeps. auto.
Qed.

(** On a result of [stripped] that holds no further suffix, the steps of
    [stripped] change nothing. *)
Lemma stripped_settled (x : jsstring) :
  removeSuffixes (stripped x) = stripped x ->
  stripped (stripped x) = stripped x.
Proof.
  intros H. unfold stripped at 1.
  unfold removePunctuation. rewrite (filter_all _ _ (stripped_plain x)).
  rewrite H. unfold stripped at 1.
  rewrite collapse_trim_fixed. apply trim_fixed.
Qed.

(** Every expansion of the table that holds no suffix is returned
    unchanged by [normalize]. *)
Lemma expansion_settled (full : jsstring) :
  In full (map snd abbreviations) ->
  removeSuffixes full = full -> normalize full = full.
Proof.
  intros Hin. vm_compute in Hin.
  repeat (destruct Hin as [<-|Hin];
          [vm_compute; (reflexivity || discriminate)|]).
  destruct Hin.
Qed.

Lemma expansionOf_in (l full : jsstring) :
  expansionOf l = Some full -> In full (map snd abbreviations).
Proof.
  unfold expansionOf.
  destruct (find _ abbreviations) as [p|] eqn:E; [|discriminate].
  intros [= <-]. apply find_some in E as [E _]. now apply in_map.
Qed.

Lemma normalize_cases (x : jsstring) :
  x = []
  \/ (exists full,
        expansionOf (toLowerCase (stripped x)) = Some full
        /\ normalize x = full)
  \/ (expansionOf (toLowerCase (stripped x)) = None
      /\ normalize x = stripped x).
Proof.
  destruct x as [|c x]; [now left|right].
  unfold normalize.
  destruct (expansionOf (toLowerCase (stripped (c :: x)))) as [full|];
    [left; now exists full|now right].
Qed.

(** C1 (as amended): [normalize] is a function of its argument alone,
    and it returns its own result unchanged whenever that result holds
    no further match of the suffix pattern: for every string [x], if
    removing suffixes from [normalize x] changes nothing, then
    [normalize (normalize x) = normalize x]. *)
Theorem normalize_idempotent_on_settled (x : jsstring) :
  removeSuffixes (normalize x) = normalize x ->
  normalize (normalize x) = normalize x.
Proof.
  destruct (normalize_cases x) as [->|[(full & E & ->)|(E & ->)]].
  - reflexivity.
  - apply expansion_settled. eapply expansionOf_in, E.
  - intros H.
    destruct (normalize_cases (stripped x)) as [->|[(full & E' & _)|(_ & ->)]].
    + reflexivity.
    + rewrite (stripped_settled _ H), E in E'. discriminate.
    + apply stripped_settled, H.
Qed.

(** C1, an input on which the theorem applies: "Microsoft Corporation"
    is normalized to "Microsoft", which is normalized to itself. *)
Lemma normalize_idempotent_on_settled_witness :
  removeSuffixes (normalize (str "Microsoft Corporation"))
  = normalize (str "Microsoft Corporation")
  /\ normalize (normalize (str "Microsoft Corporation"))
     = normalize (str "Microsoft Corporation").
Proof.
  split.
  - vm_compute. reflexivity.
  - apply (normalize_idempotent_on_settled (str "Microsoft Corporation")).
    vm_compute. reflexivity.
Defined.

(** C1 fails as stated: "IBM" is expanded to "International Business
    Machines", from which a second call strips "International". *)
Lemma normalize_not_idempotent_IBM :
  normalize (str "IBM") = str "International Business Machines"
  /\ normalize (normalize (str "IBM")) = str "Business Machines"
  /\ normalize (normalize (str "IBM")) <> normalize (str "IBM").
Proof.
  repeat split; try (vm_compute; reflexivity).
  vm_compute. discriminate.
Qed.

(** The same happens without the abbreviation table: the suffix pattern
    is applied once, and what it leaves can match it. *)
Example normalize_not_idempotent_single_pass :
  normalize (str "Sdn Inc Bhd") = str "Sdn Bhd"
  /\ normalize (str "Sdn Bhd") = [].
Proof. split; vm_compute; reflexivity. Qed.

End NormalizerFacts.

(** ** [FuzzyMatcher] *)

Module FuzzyFacts.
Import FuzzyMatcher JsFacts.

Lemma ofNat_nonneg (n : nat) : (0 <= ofNat n)%Q.
Proof.
  unfold ofNat. change 0%Q with (inject_Z 0). rewrite <- Zle_Qle. lia.
Qed.

Lemma ofNat_pos (n : nat) : (0 < n)%nat -> (0 < ofNat n)%Q.
Proof.
  intros H. unfold ofNat. change 0%Q with (inject_Z 0).
  rewrite <- Zlt_Qlt. lia.
Qed.

Lemma ofNat_le (n m : nat) : (n <= m)%nat -> (ofNat n <= ofNat m)%Q.
Proof. intros H. unfold ofNat. rewrite <- Zle_Qle. lia. Qed.

(** A part over the whole. *)
Lemma fraction_unit (n m : nat) :
  (n <= m)%nat -> (0 < m)%nat -> unit_interval (ofNat n / ofNat m).
Proof.
  intros Hle Hpos. pose proof (ofNat_pos m Hpos) as Hm.
  pose proof (ofNat_nonneg n) as Hn. pose proof (ofNat_le n m Hle) as Hnm.
  split.
  - apply Qle_shift_div_l; [assumption|]. lra.
  - apply Qle_shift_div_r; [assumption|]. lra.
Qed.

Lemma Qmax_unit (a b : Q) :
  unit_interval a -> unit_interval b -> unit_interval (Qmax a b).
Proof.
  intros [Ha0 Ha1] [Hb0 Hb1]. split.
  - apply Qle_trans with a; [assumption|apply Q.le_max_l].
  - apply Q.max_lub; assumption.
Qed.

(** *** The edit distance is at most the longer length *)

Lemma fillRow_bound (c1 : N) (s2 : jsstring) :
  forall (above : list nat) (left i j : nat),
    (forall k, nth k above 0 <= Nat.max i (j + k))%nat ->
    forall k,
      (nth k (fillRow c1 s2 above left) 0 <= Nat.max (S i) (S j + k))%nat.
Proof.
  induction s2 as [|c2 s2 IH]; intros above left i j Habove k.
  - destruct k; simpl; lia.
  - destruct above as [|diag [|up above']]; try (destruct k; simpl; lia).
    cbn [fillRow]. destruct k as [|k].
    + pose proof (Habove 0%nat) as H0. cbn [nth] in H0 |- *.
      destruct (N.eqb c1 c2); lia.
    + cbn [nth].
      replace (S j + S k)%nat with (S (S j) + k)%nat by lia.
      apply IH. intros k'. specialize (Habove (S k')). cbn [nth] in Habove.
      replace (S j + k')%nat with (j + S k')%nat by lia. exact Habove.
Qed.

Lemma fillRow_length (c1 : N) (s2 : jsstring) :
  forall (above : list nat) (left : nat),
    (length (fillRow c1 s2 above left) <= length s2)%nat.
Proof.
  induction s2 as [|c2 s2 IH]; intros above left; simpl; [lia|].
  destruct above as [|diag [|up above']]; simpl; try lia.
  specialize (IH (up :: above')
                (if N.eqb c1 c2 then diag
                 else S (Nat.min (Nat.min up left) diag))).
  lia.
Qed.

Lemma fillRows_bound (s1 s2 : jsstring) :
  forall (i : nat) (row : list nat),
    rowBound i row -> (length row <= S (length s2))%nat ->
    rowBound (i + length s1) (fillRows s1 s2 i row)
    /\ (length (fillRows s1 s2 i row) <= S (length s2))%nat.
Proof.
  induction s1 as [|c1 s1 IH]; intros i row Hrow Hlen; simpl.
  - rewrite Nat.add_0_r. auto.
  - replace (i + S (length s1))%nat with (S i + length s1)%nat by lia.
    apply IH.
    + intros [|k]; cbn [nth]; [lia|].
      apply (fillRow_bound c1 s2 row (S i) i 0%nat). intros k'. apply Hrow.
    + pose proof (fillRow_length c1 s2 row (S i)). simpl. lia.
Qed.

Lemma last_is_nth (l : list nat) : last l 0%nat = nth (length l - 1) l 0%nat.
Proof.
  induction l as [|x [|y l] IH]; try reflexivity.
  change (last (x :: y :: l) 0%nat) with (last (y :: l) 0%nat).
  rewrite IH. simpl. now rewrite Nat.sub_0_r.
Qed.

Lemma levenshteinDistance_bound (str1 str2 : jsstring) :
  (levenshteinDistance str1 str2 <= Nat.max (length str1) (length str2))%nat.
Proof.
  unfold levenshteinDistance.
  destruct (fillRows_bound str1 str2 0%nat (seq 0 (S (length str2))))
    as [Hb Hl].
  - intros k. destruct (Nat.lt_ge_cases k (S (length str2))) as [H|H].
    + rewrite seq_nth by assumption. lia.
    + rewrite nth_overflow; [lia|]. now rewrite length_seq.
  - now rewrite length_seq.
  - rewrite last_is_nth.
    set (row := fillRows str1 str2 0 (seq 0 (S (length str2)))) in *.
    specialize (Hb (length row - 1)%nat). cbn [Nat.add] in Hb. lia.
Qed.

(** *** The four similarity functions lie in [0, 1] *)

Lemma ratio_unit (str1 str2 : jsstring) : unit_interval (ratio str1 str2).
Proof.
  unfold ratio, unit_interval.
  destruct (isEmpty str1 || isEmpty str2); [lra|].
  destruct (streq str1 str2); [lra|].
  destruct (streq _ _); [lra|].
  destruct (Nat.eqb _ 0) eqn:E; [lra|].
  apply Nat.eqb_neq in E.
  destruct (fraction_unit
              (levenshteinDistance (trim (toLowerCase str1))
                 (trim (toLowerCase str2)))
              (Nat.max (length (trim (toLowerCase str1)))
                 (length (trim (toLowerCase str2)))))
    as [H0 H1]; [apply levenshteinDistance_bound|lia|].
  lra.
Qed.

Lemma fold_max_unit {A : Type} (f : A -> Q) (l : list A) :
  (forall a, unit_interval (f a)) ->
  forall init, unit_interval init ->
    unit_interval (fold_left (fun best a => Qmax best (f a)) l init).
Proof.
  intros Hf. induction l as [|a l IH]; intros init Hinit; simpl;
    [assumption|].
  apply IH, Qmax_unit; auto.
Qed.

Lemma partialRatio_unit (str1 str2 : jsstring) :
  unit_interval (partialRatio str1 str2).
Proof.
  unfold partialRatio.
  destruct (isEmpty str1 || isEmpty str2); [split; lra|].
  destruct (streq _ _); [split; lra|].
  destruct (if Nat.leb _ _ then _ else _) as [shorter longer].
  apply (fold_max_unit
           (fun i => ratio shorter
                       (substring longer i (i + length shorter)))).
  - intros i. apply ratio_unit.
  - split; lra.
Qed.

Lemma tokenSortRatio_unit (str1 str2 : jsstring) :
  unit_interval (tokenSortRatio str1 str2).
Proof.
  unfold tokenSortRatio.
  destruct (isEmpty str1 || isEmpty str2); [split; lra|apply ratio_unit].
Qed.

(** [Set]s hold no element twice. *)
Lemma setHas_In (s : list jsstring) (x : jsstring) :
  setHas s x = true <-> In x s.
Proof.
  unfold setHas. rewrite existsb_exists. split.
  - intros (y & Hy & E). apply streq_eq in E. now subst.
  - intros H. exists x. split; [assumption|apply streq_refl].
Qed.

Lemma setAdd_NoDup (s : list jsstring) (x : jsstring) :
  NoDup s -> NoDup (setAdd s x).
Proof.
  intros H. unfold setAdd. destruct (setHas s x) eqn:E; [assumption|].
  apply NoDup_app; [assumption|repeat constructor; intros Hf; destruct Hf|].
  intros y Hy Hx. destruct Hx as [<-|Hf]; [|destruct Hf].
  apply setHas_In in Hy. congruence.
Qed.

Lemma setAdd_In (s : list jsstring) (x y : jsstring) :
  In y (setAdd s x) <-> In y s \/ y = x.
Proof.
  unfold setAdd. destruct (setHas s x) eqn:E.
  - apply setHas_In in E. split; [auto|]. intros [H| ->]; assumption.
  - rewrite in_app_iff. simpl. intuition.
Qed.

Lemma fold_setAdd (l : list jsstring) :
  forall acc, NoDup acc ->
    NoDup (fold_left setAdd l acc)
    /\ forall y, In y (fold_left setAdd l acc) <-> In y acc \/ In y l.
Proof.
  induction l as [|x l IH]; intros acc Hacc; simpl.
  - split; [assumption|]. intuition.
  - destruct (IH (setAdd acc x) (setAdd_NoDup acc x Hacc)) as [Hn Hi].
    split; [assumption|]. intros y. rewrite Hi, setAdd_In. intuition.
Qed.

Lemma setOf_NoDup (l : list jsstring) : NoDup (setOf l).
Proof. apply (fold_setAdd l []). constructor. Qed.

Lemma setOf_In (l : list jsstring) (y : jsstring) : In y (setOf l) <-> In y l.
Proof.
  destruct (fold_setAdd l [] (NoDup_nil _)) as [_ H].
  unfold setOf. rewrite H. simpl. intuition.
Qed.

(** The Jaccard quotient of two sets: the elements of the first that
    pass a test, over the union. *)
Lemma jaccard_unit (f : jsstring -> bool) (set1 set2 : list jsstring) :
  NoDup set1 -> set1 ++ set2 <> [] ->
  unit_interval
    (ofNat (length (filter f set1)) / ofNat (length (setOf (set1 ++ set2)))).
Proof.
  intros Hn Hne.
  assert (length set1 <= length (setOf (set1 ++ set2)))%nat as Hle.
  { apply NoDup_incl_length; [assumption|].
    intros y Hy. apply setOf_In, in_app_iff. now left. }
  pose proof (filter_length_le f set1) as Hf.
  apply fraction_unit; [lia|].
  destruct (setOf (set1 ++ set2)) as [|z u] eqn:E; [|simpl; lia].
  exfalso. destruct (set1 ++ set2) as [|y r] eqn:Er; [congruence|].
  assert (In y (setOf (y :: r))) as Hy by (apply setOf_In; now left).
  rewrite E in Hy. destruct Hy.
Qed.

Lemma tokenSetRatio_unit (str1 str2 : jsstring) :
  unit_interval (tokenSetRatio str1 str2).
Proof.
  unfold tokenSetRatio.
  destruct (isEmpty str1 || isEmpty str2); [split; lra|].
  cbv zeta.
  match goal with
  | |- context [filter (setHas ?s2) ?s1] =>
      assert (NoDup s1) as Hn
        by (destruct (Nat.ltb 0 _); [apply NoDup_filter|];
            apply setOf_NoDup);
      set (set1 := s1) in *; set (set2 := s2) in *
  end.
  destruct (Nat.eqb (length (setOf (set1 ++ set2))) 0) eqn:E;
    [split; lra|].
  apply jaccard_unit; [assumption|].
  intros H. rewrite H in E. discriminate.
Qed.

(** *** The weighted average *)

Lemma companyNameRatio_unit (str1 str2 : jsstring) :
  unit_interval (companyNameRatio str1 str2).
Proof.
  destruct (ratio_unit str1 str2) as [? ?].
  destruct (partialRatio_unit str1 str2) as [? ?].
  destruct (tokenSortRatio_unit str1 str2) as [? ?].
  destruct (tokenSetRatio_unit str1 str2) as [? ?].
  unfold companyNameRatio, companyNameRatioWith, defaultWeights.
  cbn [fold_left fst snd w_ratio w_partial w_tokenSort w_tokenSet].
  destruct (Qlt_le_dec 0 _) as [Hpos|Hneg]; [|exfalso; lra].
  split.
  - apply Qle_shift_div_l; [assumption|]. lra.
  - apply Qle_shift_div_r; [assumption|]. lra.
Qed.

Lemma handleSpecialCases_bonus (str1 str2 : jsstring) :
  (0 <= handleSpecialCases str1 str2)%Q.
Proof.
  unfold handleSpecialCases, abbreviationBonus.
  destruct (existsb _ _); lra.
Qed.

(** C7: for every pair of strings, [companyNameRatio] and
    [enhancedCompanyRatio] lie in [0, 1], and the enhanced ratio is at
    least the base ratio. *)
Theorem company_ratios_bounded (a b : jsstring) :
  (0 <= companyNameRatio a b <= 1
   /\ 0 <= enhancedCompanyRatio a b <= 1
   /\ companyNameRatio a b <= enhancedCompanyRatio a b)%Q.
Proof.
  destruct (companyNameRatio_unit a b) as [H0 H1].
  pose proof (handleSpecialCases_bonus a b) as Hb.
  unfold enhancedCompanyRatio.
  destruct (Q.min_spec 1 (companyNameRatio a b + handleSpecialCases a b))
    as [[Hlt E]|[Hle E]]; rewrite E; repeat split; lra.
Qed.

End FuzzyFacts.

(** ** [CompanyKnowledgeBase] *)

Module KnowledgeBaseFacts.
Import JsValue CompanyKnowledgeBase JsFacts.

(** *** [Map] *)


Lemma mapGet_mapSet_same {V : Type} (m : list (jsstring * V))
  (k : jsstring) (v : V) :
  mapGet streq (mapSet streq m k v) k = Some v.
Proof.
  induction m as [|[k' v'] m IH]; simpl.
  - now rewrite streq_refl.
  - destruct (streq k' k) eqn:E; simpl; rewrite E; auto.
Qed.

Lemma mapGet_mapSet_other {V : Type} (m : list (jsstring * V))
  (k k' : jsstring) (v : V) :
  streq k k' = false ->
  mapGet streq (mapSet streq m k v) k' = mapGet streq m k'.
Proof.
  intros Hne. induction m as [|[k0 v0] m IH]; simpl.
  - now rewrite Hne.
  - destruct (streq k0 k) eqn:E; simpl.
    + apply streq_eq in E. subst k0. now rewrite Hne.
    + now rewrite IH.
Qed.

(** *** What a method leaves alone *)


Lemma keeps_throw {A : Type} (e : exn) :
  keepsTickersAndAliases (@throw A e).
Proof. intros s. split; reflexivity. Qed.









(** *** The record after [Object.assign] *)

Lemma assign_other (source : list (jsstring * jsval)) :
  forall (target : company) (k : jsstring),
    ~ In k (map fst source) ->
    getProp (assign target source) k = getProp target k.
Proof.
  unfold assign, getProp.
  induction source as [|[k' v'] source IH]; intros target k Hnot;
    cbn [fold_left fst snd]; [reflexivity|].
  rewrite IH by (intros Hin; apply Hnot; now right).
  rewrite mapGet_mapSet_other; [reflexivity|].
  destruct (streq k' k) eqn:E; [|reflexivity].
  apply streq_eq in E. subst. exfalso. apply Hnot. now left.
Qed.


(** *** What [updateCompany] keeps of the record that it has written *)










(** The name index is not brought up to date either: the new name is
    compared with the name of the record after [Object.assign] has
    copied it there. *)
Example updateCompany_name_not_reindexed :
  let s := construct true (fun _ => 0%Q) in
  let updates := VObj 1 [(k_name, sv "Apple Computer")] in
  let s' := snd (updateCompany 1%Q (sv "apple") updates s) in
  nameIndex s' = nameIndex s
  /\ findByName s' (str "Apple Computer") = Null.
Proof. vm_compute. split; reflexivity. Qed.

(** *** Import *)

(** A payload that [JSON.parse] rejects leaves the base as it was. *)
Lemma fromJSON_parse_error (clock : nat -> Q) (s : state) :
  fromJSON clock ParseError s = (false, s).
Proof. reflexivity. Qed.

(** A payload that [JSON.parse] accepts is loaded into a base that was
    emptied first: what the base held plays no part in the outcome. *)
Lemma fromJSON_parsed_from_empty (clock : nat -> Q) (data : jsval)
  (s : state) :
  fromJSON clock (Parsed data) s
  = fromJSON clock (Parsed data) (empty (normalizer s)).
Proof. reflexivity. Qed.

(** C3 (as amended): when the payload cannot be parsed, [fromJSON]
    answers [false] and the base is intact, so that [findByName],
    [findByAlias] and [findByTicker] answer as before.  When the payload
    is parsed, the base is emptied before the records are loaded, and
    the outcome, also when loading fails, is the one reached from the
    empty base. *)
Theorem fromJSON_atomic_on_parse_error (clock : nat -> Q) (s : state) :
  (fst (fromJSON clock ParseError s) = false
   /\ forall x : jsstring,
        findByName (snd (fromJSON clock ParseError s)) x = findByName s x
        /\ findByAlias (snd (fromJSON clock ParseError s)) x
           = findByAlias s x
        /\ findByTicker (snd (fromJSON clock ParseError s)) x
           = findByTicker s x)
  /\ forall data : jsval,
       fromJSON clock (Parsed data) s
       = fromJSON clock (Parsed data) (empty (normalizer s)).
Proof.
  rewrite fromJSON_parse_error. simpl. repeat split.
Qed.

(** C3 fails as stated: the payload
    [{"companies":[{"id":"acme","name":"Acme Corp","ticker":7}]}] is
    parsed, the base is emptied, and [addCompany] throws on
    [ticker.toUpperCase()].  [fromJSON] answers [false], and the
    companies of the constructor are gone. *)
Lemma fromJSON_load_error_loses_state :
  let s := construct true (fun _ => 0%Q) in
  let payload :=
    Parsed
      (VObj 1
         [(k_companies,
           VArr 2
             [VObj 3 [(k_id, sv "acme"); (k_name, sv "Acme Corp");
                      (k_ticker, VNum 7)]])]) in
  let s' := snd (fromJSON (fun _ => 1%Q) payload s) in
  fst (fromJSON (fun _ => 1%Q) payload s) = false
  /\ findByTicker s (str "AAPL") <> findByTicker s' (str "AAPL")
  /\ findByName s (str "Apple Inc.") <> findByName s' (str "Apple Inc.")
  /\ findByAlias s (str "Apple") <> findByAlias s' (str "Apple").
Proof.
  vm_compute. repeat split; discriminate.
Qed.

End KnowledgeBaseFacts.

(** ** [ConfidenceScorer] *)

Module ScorerFacts.
Import ConfidenceScorer JsFacts FuzzyFacts.

Lemma Qmin_one_le (x : Q) : (Qmin x 1.0 <= 1)%Q.
Proof. apply Qle_trans with 1.0%Q; [apply Q.le_min_r|lra]. Qed.

Lemma Qmin_one_nonneg (x : Q) : (0 <= x)%Q -> (0 <= Qmin x 1.0)%Q.
Proof. intros H. apply Q.min_glb; [assumption|lra]. Qed.

Lemma scorePatternMatch_le (v : Validated) : (scorePatternMatch v <= 1)%Q.
Proof. apply Qmin_one_le. Qed.

Lemma scorePatternMatch_nonneg (v : Validated) :
  (0 <= v_patternConfidence v)%Q -> (0 <= scorePatternMatch v)%Q.
Proof.
  intros H. apply Qmin_one_nonneg.
  destruct (typeIs _ "ticker"); [|destruct (typeIs _ "company_formal")];
    destruct (typeIs _ "company_context"); lra.
Qed.

Lemma scoreDOMContext_le (v : Validated) : (scoreDOMContext v <= 1)%Q.
Proof. apply Qmin_one_le. Qed.

Lemma scoreDOMContext_nonneg (v : Validated) :
  (0 <= v_domConfidence v)%Q -> (0 <= scoreDOMContext v)%Q.
Proof.
  intros H. apply Qmin_one_nonneg.
  assert (0 <= match dc_position (v_domContext v) with
               | Some position =>
                   if hasTag position "h1" then v_domConfidence v * 1.3
                   else if hasTag position "h2" then v_domConfidence v * 1.2
                   else if hasTag position "firstParagraph"
                   then v_domConfidence v * 1.15
                   else v_domConfidence v
               | None => v_domConfidence v
               end)%Q as H1.
  { destruct (dc_position _) as [p|]; [|assumption].
    destruct (hasTag p "h1"); [lra|].
    destruct (hasTag p "h2"); [lra|].
    destruct (hasTag p "firstParagraph"); lra. }
  destruct (dc_contextClues _) as [clues|]; [|assumption].
  cbv zeta. destruct (existsb _ clues); lra.
Qed.

Lemma scoreNLPConfidence_le (v : Validated) : (scoreNLPConfidence v <= 1)%Q.
Proof. apply Qmin_one_le. Qed.

Lemma scoreNLPConfidence_nonneg (v : Validated) :
  (0 <= v_nlpValue v)%Q -> (0 <= scoreNLPConfidence v)%Q.
Proof.
  intros H. apply Qmin_one_nonneg.
  destruct (nc_entities _) as [[|top rest]|]; try assumption.
  cbv zeta.
  destruct (gt (ne_confidence top) 0.9);
    destruct (Nat.ltb 0 (length _)); lra.
Qed.

Lemma splitFrom_nonempty (inRun : bool) (cur s : jsstring) :
  splitFrom inRun cur s <> [].
Proof.
  revert inRun cur. induction s as [|c s IH]; intros inRun cur; simpl;
    [discriminate|].
  destruct (isSpace c); [destruct inRun|]; try apply IH; discriminate.
Qed.

Lemma setOf_nonempty (l : list jsstring) : l <> [] -> setOf l <> [].
Proof.
  destruct l as [|y r]; [congruence|]. intros _ E.
  assert (In y (setOf (y :: r))) as Hy by (apply setOf_In; now left).
  rewrite E in Hy. destruct Hy.
Qed.

Lemma calculateSimilarity_unit (str1 str2 : jsstring) :
  unit_interval (calculateSimilarity str1 str2).
Proof.
  unfold calculateSimilarity. apply jaccard_unit; [apply setOf_NoDup|].
  intros E. apply app_eq_nil in E as [E _].
  revert E. apply setOf_nonempty, splitFrom_nonempty.
Qed.

Lemma fuzzyMatchKnownEntity_unit (entityText : jsstring) :
  unit_interval (fuzzyMatchKnownEntity entityText).
Proof.
  unfold fuzzyMatchKnownEntity.
  assert (unit_interval 0%Q) as Hinit by (split; lra).
  revert Hinit. generalize 0%Q. generalize knownEntities.
  induction l as [|entry l IH]; intros best Hbest; simpl; [assumption|].
  apply IH.
  destruct (calculateSimilarity_unit entityText (fst entry)) as [H0 H1].
  destruct (gt _ 0.8); [|assumption].
  apply Qmax_unit; [assumption|]. split; lra.
Qed.

Lemma scoreCrossReference_unit (v : Validated) (context : Context) :
  unit_interval (scoreCrossReference v context).
Proof.
  unfold scoreCrossReference.
  destruct (JsValue.mapGet _ _ _) as [knownEntity|];
    [|apply fuzzyMatchKnownEntity_unit].
  split; [apply Qmin_one_nonneg|apply Qmin_one_le].
  destruct (typeIs _ "ticker" && _); destruct (industry context) as [i|];
    try lra;
    destruct (negb (FuzzyMatcher.isEmpty i) && _); try lra;
    destruct (checkSectorConsistency _ _); lra.
Qed.

Lemma ofNat_succ (n : nat) :
  (FuzzyMatcher.ofNat (S n) == FuzzyMatcher.ofNat n + 1)%Q.
Proof.
  unfold FuzzyMatcher.ofNat. rewrite Nat2Z.inj_succ.
  unfold Z.succ. rewrite inject_Z_plus. reflexivity.
Qed.

Lemma sum_bounds (l : list Q) :
  Forall unit_interval l ->
  forall acc : Q,
    (acc <= fold_left Qplus l acc
     /\ fold_left Qplus l acc <= acc + FuzzyMatcher.ofNat (length l))%Q.
Proof.
  induction 1 as [|x l [Hx0 Hx1] Hl IH]; intros acc;
    cbn [fold_left length].
  - change (FuzzyMatcher.ofNat 0) with 0%Q. lra.
  - destruct (IH (acc + x)%Q) as [H0 H1].
    pose proof (ofNat_succ (length l)) as Hs. lra.
Qed.

Lemma consistencyChecks_unit (v : Validated) (checks : list Q) :
  consistencyChecks v = Some checks -> Forall unit_interval checks.
Proof.
  unfold consistencyChecks.
  destruct (patternCheck v) as [first|] eqn:E; [|discriminate].
  intros [= <-]. apply Forall_app. split.
  - unfold patternCheck in E.
    destruct (nonEmpty _) as [e|]; [|injection E as <-; constructor].
    destruct (nc_entities _) as [[|entity rest]|];
      try (injection E as <-; constructor).
    destruct (ne_normalized entity) as [normalized|]; [|discriminate].
    cbv zeta in E. injection E as <-.
    destruct (streq _ _); [|destruct (gt _ 0.7)];
      repeat constructor; lra.
  - unfold clueCheck.
    destruct (dc_contextClues _) as [clues|]; [|constructor].
    destruct (nonEmpty _) as [t|]; [|constructor].
    destruct (existsb _ clues); repeat constructor; lra.
Qed.

Lemma scoreContextConsistency_unit (v : Validated) (q : Q) :
  scoreContextConsistency v = Some q -> unit_interval q.
Proof.
  unfold scoreContextConsistency.
  pose proof (consistencyChecks_unit v) as H.
  destruct (consistencyChecks v) as [[|x l]|]; [| |discriminate].
  - intros [= <-]. clear H. split; lra.
  - intros [= <-]. specialize (H (x :: l) eq_refl).
    destruct (sum_bounds (x :: l) H 0%Q) as [H0 H1].
    assert (0 < FuzzyMatcher.ofNat (length (x :: l)))%Q as Hpos
      by (apply ofNat_pos; simpl; lia).
    cbn [fold_left length] in H0, H1, Hpos |- *.
    split.
    + apply Qle_shift_div_l; [assumption|]. lra.
    + apply Qle_shift_div_r; [assumption|]. lra.
Qed.

(** The scoring throws exactly on [scoringThrows]. *)
Lemma scoreContextConsistency_throws (factors : Factors) :
  scoreContextConsistency (validateFactors factors) = None
  <-> scoringThrows factors = true.
Proof.
  unfold scoringThrows, scoreContextConsistency, consistencyChecks,
    patternCheck. cbv zeta.
  destruct (pm_entity (v_patternMatch (validateFactors factors)))
    as [[|c e]|]; cbn [nonEmpty];
    destruct (nc_entities (v_nlpConfidence (validateFactors factors)))
      as [[|first rest]|];
    try destruct (ne_normalized first);
    try (split; reflexivity);
    (split; [|discriminate]);
    repeat match goal with
           | |- context [match ?l ++ ?r with _ => _ end] =>
               destruct (l ++ r)
           | |- context [if ?b then _ else _] => destruct b
           end; discriminate.
Qed.

(** The two answers of [calculateScore]. *)
Lemma calculateScore_cases (factors : Factors) (context : Context) :
  (scoringThrows factors = false
   /\ exists scores,
        calculateScore factors context
        = {| score := calculateWeightedScore scores;
             level := determineConfidenceLevel (calculateWeightedScore scores);
             breakdown := Some scores |}
        /\ s_patternMatch scores = scorePatternMatch (validateFactors factors)
        /\ s_domContext scores = scoreDOMContext (validateFactors factors)
        /\ s_nlpConfidence scores
           = scoreNLPConfidence (validateFactors factors)
        /\ s_crossReference scores
           = scoreCrossReference (validateFactors factors) context
        /\ scoreContextConsistency (validateFactors factors)
           = Some (s_contextConsistency scores))
  \/ (scoringThrows factors = true
      /\ calculateScore factors context = scoringError).
Proof.
  unfold calculateScore. cbv zeta.
  pose proof (scoreContextConsistency_throws factors) as Hthrows.
  destruct (scoreContextConsistency (validateFactors factors)) as [q|].
  - left. split.
    + destruct (scoringThrows factors); [|reflexivity].
      destruct Hthrows as [_ H]. now discriminate H.
    + eexists. split; [reflexivity|]. cbn. now repeat split.
  - right. split; [now apply Hthrows|reflexivity].
Qed.

Lemma calculateWeightedScore_le (scores : Scores) :
  (s_patternMatch scores <= 1)%Q -> (s_domContext scores <= 1)%Q ->
  (s_nlpConfidence scores <= 1)%Q -> (s_crossReference scores <= 1)%Q ->
  (s_contextConsistency scores <= 1)%Q ->
  (calculateWeightedScore scores <= 1)%Q.
Proof.
  intros H1 H2 H3 H4 H5. unfold calculateWeightedScore, weights.
  cbn [fold_left fst snd w_patternMatch w_domContext w_nlpConfidence
         w_crossReference w_contextConsistency].
  destruct (Qlt_le_dec 0 _) as [Hpos|Hneg]; [|lra].
  apply Qle_shift_div_r; [assumption|]. lra.
Qed.

Lemma calculateWeightedScore_nonneg (scores : Scores) :
  (0 <= s_patternMatch scores)%Q -> (0 <= s_domContext scores)%Q ->
  (0 <= s_nlpConfidence scores)%Q -> (0 <= s_crossReference scores)%Q ->
  (0 <= s_contextConsistency scores)%Q ->
  (0 <= calculateWeightedScore scores)%Q.
Proof.
  intros H1 H2 H3 H4 H5. unfold calculateWeightedScore, weights.
  cbn [fold_left fst snd w_patternMatch w_domContext w_nlpConfidence
         w_crossReference w_contextConsistency].
  destruct (Qlt_le_dec 0 _) as [Hpos|Hneg]; [|lra].
  apply Qle_shift_div_l; [assumption|]. lra.
Qed.

(** The score never exceeds 1, whatever the input. *)
Lemma calculateScore_le (factors : Factors) (context : Context) :
  (score (calculateScore factors context) <= 1)%Q.
Proof.
  destruct (calculateScore_cases factors context)
    as [(_ & scores & -> & H1 & H2 & H3 & H4 & H5)|[_ ->]];
    [|cbn; lra].
  cbn [score]. apply calculateWeightedScore_le.
  - rewrite H1. apply scorePatternMatch_le.
  - rewrite H2. apply scoreDOMContext_le.
  - rewrite H3. apply scoreNLPConfidence_le.
  - rewrite H4. apply scoreCrossReference_unit.
  - now apply (scoreContextConsistency_unit _ _ H5).
Qed.

Lemma Qle_bool_false (a b : Q) : Qle_bool a b = false <-> (b < a)%Q.
Proof.
  split.
  - intros H. apply Qnot_le_lt. intros Hle.
    apply Qle_bool_iff in Hle. congruence.
  - intros H. destruct (Qle_bool a b) eqn:E; [|reflexivity].
    apply Qle_bool_iff in E. lra.
Qed.

Lemma determineConfidenceLevel_cases (s : Q) :
  ((0.85 <= s)%Q /\ determineConfidenceLevel s = high)
  \/ ((0.65 <= s < 0.85)%Q /\ determineConfidenceLevel s = medium)
  \/ ((0.45 <= s < 0.65)%Q /\ determineConfidenceLevel s = low)
  \/ ((s < 0.45)%Q /\ determineConfidenceLevel s = reject).
Proof.
  unfold determineConfidenceLevel, thresholds.
  cbn [t_high t_medium t_low].
  destruct (Qle_bool 0.85 s) eqn:E1;
    [apply Qle_bool_iff in E1; now left|apply Qle_bool_false in E1].
  destruct (Qle_bool 0.65 s) eqn:E2;
    [apply Qle_bool_iff in E2; right; left; repeat split; assumption
    |apply Qle_bool_false in E2].
  destruct (Qle_bool 0.45 s) eqn:E3;
    [apply Qle_bool_iff in E3; right; right; left; repeat split; assumption
    |apply Qle_bool_false in E3].
  right; right; right. now split.
Qed.

(** C4 (as amended): whenever the three confidences given in [factors]
    are not negative (a confidence left out counts as 0), the score of
    [calculateScore] lies in [0, 1].  When the scoring throws (the
    pattern match names an entity and the first NLP entity has no
    normalized text) the answer is that of the [catch] block: the score
    0 with the level [error] and no breakdown.  Otherwise the level is
    [determineConfidenceLevel] of the score alone: [high] from 0.85,
    [medium] from 0.65, [low] from 0.45, [reject] below; and a larger
    score never gets a stricter level. *)
Theorem calculateScore_bounded_and_level_monotone
  (factors : Factors) (context : Context) :
  (0 <= v_patternConfidence (validateFactors factors))%Q ->
  (0 <= v_domConfidence (validateFactors factors))%Q ->
  (0 <= v_nlpValue (validateFactors factors))%Q ->
  (0 <= score (calculateScore factors context) <= 1)%Q
  /\ (if scoringThrows factors
      then calculateScore factors context = scoringError
      else level (calculateScore factors context)
           = determineConfidenceLevel
               (score (calculateScore factors context)))
  /\ (forall s : Q,
        ((0.85 <= s)%Q -> determineConfidenceLevel s = high)
        /\ ((0.65 <= s < 0.85)%Q -> determineConfidenceLevel s = medium)
        /\ ((0.45 <= s < 0.65)%Q -> determineConfidenceLevel s = low)
        /\ ((s < 0.45)%Q -> determineConfidenceLevel s = reject))
  /\ (forall s1 s2 : Q,
        (s1 <= s2)%Q ->
        (levelRank (determineConfidenceLevel s1)
         <= levelRank (determineConfidenceLevel s2))%nat).
Proof.
  intros Hp Hd Hn. split; [split|split; [|split]].
  - destruct (calculateScore_cases factors context)
      as [(_ & scores & -> & H1 & H2 & H3 & H4 & H5)|[_ ->]];
      [|cbn; lra].
    cbn [score]. apply calculateWeightedScore_nonneg.
    + rewrite H1. now apply scorePatternMatch_nonneg.
    + rewrite H2. now apply scoreDOMContext_nonneg.
    + rewrite H3. now apply scoreNLPConfidence_nonneg.
    + rewrite H4. apply scoreCrossReference_unit.
    + now apply (scoreContextConsistency_unit _ _ H5).
  - apply calculateScore_le.
  - destruct (calculateScore_cases factors context)
      as [(-> & scores & -> & _)|[-> ->]]; reflexivity.
  - intros s. repeat split; intros H;
      destruct (determineConfidenceLevel_cases s)
        as [[? ?]|[[? ?]|[[? ?]|[? ?]]]]; (assumption || lra).
  - intros s1 s2 H.
    destruct (determineConfidenceLevel_cases s1)
      as [[? ->]|[[? ->]|[[? ->]|[? ->]]]];
      destruct (determineConfidenceLevel_cases s2)
        as [[? ->]|[[? ->]|[[? ->]|[? ->]]]];
      simpl; (lia || lra).
Qed.

(** C4 on the confidences 0.9, 0.5 and 0.8. *)
Lemma calculateScore_bounded_and_level_monotone_witness :
  (0 <= score (calculateScore (plainFactors 0.9 0.5 0.8)
                 {| industry := None |}) <= 1)%Q.
Proof.
  apply (calculateScore_bounded_and_level_monotone
           (plainFactors 0.9 0.5 0.8) {| industry := None |});
    vm_compute; discriminate.
Defined.

(** C4 fails as stated: a pattern confidence of -10 is not clamped from
    below and gives the score -2.395; and on factors whose first NLP
    entity has no normalized text the scoring throws, and the level is
    [error] at the score 0 where the cut points say [reject]. *)
Lemma calculateScore_negative :
  ((score (calculateScore (plainFactors (-10) 0 0) {| industry := None |})
    == -2.395)%Q
   /\ ~ (0 <= score (calculateScore (plainFactors (-10) 0 0)
                       {| industry := None |}) <= 1)%Q)
  /\ (calculateScore adapterFactors {| industry := None |} = scoringError
      /\ level (calculateScore adapterFactors {| industry := None |}) = error
      /\ determineConfidenceLevel
           (score (calculateScore adapterFactors {| industry := None |}))
         = reject).
Proof.
  split; split.
  - vm_compute. reflexivity.
  - intros [H _]. vm_compute in H. apply H. reflexivity.
  - vm_compute. reflexivity.
  - split; vm_compute; reflexivity.
Qed.

End ScorerFacts.

(** ** [SecureNLPProcessor]: the result cache *)

Module CacheFacts.
Import JsValue SecureNLPProcessor JsFacts KnowledgeBaseFacts.

Lemma mapDelete_keys {V : Type} (m : list (jsstring * V)) (k x : jsstring) :
  In x (map fst (mapDelete streq m k)) -> In x (map fst m).
Proof.
  induction m as [|[k' v'] m IH]; simpl; [trivial|].
  destruct (streq k' k); simpl; intuition.
Qed.

Lemma mapDelete_wellFormed {V : Type} (m : list (jsstring * V))
  (k : jsstring) :
  wellFormed m -> wellFormed (mapDelete streq m k).
Proof.
  unfold wellFormed. induction m as [|[k' v'] m IH]; simpl; [trivial|].
  intros H. inversion H as [|? ? Hnot Hrest]; subst.
  destruct (streq k' k); simpl; [assumption|].
  constructor; [|auto]. intros Hin. apply Hnot.
  eapply mapDelete_keys, Hin.
Qed.

Lemma mapGet_absent {V : Type} (m : list (jsstring * V)) (k : jsstring) :
  ~ In k (map fst m) -> mapGet streq m k = None.
Proof.
  induction m as [|[k' v'] m IH]; simpl; [reflexivity|].
  intros H. destruct (streq k' k) eqn:E.
  - apply streq_eq in E. subst. exfalso. apply H. now left.
  - apply IH. intros Hin. apply H. now right.
Qed.

Lemma mapGet_mapDelete {V : Type} (m : list (jsstring * V)) (k : jsstring) :
  wellFormed m -> mapGet streq (mapDelete streq m k) k = None.
Proof.
  unfold wellFormed. induction m as [|[k' v'] m IH]; simpl; [reflexivity|].
  intros H. inversion H as [|? ? Hnot Hrest]; subst.
  destruct (streq k' k) eqn:E; simpl.
  - apply streq_eq in E. subst. now apply mapGet_absent.
  - rewrite E. auto.
Qed.

Lemma mapSet_keys {V : Type} (m : list (jsstring * V)) (k x : jsstring)
  (v : V) :
  In x (map fst (mapSet streq m k v)) -> In x (map fst m) \/ x = k.
Proof.
  induction m as [|[k' v'] m IH]; simpl.
  - intuition.
  - destruct (streq k' k); simpl; intuition.
Qed.

Lemma mapSet_wellFormed {V : Type} (m : list (jsstring * V)) (k : jsstring)
  (v : V) :
  wellFormed m -> wellFormed (mapSet streq m k v).
Proof.
  unfold wellFormed. induction m as [|[k' v'] m IH]; simpl.
  - intros _. repeat constructor. intros Hf. destruct Hf.
  - intros H. inversion H as [|? ? Hnot Hrest]; subst.
    destruct (streq k' k) eqn:E; simpl; [assumption|].
    constructor; [|auto]. intros Hin.
    apply mapSet_keys in Hin as [Hin| ->]; [auto|].
    rewrite streq_refl in E. discriminate.
Qed.

(** The cache stays a [Map] under both operations. *)
Lemma checkCache_wellFormed (now : Z) (key : jsstring)
  (cache : list (jsstring * CacheEntry)) :
  wellFormed cache -> wellFormed (snd (checkCache now key cache)).
Proof.
  intros H. unfold checkCache.
  destruct (mapGet streq cache key) as [cached|]; [|assumption].
  destruct (Z.ltb _ _); [assumption|]. now apply mapDelete_wellFormed.
Qed.

Lemma cacheResults_wellFormed (now : Z) (key : jsstring) (results : Result)
  (cache : list (jsstring * CacheEntry)) :
  wellFormed cache -> wellFormed (cacheResults now key results cache).
Proof.
  intros H. unfold cacheResults. apply mapSet_wellFormed.
  destruct (Nat.ltb 1000 _); [|assumption].
  destruct cache as [|[firstKey e] rest]; [assumption|].
  now apply mapDelete_wellFormed.
Qed.

(** C5: a read of the cache never answers an entry that is as old as
    the time to live (300000 ms) or older; such an entry is deleted by
    the read that finds it, after which the key is absent; and a write
    into a cache of more than 1000 entries first deletes the entry that
    was inserted first, which is the one with the least time stamp when
    the time stamps follow the order of insertion. *)
Theorem cache_never_returns_stale_entry
  (now : Z) (key : jsstring) (cache : list (jsstring * CacheEntry)) :
  (forall r : Result,
     fst (checkCache now key cache) = Some r ->
     exists cached,
       mapGet streq cache key = Some cached /\ data cached = r
       /\ (now - timestamp cached < 300000)%Z)
  /\ (forall cached : CacheEntry,
        mapGet streq cache key = Some cached ->
        (300000 <= now - timestamp cached)%Z ->
        fst (checkCache now key cache) = None
        /\ snd (checkCache now key cache) = mapDelete streq cache key
        /\ (wellFormed cache ->
            mapGet streq (snd (checkCache now key cache)) key = None))
  /\ (forall (results : Result) (firstKey : jsstring) (oldest : CacheEntry)
        (rest : list (jsstring * CacheEntry)),
        cache = (firstKey, oldest) :: rest ->
        (1000 < length cache)%nat ->
        cacheResults now key results cache
        = mapSet streq rest key {| data := results; timestamp := now |}
        /\ (StronglySorted (fun a b => (timestamp a <= timestamp b)%Z)
              (map snd cache) ->
            forall e, In e (map snd cache) ->
                      (timestamp oldest <= timestamp e)%Z))
  /\ (forall results : Result,
        (length cache <= 1000)%nat ->
        cacheResults now key results cache
        = mapSet streq cache key {| data := results; timestamp := now |}).
Proof.
  unfold checkCache, cacheTimeout. repeat split.
  - intros r. destruct (mapGet streq cache key) as [cached|];
      [|discriminate].
    destruct (Z.ltb_spec (now - timestamp cached) 300000) as [Hlt|Hge];
      [|discriminate].
    intros [= <-]. exists cached. auto.
  - rewrite H. destruct (Z.ltb_spec (now - timestamp cached) 300000);
      [lia|reflexivity].
  - rewrite H. destruct (Z.ltb_spec (now - timestamp cached) 300000);
      [lia|reflexivity].
  - intros Hwf. rewrite H.
    destruct (Z.ltb_spec (now - timestamp cached) 300000); [lia|].
    now apply mapGet_mapDelete.
  - subst cache. unfold cacheResults.
    apply Nat.ltb_lt in H0. rewrite H0.
    cbn [mapDelete]. now rewrite streq_refl.
  - subst cache. cbn [map snd]. intros Hs e [<-|Hin]; [lia|].
    apply StronglySorted_inv in Hs as [_ Hall].
    rewrite Forall_forall in Hall. now apply Hall.
  - intros results Hle. unfold cacheResults.
    apply Nat.leb_le in Hle. rewrite Nat.ltb_antisym, Hle. reflexivity.
Qed.

(** C5 on an entry written at time 0: it is answered at 299999 and
    deleted at 300000. *)
Lemma cache_never_returns_stale_entry_witness :
  fst (checkCache 299999 (str "nlp_1") sampleCache) = Some sampleResult
  /\ fst (checkCache 300000 (str "nlp_1") sampleCache) = None
  /\ mapGet streq (snd (checkCache 300000 (str "nlp_1") sampleCache))
       (str "nlp_1") = None.
Proof.
  split; [reflexivity|].
  destruct (cache_never_returns_stale_entry 300000 (str "nlp_1") sampleCache)
    as (_ & H & _).
  destruct (H {| data := sampleResult; timestamp := 0 |}) as (H1 & _ & H3).
  - reflexivity.
  - vm_compute. discriminate.
  - split; [exact H1|]. apply H3.
    repeat constructor. intros Hf. destruct Hf.
Defined.

(** *** The cache key *)

Lemma firstn_min_length {A : Type} (n : nat) (l : list A) :
  firstn (Nat.min (length l) n) l = firstn n l.
Proof.
  destruct (Nat.le_ge_cases (length l) n) as [H|H].
  - rewrite Nat.min_l by assumption.
    now rewrite firstn_all, firstn_all2.
  - now rewrite Nat.min_r.
Qed.

Lemma generateCacheKey_prefix (text1 text2 : jsstring) :
  firstn 100 text1 = firstn 100 text2 ->
  generateCacheKey text1 = generateCacheKey text2.
Proof.
  intros H. unfold generateCacheKey.
  now rewrite !firstn_min_length, H.
Qed.

Section Served.
Variable extractAndValidate : jsstring -> jsstring + Result.

(** C9: the cache key depends on the first 100 units of the sanitized
    text only.  So when two texts have distinct sanitized forms that
    agree on their first 100 units, both have the same key; and when a
    call with the first text misses the cache and stores its result at
    time [written], a call with the second text read before
    [written + 300000] answers the result computed for the first
    text. *)
Theorem cache_key_collision_serves_first_result
  (text1 text2 : jsstring) (s : state)
  (read1 written read2 : Z) (elapsed1 elapsed2 : Q) (result1 : Result) :
  sanitizeInput text1 <> sanitizeInput text2 ->
  firstn 100 (sanitizeInput text1) = firstn 100 (sanitizeInput text2) ->
  fst (checkCache read1 (generateCacheKey (sanitizeInput text1))
         (entityCache s)) = None ->
  extractAndValidate (sanitizeInput text1) = inr result1 ->
  (read2 - written < 300000)%Z ->
  generateCacheKey (sanitizeInput text1)
  = generateCacheKey (sanitizeInput text2)
  /\ fst (extractEntities extractAndValidate read1 written elapsed1 text1 s)
     = result1
  /\ fst (extractEntities extractAndValidate read2 read2 elapsed2 text2
            (snd (extractEntities extractAndValidate read1 written elapsed1
                    text1 s)))
     = result1.
Proof.
  intros Hdistinct Hprefix Hmiss Hres Hfresh.
  pose proof (generateCacheKey_prefix _ _ Hprefix) as Hkey.
  split; [exact Hkey|].
  unfold extractEntities.
  destruct (sanitizeInput text1) as [|c1 s1] eqn:E1.
  { destruct (sanitizeInput text2); [congruence|discriminate]. }
  destruct (sanitizeInput text2) as [|c2 s2] eqn:E2; [discriminate|].
  rewrite <- Hkey.
  destruct (checkCache read1 (generateCacheKey (c1 :: s1)) (entityCache s))
    as [cached cache1] eqn:Ec.
  cbn [fst] in Hmiss. subst cached. rewrite Hres. cbn [fst snd entityCache].
  split; [reflexivity|].
  unfold checkCache at 1, cacheResults.
  rewrite mapGet_mapSet_same. cbn [timestamp data].
  unfold cacheTimeout.
  destruct (Z.ltb_spec (read2 - written) 300000) as [_|Hge]; [|lia].
  reflexivity.
Qed.

End Served.

(** C9 on two texts of 100 letters "a" followed by " Apple Inc." and by
    " Tesla Inc.": the second call answers the entities of the first. *)
Lemma cache_key_collision_serves_first_result_witness :
  longText " Apple Inc." <> longText " Tesla Inc."
  /\ fst (extractEntities echo 1000 1000 0 (longText " Tesla Inc.")
            (snd (extractEntities echo 0 0 0 (longText " Apple Inc.")
                    emptyState)))
     = match echo (longText " Apple Inc.") with
       | inr r => r
       | inl _ => sampleResult
       end.
Proof.
  split; [vm_compute; discriminate|].
  apply (cache_key_collision_serves_first_result echo
           (longText " Apple Inc.") (longText " Tesla Inc.") emptyState
           0 0 1000 0%Q 0%Q).
  - vm_compute. discriminate.
  - vm_compute. reflexivity.
  - vm_compute. reflexivity.
  - vm_compute. reflexivity.
  - vm_compute. reflexivity.
Defined.

End CacheFacts.

(** ** A stage that fails, or runs out of time *)

Module StageFailureFacts.
Import SecureNLPProcessor JsFacts CacheFacts.

Section Failure.
Variable extractAndValidate : jsstring -> jsstring + Result.


End Failure.



End StageFailureFacts.

(** ** Ranking *)

Module RankingFacts.
Import JsFacts.

(** *** [Array.prototype.sort] with a total comparison *)
Section SortFacts.
Variable A : Type.
Variable lte : A -> A -> bool.
Hypothesis lte_total : forall a b, lte a b = false -> lte b a = true.

Local Abbreviation inOrder := (Js.inOrder lte).

Lemma insertSorted_perm (x : A) (l : list A) :
  Permutation (x :: l) (insertSorted lte x l).
Proof.
  induction l as [|y l IH]; simpl; [reflexivity|].
  destruct (lte x y); [reflexivity|].
  rewrite perm_swap. now constructor.
Qed.

Lemma sortBy_perm (l : list A) : Permutation l (sortBy lte l).
Proof.
  induction l as [|x l IH]; simpl; [constructor|].
  rewrite <- insertSorted_perm. now constructor.
Qed.

Lemma insertSorted_hd (x y : A) (l : list A) :
  inOrder y x -> HdRel inOrder y l -> HdRel inOrder y (insertSorted lte x l).
Proof.
  intros Hyx Hl. destruct l as [|z l]; simpl; [now constructor|].
  destruct (lte x z); constructor; [assumption|].
  now inversion Hl.
Qed.

Lemma insertSorted_sorted (x : A) (l : list A) :
  Sorted inOrder l -> Sorted inOrder (insertSorted lte x l).
Proof.
  induction 1 as [|y l Hl IH Hhd]; simpl; [repeat constructor|].
  destruct (lte x y) eqn:E.
  - constructor; [now constructor|now constructor].
  - constructor; [assumption|].
    apply insertSorted_hd; [now apply lte_total|assumption].
Qed.

Lemma sortBy_sorted (l : list A) : Sorted inOrder (sortBy lte l).
Proof.
  induction l as [|x l IH]; simpl; [constructor|].
  now apply insertSorted_sorted.
Qed.

(** Two neighbours of a sorted list are in order. *)
Lemma sorted_neighbours (l pre post : list A) (a b : A) :
  Sorted inOrder l -> l = pre ++ a :: b :: post -> inOrder a b.
Proof.
  intros Hs. revert l Hs. induction pre as [|p pre IH]; intros l Hs ->.
  - apply Sorted_inv in Hs as [_ Hhd]. now inversion Hhd.
  - apply Sorted_inv in Hs as [Hs _]. now apply (IH _ Hs).
Qed.
End SortFacts.

(** *** The final ranking of [EnhancedNLPProcessor] *)

Import EnhancedNLPProcessor.

Lemma inject_Z_nonpos (z : Z) : (inject_Z z <= 0)%Q -> (z <= 0)%Z.
Proof. change 0%Q with (inject_Z 0). now rewrite <- Zle_Qle. Qed.

Lemma inject_Z_nonpos_intro (z : Z) : (z <= 0)%Z -> (inject_Z z <= 0)%Q.
Proof. change 0%Q with (inject_Z 0). now rewrite <- Zle_Qle. Qed.

Lemma inject_Z_pos (z : Z) : (0 < inject_Z z)%Q -> (0 < z)%Z.
Proof. change 0%Q with (inject_Z 0). now rewrite <- Zlt_Qlt. Qed.

Lemma Qeq_bool_false (a b : Q) : Qeq_bool a b = false -> ~ (a == b)%Q.
Proof. intros H E. apply Qeq_bool_iff in E. congruence. Qed.

Lemma typeOrder_own (t : jsstring) :
  ownName t -> typeOrder t = Priority (priority t).
Proof.
  unfold ownName, typeOrder, priority. intros H.
  repeat match goal with
         | |- context [streq t ?k] => destruct (streq t k); [reflexivity|]
         end.
  now rewrite H.
Qed.

Lemma enhancedLte_rankedBefore (a b : Entity) :
  ownName (type a) -> ownName (type b) ->
  enhancedLte a b = true -> rankedBefore a b.
Proof.
  intros Ha Hb. unfold enhancedLte, compareEnhanced, rankedBefore.
  cbv zeta. rewrite (typeOrder_own _ Ha), (typeOrder_own _ Hb).
  destruct (hasKB a), (hasKB b); cbn [andb negb notAfter].
  all: try (intros H; apply Qle_bool_iff in H; exfalso; lra).
  all: try (intros _; left; split; reflexivity).
  all: destruct (Qeq_bool (confidence a) (confidence b)) eqn:Ec;
    cbn [negb notAfter];
    [apply Qeq_bool_iff in Ec|apply Qeq_bool_false in Ec].
  all: try (intros H; apply Qle_bool_iff in H; right;
            split; [reflexivity|left; lra]).
  all: destruct (Z.eqb_spec (priority (type a)) (priority (type b)))
    as [Et|Et]; cbn [negb notAfter]; intros H; apply Qle_bool_iff in H;
    apply inject_Z_nonpos in H;
    right; (split; [reflexivity|]); right; (split; [assumption|]).
  all: try (right; split; [assumption|lia]).
  all: left; lia.
Qed.

Lemma enhancedLte_total (a b : Entity) :
  enhancedLte a b = false -> enhancedLte b a = true.
Proof.
  unfold enhancedLte, compareEnhanced. cbv zeta.
  destruct (hasKB a), (hasKB b); cbn [andb negb notAfter].
  all: try (intros H; apply ScorerFacts.Qle_bool_false in H;
            apply Qle_bool_iff; lra).
  all: destruct (Qeq_bool (confidence a) (confidence b)) eqn:Ec;
    [apply Qeq_bool_iff in Ec|apply Qeq_bool_false in Ec].
  all: destruct (Qeq_bool (confidence b) (confidence a)) eqn:Ec';
    [apply Qeq_bool_iff in Ec'|apply Qeq_bool_false in Ec'].
  all: cbn [negb notAfter].
  all: try (exfalso; apply Ec'; lra).
  all: try (exfalso; apply Ec; lra).
  all: try (intros H; apply ScorerFacts.Qle_bool_false in H;
            apply Qle_bool_iff; lra).
  all: destruct (typeOrder (type a)) as [x|n], (typeOrder (type b)) as [y|m];
    try discriminate.
  all: try (destruct (Z.eqb_spec x y); destruct (Z.eqb_spec y x);
            cbn [negb notAfter]; try lia; intros H;
            apply ScorerFacts.Qle_bool_false in H; apply inject_Z_pos in H;
            apply Qle_bool_iff, inject_Z_nonpos_intro; lia).
  all: destruct (streq n m) eqn:E; [|discriminate].
  all: apply streq_eq in E; subst m; rewrite streq_refl;
    cbn [negb notAfter]; intros H;
    apply ScorerFacts.Qle_bool_false in H; apply inject_Z_pos in H;
    apply Qle_bool_iff, inject_Z_nonpos_intro; lia.
Qed.

(** *** The first ranking, in [validateAndRankEntities] *)

Lemma baseLte_sortedBefore (a b : SecureNLPProcessor.Entity) :
  baseLte a b = true -> sortedBefore a b.
Proof.
  unfold baseLte, SecureNLPProcessor.compareEntities, sortedBefore.
  intros H. apply Qle_bool_iff in H. revert H.
  destruct (Qeq_bool _ _) eqn:Ec; cbn [negb];
    [apply Qeq_bool_iff in Ec|apply Qeq_bool_false in Ec]; intros H.
  - right. split; [assumption|]. apply inject_Z_nonpos in H. lia.
  - left. lra.
Qed.

Lemma baseLte_total (a b : SecureNLPProcessor.Entity) :
  baseLte a b = false -> baseLte b a = true.
Proof.
  unfold baseLte, SecureNLPProcessor.compareEntities.
  intros H. apply ScorerFacts.Qle_bool_false in H. apply Qle_bool_iff.
  revert H.
  destruct (Qeq_bool (SecureNLPProcessor.confidence a) _) eqn:Ec;
    [apply Qeq_bool_iff in Ec|apply Qeq_bool_false in Ec];
    (destruct (Qeq_bool (SecureNLPProcessor.confidence b) _) eqn:Ec';
     [apply Qeq_bool_iff in Ec'|apply Qeq_bool_false in Ec']);
    cbn [negb]; try (intros; lra); try (exfalso; apply Ec'; lra);
    try (exfalso; apply Ec; lra).
  intros H. apply inject_Z_pos in H. apply inject_Z_nonpos_intro. lia.
Qed.

(** C6 (as amended): for entities whose types are not names inherited
    from [Object.prototype], the list returned by
    [rankEnhancedEntities] holds the entities given, and every two
    neighbours [a], [b] of it are ordered by: a knowledge-base match
    with a score above 0.8 first; then the higher confidence; then the
    type of higher priority (ticker, company, company_intl,
    company_abbrev, company_context); then the earlier position.  The
    sort of [validateAndRankEntities] orders its list by the higher
    confidence, then the earlier position. *)
Theorem ranking_order (entities : list Entity)
  (found : list SecureNLPProcessor.Entity) :
  Forall (fun e => ownName (type e)) entities ->
  (Permutation entities (rankEnhancedEntities entities)
   /\ forall pre post a b,
        rankEnhancedEntities entities = pre ++ a :: b :: post ->
        rankedBefore a b)
  /\ (Permutation found (SecureNLPProcessor.sortEntities found)
      /\ forall pre post a b,
           SecureNLPProcessor.sortEntities found = pre ++ a :: b :: post ->
           sortedBefore a b).
Proof.
  intros Hown. split; split.
  - apply sortBy_perm.
  - intros pre post a b H.
    assert (Forall (fun e => ownName (type e)) (rankEnhancedEntities entities))
      as Hranked.
    { rewrite Forall_forall in *. intros e He. apply Hown.
      eapply Permutation_in; [|exact He].
      apply Permutation_sym, sortBy_perm. }
    rewrite H in Hranked. rewrite Forall_forall in Hranked.
    apply enhancedLte_rankedBefore.
    + apply Hranked. apply in_or_app. right. now left.
    + apply Hranked. apply in_or_app. right. right. now left.
    + apply (sorted_neighbours Entity enhancedLte
               (rankEnhancedEntities entities) pre post a b);
        [|exact H].
      apply sortBy_sorted. exact enhancedLte_total.
  - apply sortBy_perm.
  - intros pre post a b H. apply baseLte_sortedBefore.
    apply (sorted_neighbours SecureNLPProcessor.Entity baseLte
             (SecureNLPProcessor.sortEntities found) pre post a b);
      [|exact H].
    apply sortBy_sorted. exact baseLte_total.
Qed.

(** C6 on two entities. *)
Lemma ranking_order_witness :
  rankedBefore contextWithKB tickerWithoutKB.
Proof.
  destruct (ranking_order [tickerWithoutKB; contextWithKB] []) as [[_ H] _].
  - repeat constructor.
  - apply (H [] [] contextWithKB tickerWithoutKB).
    vm_compute. reflexivity.
Defined.

(** C6 fails as stated: an entity that the knowledge base matches is
    ranked before a ticker of higher confidence that sits earlier in
    the text. *)
Lemma ranking_puts_knowledge_base_first :
  rankEnhancedEntities [tickerWithoutKB; contextWithKB]
  = [contextWithKB; tickerWithoutKB]
  /\ ~ specifiedBefore contextWithKB tickerWithoutKB.
Proof.
  split; [vm_compute; reflexivity|].
  unfold specifiedBefore. cbn.
  intros [H|[[H _]|[H _]]]; vm_compute in H; discriminate.
Qed.

(** Among entities of one confidence and one knowledge-base status the
    type is compared before the position. *)
Example ranking_compares_type_before_position :
  let early := {| text := str "Acme"; type := str "company_context";
                  confidence := 0.9; position := Some 0%Z;
                  knowledgeBase := None |} in
  let late := {| text := str "ACME"; type := str "ticker";
                 confidence := 0.9; position := Some 30%Z;
                 knowledgeBase := None |} in
  rankEnhancedEntities [early; late] = [late; early].
Proof. vm_compute. reflexivity. Qed.

(** A type named as a member of [Object.prototype] makes the comparison
    [NaN]: the two entities keep the order given, whichever it is. *)
Example ranking_with_inherited_type :
  let odd := {| text := str "Acme"; type := str "constructor";
                confidence := 0.9; position := Some 0%Z;
                knowledgeBase := None |} in
  let ticker := {| text := str "ACME"; type := str "ticker";
                   confidence := 0.9; position := Some 30%Z;
                   knowledgeBase := None |} in
  compareEnhanced odd ticker = DOMInterpreter.NaN
  /\ rankEnhancedEntities [odd; ticker] = [odd; ticker]
  /\ rankEnhancedEntities [ticker; odd] = [ticker; odd].
Proof. vm_compute. repeat split. Qed.

End RankingFacts.

(** ** [DOMInterpreter]: the structural weight *)

Module StructuralWeightFacts.
Import DOMInterpreter JsFacts.

Lemma weightOf_own (pos : jsstring) :
  ownName pos -> weightOf pos = Num (tagWeight pos).
Proof.
  unfold ownName, weightOf, tagWeight. intros H.
  destruct (JsValue.mapGet streq positionWeights pos) as [w|] eqn:E;
    [|now rewrite H].
  assert (In w (map snd positionWeights)) as Hin.
  { clear H. revert E. generalize positionWeights.
    induction l as [|[k v] l IH]; simpl; [discriminate|].
    destruct (streq k pos); [intros [= ->]; now left|auto]. }
  vm_compute in Hin.
  repeat (destruct Hin as [<-|Hin]; [reflexivity|]). destruct Hin.
Qed.

Lemma tagWeight_pos (pos : jsstring) : (0 < tagWeight pos)%Q.
Proof.
  unfold tagWeight.
  destruct (JsValue.mapGet streq positionWeights pos) as [w|] eqn:E;
    [|reflexivity].
  assert (In w (map snd positionWeights)) as Hin.
  { revert E. generalize positionWeights.
    induction l as [|[k v] l IH]; simpl; [discriminate|].
    destruct (streq k pos); [intros [= ->]; now left|auto]. }
  vm_compute in Hin.
  repeat (destruct Hin as [<-|Hin]; [reflexivity|]). destruct Hin.
Qed.

(** The loop from any running maximum. *)
Lemma weight_loop (positions : list jsstring) :
  Forall ownName positions ->
  forall m : Q,
  exists q,
    fold_left (fun maxWeight pos => max maxWeight (weightOf pos))
      positions (Num m) = Num q
    /\ (m <= q)%Q
    /\ (forall pos, In pos positions -> (tagWeight pos <= q)%Q)
    /\ ((q == m)%Q \/ exists pos, In pos positions /\ (q == tagWeight pos)%Q).
Proof.
  induction 1 as [|p positions Hp Hrest IH]; intros m; cbn [fold_left].
  - exists m. repeat split; [lra| |left; reflexivity].
    intros pos Hf. destruct Hf.
  - rewrite (weightOf_own p Hp). cbn [max].
    destruct (IH (Qmax m (tagWeight p))) as (q & Eq & Hle & Hall & Hex).
    exists q. split; [exact Eq|].
    pose proof (Q.le_max_l m (tagWeight p)).
    pose proof (Q.le_max_r m (tagWeight p)).
    repeat split.
    + lra.
    + intros pos [<-|Hin]; [lra|auto].
    + destruct Hex as [E|(pos & Hin & E)].
      * destruct (Q.max_spec m (tagWeight p)) as [[_ E']|[_ E']];
          rewrite E' in E; [right; exists p; split; [now left|exact E]
                           |now left].
      * right. exists pos. split; [now right|exact E].
Qed.

(** C8 (as amended): for every list of position tags, none of which is
    a name that the table inherits from [Object.prototype], the
    structural weight is 0 when the list is empty, and otherwise the
    greatest of the weights of its tags, where a tag of the table weighs
    its entry and any other tag weighs 0.5. *)
Theorem calculateStructuralWeight_is_max (positions : list jsstring) :
  Forall ownName positions ->
  exists q,
    calculateStructuralWeight positions = Num q
    /\ (positions = [] -> (q == 0)%Q)
    /\ (positions <> [] ->
        (forall pos, In pos positions -> (tagWeight pos <= q)%Q)
        /\ exists pos, In pos positions /\ (q == tagWeight pos)%Q).
Proof.
  intros Hown. unfold calculateStructuralWeight.
  destruct (weight_loop positions Hown 0%Q) as (q & Eq & Hle & Hall & Hex).
  exists q. split; [exact Eq|]. split.
  - intros ->. cbn in Eq. injection Eq as <-. reflexivity.
  - intros Hne. split; [exact Hall|].
    destruct Hex as [E|Hex]; [|exact Hex].
    destruct positions as [|p rest]; [congruence|].
    pose proof (Hall p (or_introl eq_refl)).
    pose proof (tagWeight_pos p). lra.
Qed.

(** C8 on the tags "footer" and "quote": the weight is 0.5, the weight
    of the tag that the table does not hold. *)
Lemma calculateStructuralWeight_is_max_witness :
  exists q,
    calculateStructuralWeight [str "footer"; str "quote"] = Num q
    /\ (q == 0.5)%Q.
Proof.
  destruct (calculateStructuralWeight_is_max [str "footer"; str "quote"])
    as (q & Eq & _ & H).
  - repeat constructor.
  - exists q. split; [exact Eq|].
    vm_compute in Eq. injection Eq as <-. reflexivity.
Defined.

(** C8 fails as stated: the weight of the empty list is 0, not 0.5; and
    a tag outside the table counts for 0.5 beside the tags of the
    table, so that "footer" with "quote" weighs 0.5 and not 0.1. *)
Lemma calculateStructuralWeight_differs_from_specified :
  calculateStructuralWeight [] = Num 0
  /\ (specifiedWeight [] == 0.5)%Q
  /\ calculateStructuralWeight [str "footer"; str "quote"] = Num 0.5
  /\ (specifiedWeight [str "footer"; str "quote"] == 0.1)%Q
  /\ ~ (0 == 0.5)%Q.
Proof.
  repeat split; try (vm_compute; reflexivity).
  intros H. vm_compute in H. discriminate.
Qed.

(** A name inherited from [Object.prototype] is read as a function, and
    [Math.max] answers [NaN]. *)
Example calculateStructuralWeight_inherited_name :
  calculateStructuralWeight [str "h1"; str "constructor"] = NaN.
Proof. reflexivity. Qed.

End StructuralWeightFacts.

(* ================================================================== *)
(** * Part III: further properties of the same modules *)
(* ================================================================== *)

(** ** [FuzzyMatcher]: the edit distance *)

Module EditDistanceFacts.
Import FuzzyMatcher JsFacts FuzzyFacts.

Lemma lev_nil_r (a : jsstring) : lev a [] = length a.
Proof. destruct a; reflexivity. Qed.

Lemma lev_cons (x y : N) (a b : jsstring) :
  lev (x :: a) (y :: b)
  = if N.eqb x y then lev a b
    else S (Nat.min (Nat.min (lev a (y :: b)) (lev (x :: a) b)) (lev a b)).
Proof. reflexivity. Qed.

Lemma rowFrom_head (ra rp q : jsstring) :
  rowFrom ra rp q = lev ra rp :: tl (rowFrom ra rp q).
Proof. destruct q; reflexivity. Qed.

(** [fillRow] computes the next row of the recurrence. *)
Lemma fillRow_rowFrom (x : N) (ra : jsstring) (q : jsstring) :
  forall rp : jsstring,
    fillRow x q (rowFrom ra rp q) (lev (x :: ra) rp)
    = tl (rowFrom (x :: ra) rp q).
Proof.
  induction q as [|y q IH]; intros rp; [reflexivity|].
  cbn [rowFrom tl].
  rewrite (rowFrom_head ra (y :: rp) q).
  cbn [fillRow]. cbv zeta.
  rewrite <- (rowFrom_head ra (y :: rp) q).
  rewrite <- lev_cons, IH.
  symmetry. apply rowFrom_head.
Qed.

Lemma fillRows_rowFrom (s1 s2 : jsstring) :
  forall ra : jsstring,
    fillRows s1 s2 (length ra) (rowFrom ra [] s2)
    = rowFrom (rev s1 ++ ra) [] s2.
Proof.
  induction s1 as [|x s1 IH]; intros ra; [reflexivity|].
  cbn [fillRows rev]. rewrite <- app_assoc. cbn [app].
  rewrite <- (IH (x :: ra)). cbn [length]. f_equal.
  rewrite (rowFrom_head (x :: ra) [] s2), lev_nil_r. cbn [length].
  f_equal.
  rewrite <- (fillRow_rowFrom x ra s2 []), lev_nil_r. reflexivity.
Qed.

Lemma rowFrom_first (q : jsstring) :
  forall rp : jsstring, rowFrom [] rp q = seq (length rp) (S (length q)).
Proof.
  induction q as [|y q IH]; intros rp; cbn [rowFrom]; [reflexivity|].
  rewrite IH. reflexivity.
Qed.

Lemma rowFrom_last (ra q : jsstring) :
  forall rp : jsstring, last (rowFrom ra rp q) 0%nat = lev ra (rev q ++ rp).
Proof.
  induction q as [|y q IH]; intros rp; [reflexivity|].
  cbn [rowFrom rev]. rewrite <- app_assoc. cbn [app].
  rewrite <- IH. destruct q; reflexivity.
Qed.

Lemma lev_sym (a : jsstring) : forall b : jsstring, lev a b = lev b a.
Proof.
  induction a as [|x a IHa]; intros b.
  - now rewrite lev_nil_r.
  - induction b as [|y b IHb]; [reflexivity|].
    rewrite !lev_cons, (N.eqb_sym y x), (IHa b), (IHa (y :: b)), IHb.
    destruct (N.eqb x y); [reflexivity|].
    f_equal. f_equal. apply Nat.min_comm.
Qed.

Lemma lev_zero (a : jsstring) : forall b : jsstring, lev a b = 0%nat <-> a = b.
Proof.
  induction a as [|x a IH]; intros b.
  - cbn. destruct b; split; (reflexivity || discriminate).
  - destruct b as [|y b]; [split; discriminate|].
    rewrite lev_cons. destruct (N.eqb_spec x y) as [->|Hne].
    + rewrite IH. split; [now intros ->|now intros [= ->]].
    + split; [discriminate|]. intros [= E _]. contradiction.
Qed.

Lemma levenshteinDistance_lev (a b : jsstring) :
  levenshteinDistance a b = lev (rev a) (rev b).
Proof.
  unfold levenshteinDistance.
  pose proof (rowFrom_first b []) as E. cbn [length] in E.
  pose proof (fillRows_rowFrom a b []) as F. cbn [length] in F.
  rewrite <- E, F, rowFrom_last. now rewrite !app_nil_r.
Qed.

Lemma levenshteinDistance_sym (a b : jsstring) :
  levenshteinDistance a b = levenshteinDistance b a.
Proof. rewrite !levenshteinDistance_lev. apply lev_sym. Qed.

(** X1: [levenshteinDistance] computes the edit distance given by the
    recurrence on the last units of the two strings: the table entry
    [dp[m][n]] is [lev] of the strings reversed.  So it is symmetric,
    and it is 0 exactly when the strings are equal. *)
Theorem levenshteinDistance_is_edit_distance (str1 str2 : jsstring) :
  levenshteinDistance str1 str2 = lev (rev str1) (rev str2)
  /\ levenshteinDistance str1 str2 = levenshteinDistance str2 str1
  /\ (levenshteinDistance str1 str2 = 0%nat <-> str1 = str2).
Proof.
  split; [apply levenshteinDistance_lev|]. split.
  - apply levenshteinDistance_sym.
  - rewrite levenshteinDistance_lev, lev_zero. split; [|now intros ->].
    intros E. apply (f_equal (@rev N)) in E. now rewrite !rev_involutive in E.
Qed.

End EditDistanceFacts.

(** ** [FuzzyMatcher]: symmetry and identical strings *)

Module SimilarityFacts.
Import FuzzyMatcher JsFacts FuzzyFacts EditDistanceFacts.

Lemma streq_sym (a : jsstring) : forall b : jsstring, streq a b = streq b a.
Proof.
  induction a as [|x a IH]; intros [|y b]; try reflexivity.
  simpl. now rewrite N.eqb_sym, IH.
Qed.

Lemma ratio_sym (str1 str2 : jsstring) : ratio str1 str2 = ratio str2 str1.
Proof.
  unfold ratio.
  rewrite (orb_comm (isEmpty str2)), (streq_sym str2).
  rewrite (streq_sym (trim (toLowerCase str2))).
  rewrite (Nat.max_comm (length (trim (toLowerCase str2)))).
  rewrite (levenshteinDistance_sym (trim (toLowerCase str1))
             (trim (toLowerCase str2))).
  reflexivity.
Qed.

Lemma partialRatio_sym (str1 str2 : jsstring) :
  partialRatio str1 str2 = partialRatio str2 str1.
Proof.
  unfold partialRatio.
  rewrite (orb_comm (isEmpty str2)).
  rewrite (streq_sym (trim (toLowerCase str2))).
  destruct (isEmpty str1 || isEmpty str2); [reflexivity|].
  destruct (streq _ _); [reflexivity|].
  set (s1 := trim (toLowerCase str1)). set (s2 := trim (toLowerCase str2)).
  destruct (Nat.lt_trichotomy (length s1) (length s2)) as [H|[H|H]].
  - replace (Nat.leb (length s1) (length s2)) with true
      by (symmetry; apply Nat.leb_le; lia).
    replace (Nat.leb (length s2) (length s1)) with false
      by (symmetry; apply Nat.leb_gt; lia).
    reflexivity.
  - replace (Nat.leb (length s1) (length s2)) with true
      by (symmetry; apply Nat.leb_le; lia).
    replace (Nat.leb (length s2) (length s1)) with true
      by (symmetry; apply Nat.leb_le; lia).
    cbv beta iota.
    replace (length s2 - length s1)%nat with 0%nat by lia.
    replace (length s1 - length s2)%nat with 0%nat by lia.
    cbn [seq fold_left]. unfold substring. cbn [skipn Nat.add].
    rewrite !Nat.sub_0_r.
    rewrite (firstn_all2 s2) by lia.
    rewrite (firstn_all2 s1) by lia.
    now rewrite ratio_sym.
  - replace (Nat.leb (length s1) (length s2)) with false
      by (symmetry; apply Nat.leb_gt; lia).
    replace (Nat.leb (length s2) (length s1)) with true
      by (symmetry; apply Nat.leb_le; lia).
    reflexivity.
Qed.

Lemma tokenSortRatio_sym (str1 str2 : jsstring) :
  tokenSortRatio str1 str2 = tokenSortRatio str2 str1.
Proof.
  unfold tokenSortRatio.
  rewrite (orb_comm (isEmpty str2)). now rewrite ratio_sym.
Qed.

Lemma filter_In_both (set1 set2 : list jsstring) (x : jsstring) :
  In x (filter (setHas set2) set1) <-> In x set1 /\ In x set2.
Proof. now rewrite filter_In, setHas_In. Qed.

Lemma intersection_size (set1 set2 : list jsstring) :
  NoDup set1 -> NoDup set2 ->
  length (filter (setHas set2) set1) = length (filter (setHas set1) set2).
Proof.
  intros H1 H2. apply Permutation_length, NoDup_Permutation.
  - now apply NoDup_filter.
  - now apply NoDup_filter.
  - intros x. rewrite !filter_In_both. tauto.
Qed.

Lemma union_size (set1 set2 : list jsstring) :
  length (setOf (set1 ++ set2)) = length (setOf (set2 ++ set1)).
Proof.
  apply Permutation_length, NoDup_Permutation; try apply setOf_NoDup.
  intros x. rewrite !setOf_In, !in_app_iff. tauto.
Qed.

Lemma tokenSetRatio_jaccard (str1 str2 : jsstring) :
  tokenSetRatio str1 str2
  = if isEmpty str1 || isEmpty str2 then 0%Q
    else jaccard (keptTokens (setOf (tokenize str1)))
           (keptTokens (setOf (tokenize str2))).
Proof. reflexivity. Qed.

Lemma keptTokens_NoDup (tokens : list jsstring) :
  NoDup tokens -> NoDup (keptTokens tokens).
Proof.
  intros H. unfold keptTokens.
  destruct (Nat.ltb 0 _); [now apply NoDup_filter|assumption].
Qed.

Lemma keptTokens_nonempty (tokens : list jsstring) :
  tokens <> [] -> keptTokens tokens <> [].
Proof.
  intros H. unfold keptTokens.
  destruct (Nat.ltb 0 (length _)) eqn:E; [|assumption].
  apply Nat.ltb_lt in E. intros E0. rewrite E0 in E. simpl in E. lia.
Qed.

Lemma jaccard_sym (set1 set2 : list jsstring) :
  NoDup set1 -> NoDup set2 -> jaccard set1 set2 = jaccard set2 set1.
Proof.
  intros H1 H2. unfold jaccard.
  now rewrite (union_size set2 set1), (intersection_size set2 set1).
Qed.

Lemma tokenSetRatio_sym (str1 str2 : jsstring) :
  tokenSetRatio str1 str2 = tokenSetRatio str2 str1.
Proof.
  rewrite !tokenSetRatio_jaccard, (orb_comm (isEmpty str2)).
  destruct (isEmpty str1 || isEmpty str2); [reflexivity|].
  apply jaccard_sym; apply keptTokens_NoDup, setOf_NoDup.
Qed.

Lemma companyNameRatio_sym (str1 str2 : jsstring) :
  companyNameRatio str1 str2 = companyNameRatio str2 str1.
Proof.
  unfold companyNameRatio, companyNameRatioWith.
  now rewrite ratio_sym, partialRatio_sym, tokenSortRatio_sym,
    tokenSetRatio_sym.
Qed.

Lemma handleSpecialCases_sym (str1 str2 : jsstring) :
  handleSpecialCases str1 str2 = handleSpecialCases str2 str1.
Proof.
  unfold handleSpecialCases.
  replace (existsb _ abbreviationPairs)
    with (existsb
            (fun p : jsstring * jsstring =>
               let (abbr, full) := p in
               (includes (trim (toLowerCase str2)) abbr
                && includes (trim (toLowerCase str1)) full)
               || (includes (trim (toLowerCase str2)) full
                   && includes (trim (toLowerCase str1)) abbr))
            abbreviationPairs); [reflexivity|].
  induction abbreviationPairs as [|[abbr full] l IH]; [reflexivity|].
  cbn [existsb]. rewrite IH. f_equal.
  rewrite orb_comm. f_equal; apply andb_comm.
Qed.

(** X2: the four similarity functions, the combined company-name ratio
    and the enhanced ratio give the same value when their two strings
    are exchanged; this holds for the partial ratio too. *)
Theorem similarity_symmetric (a b : jsstring) :
  ratio a b = ratio b a
  /\ partialRatio a b = partialRatio b a
  /\ tokenSortRatio a b = tokenSortRatio b a
  /\ tokenSetRatio a b = tokenSetRatio b a
  /\ companyNameRatio a b = companyNameRatio b a
  /\ enhancedCompanyRatio a b = enhancedCompanyRatio b a.
Proof.
  repeat split;
    auto using ratio_sym, partialRatio_sym, tokenSortRatio_sym,
      tokenSetRatio_sym, companyNameRatio_sym.
  unfold enhancedCompanyRatio.
  now rewrite companyNameRatio_sym, handleSpecialCases_sym.
Qed.

(** *** A string compared with itself *)

Lemma isEmpty_false (s : jsstring) : s <> [] -> isEmpty s = false.
Proof. destruct s; [congruence|reflexivity]. Qed.

Lemma ratio_same (s : jsstring) : s <> [] -> ratio s s = 1%Q.
Proof.
  intros H. unfold ratio. now rewrite (isEmpty_false s H), streq_refl.
Qed.

Lemma tokenize_nil : tokenize [] = [].
Proof. reflexivity. Qed.

Lemma insertSorted_In (x y : jsstring) (l : list jsstring) :
  In y (insertSorted strle x l) <-> y = x \/ In y l.
Proof.
  induction l as [|z l IH]; simpl; [intuition|].
  destruct (strle x z); simpl; [intuition|]. rewrite IH. intuition.
Qed.

Lemma sortBy_In (y : jsstring) (l : list jsstring) :
  In y (sortBy strle l) <-> In y l.
Proof.
  induction l as [|x l IH]; simpl; [tauto|].
  rewrite insertSorted_In, IH. intuition.
Qed.

Lemma joinSpace_nonempty (l : list jsstring) :
  l <> [] -> (forall t, In t l -> t <> []) -> joinSpace l <> [].
Proof.
  destruct l as [|a l]; [congruence|]. intros _ H.
  assert (a <> []) as Ha by (apply H; now left).
  destruct a as [|c a]; [congruence|].
  destruct l; discriminate.
Qed.

Lemma tokenize_tokens (s t : jsstring) : In t (tokenize s) -> t <> [].
Proof.
  unfold tokenize. rewrite filter_In. intros [_ H] ->. discriminate.
Qed.

Lemma filter_setHas_self (s : list jsstring) : filter (setHas s) s = s.
Proof.
  assert (forall l, (forall x, In x l -> In x s) -> filter (setHas s) l = l)
    as H.
  { induction l as [|x l IH]; intros Hl; [reflexivity|]. simpl.
    replace (setHas s x) with true
      by (symmetry; apply setHas_In, Hl; now left).
    f_equal. apply IH. intros y Hy. apply Hl. now right. }
  apply H. auto.
Qed.

Lemma setOf_self (s : list jsstring) :
  NoDup s -> length (setOf (s ++ s)) = length s.
Proof.
  intros H. apply Permutation_length, NoDup_Permutation;
    [apply setOf_NoDup|assumption|].
  intros x. rewrite setOf_In, in_app_iff. tauto.
Qed.

Lemma jaccard_same (set1 : list jsstring) :
  NoDup set1 -> set1 <> [] -> (jaccard set1 set1 == 1)%Q.
Proof.
  intros Hn Hne. unfold jaccard.
  rewrite filter_setHas_self, (setOf_self set1 Hn).
  destruct set1 as [|t r]; [congruence|].
  cbn [length Nat.eqb].
  unfold Qdiv. apply Qmult_inv_r. intros E.
  pose proof (ofNat_pos (S (length r)) (Nat.lt_0_succ _)). lra.
Qed.

Lemma tokenSetRatio_same (s : jsstring) :
  tokenize s <> [] -> (tokenSetRatio s s == 1)%Q.
Proof.
  intros Ht.
  assert (s <> []) as Hs by (intros ->; now apply Ht).
  rewrite tokenSetRatio_jaccard, (isEmpty_false s Hs). cbn [orb].
  apply jaccard_same.
  - apply keptTokens_NoDup, setOf_NoDup.
  - now apply keptTokens_nonempty, ScorerFacts.setOf_nonempty.
Qed.

(** X3: a string with at least one token gets the ratio 1 with itself,
    from the combined and from the enhanced ratio.  A string without
    token does not: its sorted-token text is empty, and the token-sort
    ratio of two empty texts is 0. *)
Theorem companyNameRatio_same (s : jsstring) :
  tokenize s <> [] ->
  (companyNameRatio s s == 1)%Q /\ (enhancedCompanyRatio s s == 1)%Q.
Proof.
  intros Ht.
  assert (s <> []) as Hs by (intros ->; now apply Ht).
  assert (companyNameRatio s s == 1)%Q as H.
  { unfold companyNameRatio, companyNameRatioWith, defaultWeights.
    cbn [fold_left fst snd w_ratio w_partial w_tokenSort w_tokenSet].
    rewrite (ratio_same s Hs).
    assert (partialRatio s s = 1%Q) as ->.
    { unfold partialRatio.
      now rewrite (isEmpty_false s Hs), streq_refl. }
    assert (tokenSortRatio s s = 1%Q) as ->.
    { unfold tokenSortRatio. rewrite (isEmpty_false s Hs). cbn [orb].
      apply ratio_same, joinSpace_nonempty.
      - intros E. apply Ht.
        destruct (tokenize s) as [|t r]; [reflexivity|].
        assert (In t (sortBy strle (t :: r))) as Hin
          by (apply (proj2 (sortBy_In _ _)); now left).
        rewrite E in Hin. destruct Hin.
      - intros t Hin. apply (proj1 (sortBy_In _ _)) in Hin.
        now apply tokenize_tokens in Hin. }
    pose proof (tokenSetRatio_same s Ht) as E.
    destruct (Qlt_le_dec 0 _) as [Hpos|Hneg]; [|exfalso; lra].
    apply Qle_antisym;
      [apply Qle_shift_div_r|apply Qle_shift_div_l]; try assumption; lra. }
  split; [exact H|].
  unfold enhancedCompanyRatio.
  pose proof (handleSpecialCases_bonus s s) as Hb.
  destruct (Q.min_spec 1 (companyNameRatio s s + handleSpecialCases s s))
    as [[Hlt E]|[Hle E]]; rewrite E; lra.
Qed.

(** X3 on "Apple Inc": one string with tokens. *)
Lemma companyNameRatio_same_witness :
  (companyNameRatio (str "Apple Inc") (str "Apple Inc") == 1)%Q.
Proof.
  apply (companyNameRatio_same (str "Apple Inc")).
  vm_compute. discriminate.
Defined.

(** A string without token: "&" compared with itself gets 0.7. *)
Example companyNameRatio_ampersand :
  (companyNameRatio (str "&") (str "&") == 0.7)%Q.
Proof. vm_compute. reflexivity. Qed.

End SimilarityFacts.

(** ** [FuzzyMatcher]: ranking of candidates *)

Module ExtractFacts.
Import FuzzyMatcher JsFacts FuzzyFacts RankingFacts.

Lemma firstn_incl {A : Type} (n : nat) :
  forall (l : list A) (x : A), In x (firstn n l) -> In x l.
Proof.
  induction n as [|n IH]; intros [|y l] x; simpl; try tauto.
  intros [<-|H]; [now left|right; auto].
Qed.

Lemma StronglySorted_firstn {A : Type} (R : A -> A -> Prop) (n : nat) :
  forall l : list A, StronglySorted R l -> StronglySorted R (firstn n l).
Proof.
  induction n as [|n IH]; intros l H; [constructor|].
  destruct l as [|x l]; [constructor|]. cbn [firstn].
  apply StronglySorted_inv in H as [Hs Hall]. constructor; [auto|].
  rewrite Forall_forall in *. intros y Hy. apply Hall.
  eapply firstn_incl, Hy.
Qed.

Lemma StronglySorted_map {A B : Type} (R : B -> B -> Prop) (f : A -> B)
  (l : list A) :
  StronglySorted (fun a b => R (f a) (f b)) l -> StronglySorted R (map f l).
Proof.
  induction 1 as [|x l Hs IH Hall]; cbn [map]; constructor; [assumption|].
  rewrite Forall_forall in *. intros y Hy.
  apply in_map_iff in Hy as (z & <- & Hz). auto.
Qed.

Lemma byScore_total (a b : jsstring * Q) :
  byScore a b = false -> byScore b a = true.
Proof.
  unfold byScore. intros H. apply ScorerFacts.Qle_bool_false in H.
  apply Qle_bool_iff. lra.
Qed.

Lemma sorted_by_score (l : list (jsstring * Q)) :
  StronglySorted (fun a b => (snd b <= snd a)%Q) (sortBy byScore l).
Proof.
  apply Sorted_StronglySorted.
  - intros a b c Hab Hbc. lra.
  - pose proof (sortBy_sorted _ byScore byScore_total l) as H.
    induction H as [|x r Hr IH Hhd]; constructor; [assumption|].
    destruct Hhd as [|y r' Hxy]; constructor.
    unfold inOrder, byScore in Hxy. apply Qle_bool_iff in Hxy. lra.
Qed.

Lemma extractBest_unfold (query : jsstring) (choices : list jsstring)
  (limit : nat) (scorer : option (jsstring -> jsstring -> Q)) :
  extractBest query choices limit scorer
  = if isEmpty query || Nat.eqb (length choices) 0 then []
    else
      map (fun item =>
             {| m_match := fst item; m_score := snd item;
                m_confidence := scoreToConfidence (snd item) |})
        (firstn limit
           (sortBy byScore
              (map (fun choice => (choice, scorerOf scorer query choice))
                 choices))).
Proof. unfold extractBest. destruct scorer; reflexivity. Qed.

(** X4: [extractBest] answers at most [limit] candidates, each one of
    the choices with its own score, in the order of decreasing score;
    and the candidate that [extractOne] answers has a score that no
    choice exceeds.  [extractOne] answers nothing exactly when the query
    or the list of choices is empty. *)
Theorem extractBest_ranked (query : jsstring) (choices : list jsstring)
  (limit : nat) (scorer : option (jsstring -> jsstring -> Q)) :
  (length (extractBest query choices limit scorer) <= limit)%nat
  /\ (forall m, In m (extractBest query choices limit scorer) ->
                In (m_match m) choices
                /\ m_score m = scorerOf scorer query (m_match m))
  /\ StronglySorted (fun a b => (m_score b <= m_score a)%Q)
       (extractBest query choices limit scorer)
  /\ (forall best, extractOne query choices scorer = Some best ->
        forall choice, In choice choices ->
                       (scorerOf scorer query choice <= m_score best)%Q)
  /\ (extractOne query choices scorer = None
      <-> query = [] \/ choices = []).
Proof.
  assert (forall n m,
            In m (extractBest query choices n scorer) ->
            In (m_match m) choices
            /\ m_score m = scorerOf scorer query (m_match m)) as Hin.
  { intros n m. rewrite extractBest_unfold.
    destruct (isEmpty query || _); [intros []|].
    intros H. apply in_map_iff in H as ([c q] & <- & H).
    apply firstn_incl in H.
    apply (Permutation_in _ (Permutation_sym (sortBy_perm _ byScore _))) in H.
    apply in_map_iff in H as (c' & [= <- <-] & Hc). cbn. auto. }
  split; [|split; [apply Hin|split; [|split]]].
  - rewrite extractBest_unfold.
    destruct (isEmpty query || _); cbn [length]; [lia|].
    rewrite length_map. apply firstn_le_length.
  - rewrite extractBest_unfold.
    destruct (isEmpty query || _); [constructor|].
    apply StronglySorted_map. cbn [m_score].
    apply StronglySorted_firstn, sorted_by_score.
  - unfold extractOne. rewrite extractBest_unfold.
    destruct (isEmpty query || _); [discriminate|].
    pose proof (sorted_by_score
                  (map (fun choice => (choice, scorerOf scorer query choice))
                     choices)) as Hs.
    pose proof (sortBy_perm _ byScore
                  (map (fun choice => (choice, scorerOf scorer query choice))
                     choices)) as Hp.
    destruct (sortBy byScore _) as [|[c q] rest]; [discriminate|].
    cbn [firstn map fst snd]. intros best [= <-] choice Hc. cbn [m_score].
    apply StronglySorted_inv in Hs as [_ Hall].
    rewrite Forall_forall in Hall.
    assert (In (choice, scorerOf scorer query choice) ((c, q) :: rest))
      as [E|Hr].
    { apply (Permutation_in _ Hp), in_map_iff. now exists choice. }
    + injection E as _ <-. lra.
    + apply (Hall _ Hr).
  - unfold extractOne. rewrite extractBest_unfold.
    destruct query as [|c query]; cbn [isEmpty orb]; [tauto|].
    destruct choices as [|choice choices]; cbn [length Nat.eqb]; [tauto|].
    pose proof (sortBy_perm _ byScore
                  (map (fun ch => (ch, scorerOf scorer (c :: query) ch))
                     (choice :: choices))) as Hp.
    destruct (sortBy byScore _) as [|[c' q] rest].
    + apply Permutation_sym, Permutation_nil in Hp. discriminate.
    + cbn [firstn map]. split; [discriminate|].
      intros [H|H]; discriminate.
Qed.

End ExtractFacts.

(** ** [CompanyNormalizer]: the normalized form, suffixes, variations *)

Module NormalizerMoreFacts.
Import CompanyNormalizer JsFacts NormalizerFacts FuzzyFacts SimilarityFacts.

(** X5: the text that [normalize] returns holds no comma and no
    semicolon, does not begin or end with white space, and holds no
    white space but single spaces between other units. *)
Theorem normalize_tidy (x : jsstring) :
  Forall plain (normalize x)
  /\ trim (normalize x) = normalize x
  /\ collapseSpaces (normalize x) = normalize x.
Proof.
  destruct (normalize_cases x) as [->|[(full & E & ->)|(E & ->)]].
  - repeat split. constructor.
  - apply expansionOf_in in E. vm_compute in E.
    repeat (destruct E as [<-|E];
            [repeat split; [|vm_compute; reflexivity..];
             apply Forall_forall; intros c Hc; vm_compute in Hc;
             repeat (destruct Hc as [<-|Hc]; [reflexivity|]); destruct Hc|]).
    destruct E.
  - split; [apply stripped_plain|]. unfold stripped.
    split; [apply trim_fixed|apply collapse_trim_fixed].
Qed.

(** *** Suffixes found and suffixes removed *)

Lemma removed_and_found (s : jsstring) :
  forall (prev : option N) (skip : nat),
    (length (removeFrom prev skip s) + totalLength (matchesFrom prev skip s)
     + Nat.min skip (length s))%nat
    = length s.
Proof.
  induction s as [|c s IH]; intros prev skip.
  - cbn. lia.
  - cbn [removeFrom matchesFrom]. destruct skip as [|k].
    + destruct (matchAt prev (c :: s)) as [[|k]|].
      * cbn [length]. specialize (IH (Some c) 0%nat). cbn in IH |- *. lia.
      * cbn [totalLength fold_right]. fold (totalLength (matchesFrom (Some c) k s)).
        rewrite length_firstn. specialize (IH (Some c) k).
        cbn [length] in *. lia.
      * cbn [length]. specialize (IH (Some c) 0%nat). cbn in IH |- *. lia.
    + specialize (IH (Some c) k). cbn [length]. lia.
Qed.

Lemma matches_nonempty (s : jsstring) :
  forall (prev : option N) (skip : nat) (m : jsstring),
    In m (matchesFrom prev skip s) -> m <> [].
Proof.
  induction s as [|c s IH]; intros prev skip m; [intros []|].
  cbn [matchesFrom]. destruct skip as [|k]; [|apply IH].
  destruct (matchAt prev (c :: s)) as [[|k]|]; try apply IH.
  intros [<-|H]; [discriminate|]. eapply IH, H.
Qed.

Lemma totalLength_zero (l : list jsstring) :
  (forall m, In m l -> m <> []) -> totalLength l = 0%nat -> l = [].
Proof.
  destruct l as [|m l]; [reflexivity|]. intros H E.
  assert (m <> []) as Hm by (apply H; now left).
  destruct m; [congruence|]. discriminate.
Qed.

Lemma no_match_unchanged (s : jsstring) :
  forall prev : option N,
    matchesFrom prev 0 s = [] -> removeFrom prev 0 s = s.
Proof.
  induction s as [|c s IH]; intros prev; [reflexivity|].
  cbn [matchesFrom removeFrom].
  destruct (matchAt prev (c :: s)) as [[|k]|]; try discriminate;
    intros H; f_equal; now apply IH.
Qed.

(** What a match of the pattern is: the text of a suffix of the table,
    up to the case of its units. *)
Lemma matchSuffix_text (p : jsstring) :
  forall (prev : option N) (s : jsstring),
    matchSuffix p prev s = true ->
    map canonicalize (firstn (length p) s) = map canonicalize p
    /\ length (firstn (length p) s) = length p.
Proof.
  induction p as [|x p IH]; intros prev s H; [split; reflexivity|].
  destruct s as [|y s]; [discriminate|]. cbn [matchSuffix] in H.
  apply andb_true_iff in H as [Hxy H]. apply N.eqb_eq in Hxy.
  destruct (IH (Some y) s H) as [E L].
  cbn [length firstn map]. split; [now rewrite E, Hxy|now rewrite L].
Qed.

Lemma sortedSuffixes_table (p : jsstring) :
  In p sortedSuffixes -> In p allSuffixes.
Proof.
  intros H.
  assert (forallb (setHas allSuffixes) sortedSuffixes = true) as Hall
    by (vm_compute; reflexivity).
  rewrite forallb_forall in Hall. now apply setHas_In, Hall.
Qed.

Lemma matches_from_table (s : jsstring) :
  forall (prev : option N) (skip : nat) (m : jsstring),
    In m (matchesFrom prev skip s) ->
    exists p, In p allSuffixes /\ map canonicalize m = map canonicalize p.
Proof.
  induction s as [|c s IH]; intros prev skip m; [intros []|].
  cbn [matchesFrom]. destruct skip as [|k]; [|apply IH].
  destruct (matchAt prev (c :: s)) as [[|k]|] eqn:E; try apply IH.
  intros [<-|H]; [|eapply IH, H].
  unfold matchAt in E. destruct (wordBoundary _ _); [|discriminate].
  destruct (find _ sortedSuffixes) as [p|] eqn:F; [|discriminate].
  apply find_some in F as [Hp Hm]. injection E as E.
  exists p. split; [now apply sortedSuffixes_table|].
  rewrite <- E. now apply (matchSuffix_text p prev (c :: s)).
Qed.

Lemma fold_setAdd_NoDup {A : Type} (f : A -> option jsstring) (l : list A) :
  forall acc : list jsstring,
    NoDup acc ->
    NoDup (fold_left
             (fun types a =>
                match f a with
                | Some t => setAdd types t
                | None => types
                end) l acc).
Proof.
  induction l as [|a l IH]; intros acc H; [assumption|].
  cbn [fold_left]. apply IH.
  destruct (f a); [now apply setAdd_NoDup|assumption].
Qed.

(** X6: the suffixes that [getSuffixes] lists are the pieces that
    [normalize] removes with the suffix pattern: their lengths and the
    length of what is left add up to the length of the name; each of
    them is the text of a suffix of the table, up to case; none is
    found exactly when the removal changes nothing.  [getType] lists no
    legal form twice. *)
Theorem getSuffixes_accounts_for_removal (companyName : jsstring) :
  (length (removeSuffixes companyName)
   + totalLength (getSuffixes companyName))%nat
  = length companyName
  /\ (forall m, In m (getSuffixes companyName) ->
        m <> []
        /\ exists p, In p allSuffixes
                     /\ map canonicalize m = map canonicalize p)
  /\ (getSuffixes companyName = []
      <-> removeSuffixes companyName = companyName)
  /\ NoDup (getType companyName).
Proof.
  pose proof (removed_and_found companyName None 0%nat) as H.
  cbn [Nat.min] in H. rewrite Nat.add_0_r in H.
  split; [exact H|]. split; [|split].
  - intros m Hm. split; [eapply matches_nonempty, Hm|].
    eapply matches_from_table, Hm.
  - split; [apply no_match_unchanged|].
    unfold removeSuffixes, getSuffixes in *. intros E. rewrite E in H.
    apply totalLength_zero; [apply matches_nonempty|lia].
  - apply fold_setAdd_NoDup. constructor.
Qed.

(** *** Variations *)

Lemma sameNames_eq (l : list jsstring) :
  forall l' : list jsstring, sameNames l l' = true -> l = l'.
Proof.
  induction l as [|x l IH]; intros [|y l']; try discriminate;
    [reflexivity|].
  cbn [sameNames]. intros H. apply andb_true_iff in H as [Hx Hl].
  apply streq_eq in Hx. apply IH in Hl. now subst.
Qed.

Lemma entries_disjoint (e1 e2 : jsstring * list jsstring) (x : jsstring) :
  In e1 variations -> In e2 variations ->
  setHas (allNames e1) x = true -> setHas (allNames e2) x = true ->
  allNames e1 = allNames e2.
Proof.
  intros H1 H2 Hx1 Hx2.
  assert (entriesDisjoint = true) as D by (vm_compute; reflexivity).
  unfold entriesDisjoint in D. rewrite forallb_forall in D.
  specialize (D e1 H1). rewrite forallb_forall in D. specialize (D e2 H2).
  apply orb_true_iff in D as [D|D]; [now apply sameNames_eq|].
  rewrite forallb_forall in D. apply setHas_In in Hx1.
  specialize (D x Hx1). rewrite Hx2 in D. discriminate.
Qed.

(** X7: [isVariation] is an equivalence on names: every name is a
    variation of itself, the order of the two names does not matter,
    and two names that are variations of a third are variations of each
    other. *)
Theorem isVariation_equivalence (a b c : jsstring) :
  isVariation a a = true
  /\ isVariation a b = isVariation b a
  /\ (isVariation a b = true -> isVariation b c = true ->
      isVariation a c = true).
Proof.
  unfold isVariation. cbv zeta.
  set (na := toLowerCase (normalize a)).
  set (nb := toLowerCase (normalize b)).
  set (nc := toLowerCase (normalize c)).
  split; [now rewrite streq_refl|]. split.
  - rewrite (streq_sym nb na). f_equal.
    induction variations as [|e l IH]; [reflexivity|].
    cbn [existsb]. now rewrite IH, andb_comm.
  - intros Hab Hbc.
    apply orb_true_iff in Hab as [Hab|Hab].
    { apply streq_eq in Hab. now rewrite Hab. }
    apply orb_true_iff in Hbc as [Hbc|Hbc].
    { apply streq_eq in Hbc. rewrite <- Hbc.
      apply orb_true_iff. now right. }
    apply orb_true_iff. right.
    apply existsb_exists in Hab as (e1 & H1 & Hab).
    apply existsb_exists in Hbc as (e2 & H2 & Hbc).
    apply andb_true_iff in Hab as [Ha Hb].
    apply andb_true_iff in Hbc as [Hb' Hc].
    apply existsb_exists. exists e1. split; [assumption|].
    change (fst e1 :: snd e1) with (allNames e1) in *.
    change (fst e2 :: snd e2) with (allNames e2) in *.
    rewrite (entries_disjoint e1 e2 nb H1 H2 Hb Hb') in *.
    now rewrite Ha, Hc.
Qed.

(** X7 on three names of one company. *)
Lemma isVariation_equivalence_witness :
  isVariation (str "Google") (str "Alphabet") = true.
Proof.
  apply (isVariation_equivalence (str "Google") (str "google") (str "Alphabet"));
    vm_compute; reflexivity.
Defined.

End NormalizerMoreFacts.

(** ** [SecureNLPProcessor]: input, cache key, cache and statistics *)

Module ProcessorFacts.
Import SecureNLPProcessor JsFacts FuzzyFacts KnowledgeBaseFacts ScorerFacts
  CacheFacts.

(** *** [sanitizeInput] *)

Lemma trimStart_length (s : jsstring) : (length (trimStart s) <= length s)%nat.
Proof.
  induction s as [|c s IH]; [reflexivity|]. cbn [trimStart].
  destruct (isSpace c); cbn [length]; lia.
Qed.

Lemma trimEnd_length (s : jsstring) : (length (trimEnd s) <= length s)%nat.
Proof.
  induction s as [|c s IH]; [reflexivity|]. cbn [trimEnd].
  destruct (trimEnd s); [destruct (isSpace c)|]; cbn [length] in *; lia.
Qed.

Lemma trim_length (s : jsstring) : (length (trim s) <= length s)%nat.
Proof.
  unfold trim. pose proof (trimEnd_length (trimStart s)).
  pose proof (trimStart_length s). lia.
Qed.

Lemma filter_length {A : Type} (f : A -> bool) (l : list A) :
  (length (filter f l) <= length l)%nat.
Proof.
  induction l as [|a l IH]; [reflexivity|]. cbn [filter].
  destruct (f a); cbn [length]; lia.
Qed.

Lemma sanitizeInput_length (text : jsstring) :
  (length (sanitizeInput text) <= maxInputLength)%nat.
Proof.
  unfold sanitizeInput. cbv zeta.
  set (cut := if Nat.ltb maxInputLength (length text)
              then firstn maxInputLength text else text).
  assert (length cut <= maxInputLength)%nat as Hcut.
  { subst cut. destruct (Nat.ltb_spec maxInputLength (length text));
      [rewrite length_firstn; lia|lia]. }
  eapply Nat.le_trans; [apply trim_length|].
  eapply Nat.le_trans; [apply collapseFrom_length|].
  eapply Nat.le_trans; [apply filter_length|].
  eapply Nat.le_trans; [apply filter_length|exact Hcut].
Qed.

Lemma sanitizeInput_safe (text : jsstring) :
  Forall safeUnit (sanitizeInput text).
Proof.
  unfold sanitizeInput, trim. cbv zeta.
  apply Forall_trimEnd, Forall_trimStart, Forall_collapseFrom.
  { repeat split; discriminate. }
  apply Forall_forall. intros c Hc.
  apply filter_In in Hc as [Hc Hcontrol].
  apply filter_In in Hc as [_ Hangle].
  apply negb_true_iff in Hcontrol. apply negb_true_iff in Hangle.
  apply orb_false_iff in Hangle as [H60 H62].
  apply N.eqb_neq in H60. apply N.eqb_neq in H62. now repeat split.
Qed.

(** X8: whatever the text, [sanitizeInput] answers at most 1000 units,
    none of them an angle bracket or a control character; and
    sanitizing a sanitized text changes nothing. *)
Theorem sanitizeInput_safe_and_idempotent (text : jsstring) :
  (length (sanitizeInput text) <= 1000)%nat
  /\ Forall safeUnit (sanitizeInput text)
  /\ sanitizeInput (sanitizeInput text) = sanitizeInput text.
Proof.
  split; [apply sanitizeInput_length|]. split; [apply sanitizeInput_safe|].
  pose proof (sanitizeInput_length text) as Hlen.
  pose proof (sanitizeInput_safe text) as Hsafe.
  unfold sanitizeInput at 1. cbv zeta.
  destruct (Nat.ltb_spec maxInputLength (length (sanitizeInput text)));
    [lia|].
  rewrite (filter_all _ (sanitizeInput text)).
  2:{ eapply Forall_impl; [|exact Hsafe]. intros c (H60 & H62 & _).
      apply negb_true_iff, orb_false_iff. split; now apply N.eqb_neq. }
  rewrite (filter_all _ (sanitizeInput text)).
  2:{ eapply Forall_impl; [|exact Hsafe]. intros c (_ & _ & Hc).
      now rewrite Hc. }
  unfold sanitizeInput. cbv zeta.
  now rewrite collapse_trim_fixed, trim_fixed.
Qed.

(** *** [generateCacheKey] *)

Lemma toInt32_shift (z : Z) : exists k : Z, toInt32 z = (z + k * 4294967296)%Z.
Proof.
  unfold toInt32. exists (- ((z + 2147483648) / 4294967296))%Z.
  pose proof (Z.div_mod (z + 2147483648) 4294967296). lia.
Qed.

Lemma toInt32_same (x y k : Z) :
  x = (y + k * 4294967296)%Z -> toInt32 x = toInt32 y.
Proof.
  intros ->. unfold toInt32.
  replace (y + k * 4294967296 + 2147483648)%Z
    with (y + 2147483648 + k * 4294967296)%Z by lia.
  now rewrite Z_mod_plus_full.
Qed.

Lemma toInt32_range (z : Z) :
  (- 2147483648 <= toInt32 z < 2147483648)%Z.
Proof.
  unfold toInt32.
  pose proof (Z.mod_pos_bound (z + 2147483648) 4294967296). lia.
Qed.

Lemma hashStep_horner (a : Z) (c : N) :
  hashStep (toInt32 a) c = toInt32 (31 * a + Z.of_N c).
Proof.
  unfold hashStep. cbv zeta. rewrite Z.land_diag, Z.shiftl_mul_pow2 by lia.
  change (2 ^ 5)%Z with 32%Z.
  set (h := toInt32 a).
  destruct (toInt32_shift a) as [k1 E1]. fold h in E1.
  destruct (toInt32_shift h) as [k2 E2].
  destruct (toInt32_shift (toInt32 h * 32)) as [k3 E3].
  set (x := (toInt32 (toInt32 h * 32) - h + Z.of_N c)%Z).
  destruct (toInt32_shift x) as [k4 E4].
  rewrite (toInt32_same (toInt32 x) x k4 E4).
  apply (toInt32_same _ _ (k3 + 32 * k2 + 31 * k1)%Z).
  subst x. lia.
Qed.

Lemma hash_horner (text : jsstring) :
  forall a : Z,
    fold_left hashStep text (toInt32 a)
    = toInt32 (fold_left (fun h c => (31 * h + Z.of_N c)%Z) text a).
Proof.
  induction text as [|c text IH]; intros a; [reflexivity|].
  cbn [fold_left]. now rewrite hashStep_horner, IH.
Qed.

(** X9: the number in the cache key is the absolute value of the
    polynomial in 31 of the first 100 units of the text, wrapped to 32
    bits with sign; it lies between 0 and 2^31. *)
Theorem generateCacheKey_polynomial (text : jsstring) :
  let n := Z.abs (toInt32 (polynomial (firstn 100 text))) in
  generateCacheKey text = keyOf n /\ (0 <= n <= 2147483648)%Z.
Proof.
  cbv zeta. split.
  - unfold generateCacheKey, keyOf, polynomial. cbv zeta.
    rewrite firstn_min_length.
    change 0%Z with (toInt32 0) at 1. now rewrite hash_horner.
  - pose proof (toInt32_range (polynomial (firstn 100 text))). lia.
Qed.

(** *** The size of the cache *)

Lemma mapSet_length {V : Type} (m : list (jsstring * V)) (k : jsstring)
  (v : V) :
  (length (JsValue.mapSet streq m k v) <= S (length m))%nat.
Proof.
  induction m as [|[k' v'] m IH]; [reflexivity|]. cbn [JsValue.mapSet].
  destruct (streq k' k); cbn [length] in *; lia.
Qed.

Lemma mapDelete_length {V : Type} (m : list (jsstring * V)) (k : jsstring) :
  (length (JsValue.mapDelete streq m k) <= length m)%nat.
Proof.
  induction m as [|[k' v'] m IH]; [reflexivity|]. cbn [JsValue.mapDelete].
  destruct (streq k' k); cbn [length] in *; lia.
Qed.

Lemma mapSet_absent {V : Type} (m : list (jsstring * V)) (k : jsstring)
  (v : V) :
  ~ In k (map fst m) -> JsValue.mapSet streq m k v = m ++ [(k, v)].
Proof.
  induction m as [|[k' v'] m IH]; intros H; [reflexivity|].
  cbn [JsValue.mapSet]. destruct (streq k' k) eqn:E.
  - apply streq_eq in E. subst. exfalso. apply H. now left.
  - cbn [app]. f_equal. apply IH. intros Hin. apply H. now right.
Qed.

Lemma cacheResults_length (now : Z) (key : jsstring) (results : Result)
  (cache : list (jsstring * CacheEntry)) :
  (length cache <= 1001)%nat ->
  (length (cacheResults now key results cache) <= 1001)%nat.
Proof.
  intros H. unfold cacheResults. cbv zeta.
  destruct (Nat.ltb_spec 1000 (length cache)) as [Hfull|Hroom].
  - destruct cache as [|[firstKey entry] cache]; [cbn in Hfull; lia|].
    cbn [JsValue.mapDelete]. rewrite streq_refl.
    eapply Nat.le_trans; [apply mapSet_length|]. cbn [length] in H. lia.
  - eapply Nat.le_trans; [apply mapSet_length|]. lia.
Qed.

Lemma checkCache_length (now : Z) (key : jsstring)
  (cache : list (jsstring * CacheEntry)) :
  (length (snd (checkCache now key cache)) <= length cache)%nat.
Proof.
  unfold checkCache. destruct (JsValue.mapGet streq cache key) as [cached|];
    [|reflexivity].
  destruct (Z.ltb _ _); cbn [snd]; [reflexivity|apply mapDelete_length].
Qed.

Section Capacity.
Variable extractAndValidate : jsstring -> jsstring + Result.

(** X10: a cache of at most 1001 entries stays within 1001 entries at
    every call of [extractEntities]; and when a key that the cache does
    not hold is stored in a cache of more than 1000 entries, the entry
    stored first leaves and the new one is the last. *)
Theorem cache_bounded
  (nowRead nowWrite : Z) (elapsed : Q) (text : jsstring) (s : state) :
  (length (entityCache s) <= 1001)%nat ->
  (length
     (entityCache
        (snd (extractEntities extractAndValidate nowRead nowWrite elapsed
                text s))) <= 1001)%nat
  /\ forall (key : jsstring) (results : Result),
       (1000 < length (entityCache s))%nat ->
       ~ In key (map fst (tl (entityCache s))) ->
       cacheResults nowWrite key results (entityCache s)
       = tl (entityCache s)
           ++ [(key, {| data := results; timestamp := nowWrite |})].
Proof.
  intros H. split.
  - unfold extractEntities. cbv zeta.
    destruct (sanitizeInput text) as [|c sanitized]; [exact H|].
    pose proof (checkCache_length nowRead (generateCacheKey (c :: sanitized))
                  (entityCache s)) as Hread.
    destruct (checkCache nowRead (generateCacheKey (c :: sanitized))
                (entityCache s)) as [cached cache1].
    cbn [snd] in Hread.
    destruct cached as [r|]; [cbn [snd entityCache]; lia|].
    destruct (extractAndValidate (c :: sanitized));
      cbn [snd entityCache]; [lia|].
    apply cacheResults_length. lia.
  - intros key results Hfull Habsent. unfold cacheResults. cbv zeta.
    destruct (Nat.ltb_spec 1000 (length (entityCache s))); [|lia].
    destruct (entityCache s) as [|[firstKey entry] cache];
      [cbn in Hfull; lia|].
    cbn [JsValue.mapDelete tl] in *. rewrite streq_refl.
    now apply mapSet_absent.
Qed.

End Capacity.

(** X10 on the first call of a processor. *)
Lemma cache_bounded_witness :
  (length
     (entityCache
        (snd (extractEntities echo 0 0 0 (str "Apple Inc.") emptyState)))
   <= 1001)%nat.
Proof.
  apply (cache_bounded echo 0 0 0 (str "Apple Inc.") emptyState).
  cbn. lia.
Defined.

(** *** The running mean of the processing times *)

Lemma updatePerformanceStats_mean (t : Q) (s : Stats) :
  (averageTime (updatePerformanceStats t s)
   * FuzzyMatcher.ofNat (totalProcessed (updatePerformanceStats t s))
   == averageTime s * FuzzyMatcher.ofNat (totalProcessed s) + t)%Q.
Proof.
  unfold updatePerformanceStats. cbv zeta. cbn [averageTime totalProcessed].
  rewrite Nat.sub_1_r. cbn [Nat.pred].
  assert (0 < FuzzyMatcher.ofNat (S (totalProcessed s)))%Q as Hpos
    by (apply ofNat_pos; lia).
  field. intros E. rewrite E in Hpos. now apply Qlt_irrefl in Hpos.
Qed.

Lemma afterTimes_mean (times : list Q) :
  forall s : Stats,
    totalProcessed (afterTimes times s)
    = (totalProcessed s + length times)%nat
    /\ cacheHits (afterTimes times s) = cacheHits s
    /\ (averageTime (afterTimes times s)
        * FuzzyMatcher.ofNat (totalProcessed (afterTimes times s))
        == averageTime s * FuzzyMatcher.ofNat (totalProcessed s)
           + sumOf times)%Q.
Proof.
  induction times as [|t times IH]; intros s.
  - cbn. split; [lia|]. split; [reflexivity|ring].
  - unfold afterTimes in *. cbn [fold_left sumOf fold_right length].
    destruct (IH (updatePerformanceStats t s)) as (Hn & Hh & Hm).
    split; [rewrite Hn; cbn; lia|]. split; [rewrite Hh; reflexivity|].
    rewrite Hm, updatePerformanceStats_mean.
    fold (sumOf times). ring.
Qed.

(** X11: from statistics that count no text yet, after the processing
    times [times] the count is their number and [averageTime] is their
    arithmetic mean; the count of cache hits does not move. *)
Theorem averageTime_is_mean (times : list Q) (s : Stats) :
  totalProcessed s = 0%nat -> times <> [] ->
  totalProcessed (afterTimes times s) = length times
  /\ cacheHits (afterTimes times s) = cacheHits s
  /\ (averageTime (afterTimes times s)
      == sumOf times / FuzzyMatcher.ofNat (length times))%Q.
Proof.
  intros Hzero Hne.
  destruct (afterTimes_mean times s) as (Hn & Hh & Hm).
  rewrite Hzero in Hn, Hm. cbn [Nat.add] in Hn.
  split; [exact Hn|]. split; [exact Hh|].
  rewrite Hn in Hm.
  assert (0 < FuzzyMatcher.ofNat (length times))%Q as Hpos.
  { apply ofNat_pos. destruct times; [congruence|cbn; lia]. }
  change (FuzzyMatcher.ofNat 0) with 0%Q in Hm.
  assert (sumOf times
          == averageTime (afterTimes times s)
             * FuzzyMatcher.ofNat (length times))%Q as ->
    by (rewrite Hm; ring).
  field. intros E. rewrite E in Hpos. now apply Qlt_irrefl in Hpos.
Qed.

(** X11 on three processing times. *)
Lemma averageTime_is_mean_witness :
  (averageTime
     (afterTimes [12; 30; 18]%Q (performanceStats emptyState)) == 20)%Q.
Proof.
  destruct (averageTime_is_mean [12; 30; 18]%Q (performanceStats emptyState))
    as (_ & _ & H); [reflexivity|discriminate|].
  rewrite H. reflexivity.
Defined.

(** *** Weighted means in doubles *)

Section Rounding.
Variable round : Q -> Q.
Hypothesis round_ok : rounding round.

Lemma round_le (x y : Q) : (x <= y)%Q -> (round x <= round y)%Q.
Proof. apply round_ok. Qed.

Lemma round_eq (x y : Q) : (x == y)%Q -> (round x == round y)%Q.
Proof.
  intros E. apply Qle_antisym; apply round_le; rewrite E; apply Qle_refl.
Qed.

Lemma round_nonneg (x : Q) : (0 <= x)%Q -> (0 <= round x)%Q.
Proof.
  intros H. destruct round_ok as (_ & _ & H0 & _).
  rewrite <- H0. now apply round_le.
Qed.

Lemma round_le_one (x : Q) : (x <= 1)%Q -> (round x <= 1)%Q.
Proof.
  intros H. destruct round_ok as (_ & _ & _ & _ & H1).
  rewrite <- H1. now apply round_le.
Qed.

Lemma round_ge_one (x : Q) : (1 <= x)%Q -> (1 <= round x)%Q.
Proof.
  intros H. destruct round_ok as (_ & _ & _ & _ & H1).
  rewrite <- H1. now apply round_le.
Qed.

Lemma round_ge_half (x : Q) : (1 # 2 <= x)%Q -> (1 # 2 <= round x)%Q.
Proof.
  intros H. destruct round_ok as (_ & _ & _ & Hh & _).
  rewrite <- Hh. now apply round_le.
Qed.

(** One turn of a weighted mean of values between 0 and 1: the sum
    stays between 0 and the total of the weights. *)
Lemma mean_step (sum total c w : Q) :
  (0 <= w)%Q -> (round w == w)%Q -> (0 <= c <= 1)%Q ->
  (0 <= sum <= total)%Q ->
  (0 <= round (sum + round (c * w)) <= round (total + w))%Q.
Proof.
  intros Hw Hr [Hc0 Hc1] [Hs0 Hs1].
  assert (0 <= c * w)%Q as Hp0 by (apply Qmult_le_0_compat; assumption).
  assert (c * w <= w)%Q as Hp1.
  { setoid_replace w with (1 * w)%Q at 2 by ring.
    apply Qmult_le_compat_r; assumption. }
  pose proof (round_nonneg _ Hp0) as Hq0.
  pose proof (round_le _ _ Hp1) as Hq1. rewrite Hr in Hq1.
  split.
  - apply round_nonneg. lra.
  - apply round_le. lra.
Qed.

Lemma mean_bounds (sum total : Q) :
  (0 < total)%Q -> (0 <= sum <= total)%Q ->
  (0 <= round (sum / total) <= 1)%Q.
Proof.
  intros Hpos [H0 H1]. split.
  - apply round_nonneg. apply Qle_shift_div_l; [assumption|]. lra.
  - apply round_le_one. apply Qle_shift_div_r; [assumption|]. lra.
Qed.

(** *** [calculateOverallConfidence] *)

Lemma weightOfType_pos (t : jsstring) (w : Q) :
  weightOfType round t = Some w -> (0 < w)%Q /\ (round w == w)%Q.
Proof.
  assert (forall x : Q, (1 # 2 <= x)%Q ->
                        (0 < round x)%Q /\ (round (round x) == round x)%Q)
    as Hweight.
  { intros x Hx. split; [|apply round_ok].
    pose proof (round_ge_half x Hx). lra. }
  unfold weightOfType, typeWeights. cbn [map JsValue.mapGet fst snd].
  repeat match goal with
         | |- context [streq ?a t] => destruct (streq a t)
         end;
    repeat match goal with
           | |- context [if ?b then _ else _] => destruct b
           end;
    try discriminate;
    intros H; injection H as <-; apply Hweight; lra.
Qed.

(** What holds of [(weightedSum, totalWeight)] through the loop. *)
Lemma addWeighted_bounds (entities : list Entity) :
  (forall e, In e entities -> 0 <= confidence e <= 1)%Q ->
  forall (sum total : Q),
    (0 <= sum <= total)%Q ->
    match fold_left (addWeighted round) entities
            (DOMInterpreter.Num sum, Some total)
    with
    | (DOMInterpreter.Num sum', Some total') => (0 <= sum' <= total')%Q
    | (_, None) => True
    | (DOMInterpreter.NaN, Some _) => False
    end.
Proof.
  induction entities as [|e entities IH]; intros Hall sum total Hb.
  - cbn. exact Hb.
  - cbn [fold_left addWeighted].
    destruct (weightOfType round (type e)) as [w|] eqn:Ew.
    + apply weightOfType_pos in Ew as [Hpos Hr].
      apply IH.
      * intros e' He'. apply Hall. now right.
      * apply mean_step; [lra|assumption| |assumption].
        apply Hall. now left.
    + clear. induction entities as [|e' entities IH]; [exact I|].
      cbn [fold_left addWeighted].
      destruct (weightOfType round (type e')); exact IH.
Qed.

Lemma calculateOverallConfidence_unit (entities : list Entity) :
  (forall e, In e entities -> 0 <= confidence e <= 1)%Q ->
  exists q : Q,
    calculateOverallConfidence round entities = DOMInterpreter.Num q
    /\ (0 <= q <= 1)%Q.
Proof.
  intros Hall. unfold calculateOverallConfidence.
  destruct entities as [|e entities]; [exists 0%Q; split; [reflexivity|lra]|].
  pose proof (addWeighted_bounds (e :: entities) Hall 0 0) as H.
  destruct (fold_left (addWeighted round) (e :: entities)
              (DOMInterpreter.Num 0, Some 0%Q)) as [[sum|] [total|]].
  - specialize (H ltac:(lra)).
    destruct (Qle_bool total 0) eqn:E; cbn [negb].
    + exists 0%Q. split; [reflexivity|lra].
    + apply Qle_bool_false in E. exists (round (sum / total)).
      split; [reflexivity|]. now apply mean_bounds.
  - exists 0%Q. split; [reflexivity|lra].
  - exfalso. apply H. lra.
  - exists 0%Q. split; [reflexivity|lra].
Qed.

End Rounding.

Lemma exact_rounding : rounding exact.
Proof.
  unfold rounding, exact. repeat split; try reflexivity. now intros x y H.
Qed.

(** X12: with every product, sum and quotient rounded to a double,
    [calculateOverallConfidence] answers a number between 0 and 1 for
    entities whose confidences lie between 0 and 1; also when the type
    of an entity is a name inherited from [Object.prototype], where the
    answer is 0. *)
Theorem calculateOverallConfidence_bounded (round : Q -> Q)
  (entities : list Entity) :
  rounding round ->
  (forall e, In e entities -> 0 <= confidence e <= 1)%Q ->
  exists q : Q,
    calculateOverallConfidence round entities = DOMInterpreter.Num q
    /\ (0 <= q <= 1)%Q.
Proof. intros Hround. now apply calculateOverallConfidence_unit. Qed.

(** X12 on one company of confidence 0.9, in exact arithmetic. *)
Lemma calculateOverallConfidence_bounded_witness :
  exists q : Q,
    calculateOverallConfidence exact
      [{| text := str "Apple Inc."; normalized := str "Apple Inc";
          type := str "company"; confidence := 0.9;
          pattern := str "company_formal"; position := 0 |}]
    = DOMInterpreter.Num q
    /\ (0 <= q <= 1)%Q.
Proof.
  apply (calculateOverallConfidence_bounded exact); [exact exact_rounding|].
  intros e [<-|[]]. cbn. split; lra.
Defined.

(** *** [normalizeEntity] *)

Lemma dropWhile_begins (p : N -> bool) (s : jsstring) :
  beginsWith p (dropWhile p s) = false.
Proof.
  induction s as [|c s IH]; [reflexivity|]. cbn [dropWhile].
  destruct (p c) eqn:E; [exact IH|exact E].
Qed.

Lemma dropWhile_length (p : N -> bool) (s : jsstring) :
  (length (dropWhile p s) <= length s)%nat.
Proof.
  induction s as [|c s IH]; [reflexivity|]. cbn [dropWhile].
  destruct (p c); cbn [length]; lia.
Qed.

Lemma endsWith_cons (p : N -> bool) (c : N) (s : jsstring) :
  s <> [] -> endsWith p (c :: s) = endsWith p s.
Proof.
  intros H. unfold endsWith. cbn [rev].
  destruct (rev s) as [|x r] eqn:E; [|reflexivity].
  apply (f_equal (@rev N)) in E. rewrite rev_involutive in E. now subst.
Qed.

Lemma dropWhile_ends (p q : N -> bool) (s : jsstring) :
  endsWith q s = false -> endsWith q (dropWhile p s) = false.
Proof.
  induction s as [|c s IH]; intros H; [reflexivity|]. cbn [dropWhile].
  destruct (p c); [|exact H].
  destruct s as [|x s]; [reflexivity|].
  apply IH. rewrite <- H. symmetry. now apply endsWith_cons.
Qed.

(** X13: the text that [normalizeEntity] answers does not begin with a
    quote, does not end with a quote or with one of [. , ; : ! ?], and
    is no longer than the text given. *)
Theorem normalizeEntity_stripped (entity : jsstring) :
  beginsWith isQuote (normalizeEntity entity) = false
  /\ endsWith isMark (normalizeEntity entity) = false
  /\ (length (normalizeEntity entity) <= length entity)%nat.
Proof.
  unfold normalizeEntity. split; [apply dropWhile_begins|]. split.
  - apply dropWhile_ends. unfold endsWith, dropWhileEnd.
    rewrite rev_involutive. apply dropWhile_begins.
  - eapply Nat.le_trans; [apply dropWhile_length|].
    unfold dropWhileEnd. rewrite length_rev.
    eapply Nat.le_trans; [apply dropWhile_length|]. rewrite length_rev.
    eapply Nat.le_trans; [apply collapseFrom_length|apply trim_length].
Qed.

(** The text answered can end with a space, and then a second pass
    changes it. *)
Example normalizeEntity_not_idempotent :
  normalizeEntity (str "Acme .") = str "Acme "
  /\ normalizeEntity (str "Acme ") = str "Acme".
Proof. split; vm_compute; reflexivity. Qed.

End ProcessorFacts.

(** ** [EnhancedNLPProcessor]: the confidence of a result *)

Module EnhancedFacts.
Import EnhancedNLPProcessor ScorerFacts ProcessorFacts.

Section Rounding.
Variable round : Q -> Q.
Hypothesis round_ok : rounding round.

Lemma weightOfEnhanced_pos (e : Enhanced) :
  (1 <= weightOfEnhanced round e)%Q
  /\ (round (weightOfEnhanced round e) == weightOfEnhanced round e)%Q.
Proof.
  assert (forall w m : Q,
            (1 <= w)%Q -> (1 <= m)%Q ->
            (1 <= round (w * round m))%Q
            /\ (round (round (w * round m)) == round (w * round m))%Q)
    as Hstep.
  { intros w m Hw Hm. split; [|apply round_ok].
    apply (round_ge_one round round_ok).
    pose proof (round_ge_one round round_ok m Hm) as Hm'.
    assert (0 <= (w - 1) * round m)%Q
      by (apply Qmult_le_0_compat; lra).
    setoid_replace (w * round m)%Q with (round m + (w - 1) * round m)%Q
      by ring.
    lra. }
  assert ((1 <= 1.0)%Q /\ (round 1.0 == 1.0)%Q) as Hone.
  { split; [lra|]. destruct round_ok as (_ & _ & _ & _ & H1).
    apply Qeq_trans with (round 1);
      [apply (round_eq round round_ok); reflexivity|].
    rewrite H1. reflexivity. }
  unfold weightOfEnhanced. cbv zeta.
  destruct (knowledgeBase (entity e)), (Nat.ltb 0 (variations e)),
    (financialData e);
    repeat match goal with
           | |- (1 <= round (?w * round ?m))%Q /\ _ =>
               apply Hstep; [|lra]
           | |- (1 <= round (?w * round ?m))%Q =>
               apply Hstep; [|lra]
           end;
    try exact Hone; lra.
Qed.

Lemma scoreOfEnhanced_unit (e : Enhanced) :
  (0 <= confidence (entity e) <= 1)%Q ->
  (forall score, knowledgeBase (entity e) = Some score ->
                 (0 <= score <= 1)%Q) ->
  (0 <= scoreOfEnhanced e <= 1)%Q.
Proof.
  intros Hc Hkb. unfold scoreOfEnhanced.
  destruct (knowledgeBase (entity e)) as [s|]; [|exact Hc].
  specialize (Hkb s eq_refl).
  destruct (Q.max_spec (confidence (entity e)) s) as [[_ ->]|[_ ->]];
    assumption.
Qed.

Lemma enhanced_bounds (entities : list Enhanced) :
  (forall e, In e entities -> 0 <= scoreOfEnhanced e <= 1)%Q ->
  forall acc : Q * Q,
    (0 <= fst acc <= snd acc)%Q ->
    let acc' :=
      fold_left
        (fun acc e =>
           (round (fst acc
                   + round (scoreOfEnhanced e * weightOfEnhanced round e)),
            round (snd acc + weightOfEnhanced round e))%Q)
        entities acc in
    (0 <= fst acc' <= snd acc')%Q.
Proof.
  induction entities as [|e entities IH]; intros Hall acc Hb; cbv zeta.
  - exact Hb.
  - cbn [fold_left]. apply IH; [intros e' He'; apply Hall; now right|].
    cbn [fst snd]. destruct (weightOfEnhanced_pos e) as [Hw Hr].
    apply (mean_step round round_ok); [lra|exact Hr| |exact Hb].
    apply Hall. now left.
Qed.

Lemma calculateEnhancedConfidence_unit (entities : list Enhanced) :
  (forall e, In e entities ->
     (0 <= confidence (entity e) <= 1)%Q
     /\ forall score, knowledgeBase (entity e) = Some score ->
                      (0 <= score <= 1)%Q) ->
  (0 <= calculateEnhancedConfidence round entities <= 1)%Q.
Proof.
  intros Hall. unfold calculateEnhancedConfidence.
  destruct entities as [|e entities]; [lra|].
  assert (forall e', In e' (e :: entities) ->
                     (0 <= scoreOfEnhanced e' <= 1)%Q) as Hscore.
  { intros e' He'. destruct (Hall e' He') as [Hc Hkb].
    now apply scoreOfEnhanced_unit. }
  pose proof (enhanced_bounds (e :: entities) Hscore (0, 0)%Q) as H.
  cbv zeta in H.
  destruct (fold_left _ (e :: entities) (0%Q, 0%Q))
    as [totalScore totalWeight].
  cbn [fst snd] in H. specialize (H ltac:(lra)).
  destruct (Qle_bool totalWeight 0) eqn:E; cbn [negb]; [lra|].
  apply Qle_bool_false in E. now apply (mean_bounds round round_ok).
Qed.

End Rounding.

(** X14: with every product, sum and quotient rounded to a double,
    [calculateEnhancedConfidence] answers a confidence between 0 and 1
    when the confidence of every entity and the score of every match
    of the knowledge base lie between 0 and 1. *)
Theorem calculateEnhancedConfidence_bounded (round : Q -> Q)
  (entities : list Enhanced) :
  rounding round ->
  (forall e, In e entities ->
     (0 <= confidence (entity e) <= 1)%Q
     /\ forall score, knowledgeBase (entity e) = Some score ->
                      (0 <= score <= 1)%Q) ->
  (0 <= calculateEnhancedConfidence round entities <= 1)%Q.
Proof. intros Hround. now apply calculateEnhancedConfidence_unit. Qed.

(** X14 on one entity that the knowledge base matches, in exact
    arithmetic. *)
Lemma calculateEnhancedConfidence_bounded_witness :
  (0 <= calculateEnhancedConfidence exact
          [{| entity := contextWithKB; variations := 0;
              financialData := false |}] <= 1)%Q.
Proof.
  apply (calculateEnhancedConfidence_bounded exact);
    [exact exact_rounding|].
  intros e [<-|[]]. cbn. split; [split; lra|].
  intros score E. injection E as <-. split; lra.
Defined.

End EnhancedFacts.

(** ** [CompanyKnowledgeBase]: the results of [search] *)

Module SearchFacts.
Import FuzzyMatcher JsValue CompanyKnowledgeBase JsFacts FuzzyFacts ScorerFacts
  RankingFacts ExtractFacts.

Lemma valSetHas_added (seen : list jsval) (x y : jsval) :
  valSetHas (valSetAdd seen x) y = false ->
  valSetHas seen y = false /\ sameValue y x = false.
Proof.
  unfold valSetAdd, valSetHas.
  destruct (existsb (sameValue x) seen) eqn:E.
  - intros H. split; [exact H|].
    destruct (sameValue y x) eqn:Eyx; [|reflexivity].
    exfalso. revert E H Eyx. clear. intros E H Eyx.
    apply existsb_exists in E as (z & Hz & Exz).
    assert (existsb (sameValue y) seen = true) as Hy; [|congruence].
    apply existsb_exists. exists z. split; [assumption|].
    destruct y, x, z; cbn in *; try discriminate; try assumption.
    + apply Bool.eqb_prop in Eyx, Exz. subst. apply Bool.eqb_reflx.
    + apply Qeq_bool_iff in Eyx, Exz. apply Qeq_bool_iff.
      now rewrite Eyx.
    + apply streq_eq in Eyx, Exz. subst. apply streq_refl.
    + apply N.eqb_eq in Eyx, Exz. subst. apply N.eqb_refl.
    + apply N.eqb_eq in Eyx, Exz. subst. apply N.eqb_refl.
  - rewrite existsb_app. intros H. apply orb_false_iff in H as [H1 H2].
    split; [exact H1|]. cbn in H2. now apply orb_false_iff in H2 as [H2 _].
Qed.

Section Collect.
Variable limit : Q.

Lemma collect_In (matches : list Scored) :
  forall (seen : list jsval) (results : nat) (m : Scored),
    In m (collect limit seen results matches) -> In m matches.
Proof.
  induction matches as [|x matches IH]; intros seen results m; [intros []|].
  cbn [collect].
  destruct (valSetHas seen (companyId (candidate x))); cbn [negb].
  - intros H. right. eapply IH, H.
  - intros [<-|H]; [now left|right].
    destruct (Qle_bool limit _); [destruct H|eapply IH, H].
Qed.

Lemma collect_unseen (matches : list Scored) :
  forall (seen : list jsval) (results : nat) (m : Scored),
    In m (collect limit seen results matches) ->
    valSetHas seen (companyId (candidate m)) = false.
Proof.
  induction matches as [|x matches IH]; intros seen results m; [intros []|].
  cbn [collect].
  destruct (valSetHas seen (companyId (candidate x))) eqn:E; cbn [negb].
  - apply IH.
  - intros [<-|H]; [exact E|].
    destruct (Qle_bool limit _); [destruct H|].
    apply IH in H. now apply valSetHas_added in H.
Qed.

Lemma collect_distinct (matches : list Scored) :
  forall (seen : list jsval) (results : nat),
    distinctCompanies (collect limit seen results matches).
Proof.
  unfold distinctCompanies.
  induction matches as [|x matches IH]; intros seen results; [constructor|].
  cbn [collect].
  destruct (valSetHas seen (companyId (candidate x))); cbn [negb];
    [apply IH|].
  constructor.
  - apply Forall_forall. intros m Hm.
    destruct (Qle_bool limit _); [destruct Hm|].
    apply collect_unseen in Hm. now apply valSetHas_added in Hm.
  - destruct (Qle_bool limit _); [constructor|apply IH].
Qed.

Lemma collect_sorted (R : Scored -> Scored -> Prop) (matches : list Scored) :
  StronglySorted R matches ->
  forall (seen : list jsval) (results : nat),
    StronglySorted R (collect limit seen results matches).
Proof.
  induction 1 as [|x matches Hs IH Hall]; intros seen results; [constructor|].
  cbn [collect].
  destruct (valSetHas seen (companyId (candidate x))); cbn [negb];
    [apply IH|].
  constructor.
  - destruct (Qle_bool limit _); [constructor|apply IH].
  - rewrite Forall_forall in *. intros m Hm. apply Hall.
    destruct (Qle_bool limit _); [destruct Hm|eapply collect_In, Hm].
Qed.

Lemma collect_length (n : nat) (matches : list Scored) :
  (limit <= ofNat n)%Q ->
  forall (seen : list jsval) (results : nat),
    (length (collect limit seen results matches)
     <= Nat.max 1 (n - results))%nat.
Proof.
  intros Hn.
  induction matches as [|x matches IH]; intros seen results; [cbn [collect length]; lia|].
  cbn [collect].
  destruct (valSetHas seen (companyId (candidate x))); cbn [negb];
    [apply IH|].
  destruct (Qle_bool limit (ofNat (S results))) eqn:E;
    [cbn [length]; lia|].
  apply Qle_bool_false in E.
  assert (S results < n)%nat as Hlt.
  { destruct (Nat.lt_ge_cases (S results) n) as [H|H]; [exact H|].
    apply ofNat_le in H. lra. }
  cbn [length].
  specialize (IH (valSetAdd seen (companyId (candidate x))) (S results)).
  lia.
Qed.

End Collect.

Lemma sorted_by (A : Type) (f : A -> Q) (l : list A) :
  StronglySorted (fun a b => (f b <= f a)%Q)
    (sortBy (fun a b => Qle_bool (f b - f a) 0) l).
Proof.
  apply Sorted_StronglySorted.
  - intros a b c Hab Hbc. lra.
  - assert (forall a b : A,
              Qle_bool (f b - f a) 0 = false -> Qle_bool (f a - f b) 0 = true)
      as Htotal.
    { intros a b H. apply Qle_bool_false in H. apply Qle_bool_iff. lra. }
    pose proof (sortBy_sorted _ _ Htotal l) as H.
    induction H as [|x r Hr IH Hhd]; constructor; [assumption|].
    destruct Hhd as [|y r' Hxy]; constructor.
    unfold inOrder in Hxy. apply Qle_bool_iff in Hxy. lra.
Qed.

Lemma matchesOf_In (normalizedQuery : jsstring) (threshold : Q)
  (searchCandidates : list Candidate) (m : Scored) :
  In m (matchesOf normalizedQuery threshold searchCandidates)
  <-> In (candidate m) searchCandidates
      /\ score m
         = (enhancedCompanyRatio normalizedQuery (normalized (candidate m))
            * boost (candidate m))%Q
      /\ (threshold <= score m)%Q.
Proof.
  unfold matchesOf. split.
  - intros H.
    apply (Permutation_in _ (Permutation_sym (sortBy_perm _ _ _))) in H.
    apply filter_In in H as [H Ht]. apply Qle_bool_iff in Ht.
    apply in_map_iff in H as (c & <- & Hc). now repeat split.
  - intros (Hc & Hs & Ht).
    apply (Permutation_in _ (sortBy_perm _ _ _)).
    apply filter_In. split; [|now apply Qle_bool_iff].
    apply in_map_iff. exists (candidate m). split; [|assumption].
    destruct m as [c sc]. cbn in *. now subst.
Qed.

(** X15: the results of [search] come from matches of the candidates
    that reach the threshold, in the order of decreasing score and with
    no company twice; for a limit of at most [n] there are at most [n]
    results, but one for a limit below one; and when a candidate reaches
    the threshold, the first result has the highest score of all
    candidates. *)
Theorem search_ranked (s : state) (searchCandidates : list Candidate)
  (query : jsstring) (limit threshold : Q) :
  let found := selected s searchCandidates query limit threshold in
  search s searchCandidates query limit threshold = map (resultOf s) found
  /\ (forall m, In m found ->
        In (candidate m) searchCandidates
        /\ score m = scoreOf s query (candidate m)
        /\ (threshold <= score m)%Q)
  /\ StronglySorted (fun a b => (r_score b <= r_score a)%Q)
       (search s searchCandidates query limit threshold)
  /\ distinctCompanies found
  /\ (forall n : nat,
        (limit <= ofNat n)%Q ->
        (length (search s searchCandidates query limit threshold)
         <= Nat.max 1 n)%nat)
  /\ (forall c, In c searchCandidates ->
        (threshold <= scoreOf s query c)%Q ->
        exists best rest,
          found = best :: rest
          /\ forall c', In c' searchCandidates ->
                        (scoreOf s query c' <= score best)%Q).
Proof.
  cbv zeta. unfold search, selected. cbv zeta.
  set (nq := normalizeString s query).
  pose proof (sorted_by Scored score
                (filter (fun m => Qle_bool threshold (score m))
                   (map (fun c =>
                           {| candidate := c;
                              score := (enhancedCompanyRatio nq (normalized c)
                                        * boost c)%Q |})
                      searchCandidates))) as Hsorted.
  fold (matchesOf nq threshold searchCandidates) in Hsorted.
  split; [reflexivity|]. split; [|split; [|split; [|split]]].
  - intros m Hm. apply collect_In in Hm. now apply matchesOf_In in Hm.
  - apply StronglySorted_map.
    apply (collect_sorted limit (fun a b => (score b <= score a)%Q)).
    exact Hsorted.
  - apply collect_distinct.
  - intros n Hn. rewrite length_map.
    pose proof (collect_length limit n
                  (matchesOf nq threshold searchCandidates) Hn [] 0%nat).
    lia.
  - intros c Hc Ht.
    assert (In {| candidate := c; score := scoreOf s query c |}
              (matchesOf nq threshold searchCandidates)) as Hin
      by (apply matchesOf_In; now repeat split).
    destruct (matchesOf nq threshold searchCandidates) as [|best rest] eqn:E;
      [destruct Hin|].
    cbn [collect valSetHas existsb negb].
    eexists best, _. split; [reflexivity|].
    assert (In best (matchesOf nq threshold searchCandidates)) as Hbest
      by (rewrite E; now left).
    apply matchesOf_In in Hbest as (_ & _ & Hbt).
    apply StronglySorted_inv in Hsorted as [_ Hall].
    rewrite Forall_forall in Hall.
    intros c' Hc'.
    destruct (Qlt_le_dec (scoreOf s query c') threshold) as [Hlow|Hhigh];
      [lra|].
    assert (In {| candidate := c'; score := scoreOf s query c' |}
              (best :: rest)) as [Hsame|Hrest].
    { rewrite <- E. apply matchesOf_In. now repeat split. }
    + rewrite Hsame. cbn [score]. lra.
    + apply Hall in Hrest. exact Hrest.
Qed.

End SearchFacts.

(** ** [ConfidenceScorer]: cross reference, recommendation, statistics *)

Module ScorerMoreFacts.
Import ConfidenceScorer JsFacts FuzzyFacts ScorerFacts.

Lemma fuzzyMatchKnownEntity_range (entityText : jsstring) :
  (fuzzyMatchKnownEntity entityText == 0
   \/ 0.64 < fuzzyMatchKnownEntity entityText <= 0.8)%Q.
Proof.
  unfold fuzzyMatchKnownEntity.
  assert (forall (l : list (jsstring * KnownEntity)) (best : Q),
            (best == 0 \/ 0.64 < best <= 0.8)%Q ->
            let r :=
              fold_left
                (fun bestScore entry =>
                   let similarity :=
                     calculateSimilarity entityText (fst entry) in
                   if gt similarity 0.8%Q
                   then Qmax bestScore (similarity * 0.8)%Q
                   else bestScore)
                l best in
            (r == 0 \/ 0.64 < r <= 0.8)%Q) as H.
  { induction l as [|entry l IH]; intros best Hbest; cbn [fold_left];
      [exact Hbest|].
    apply IH. cbv zeta.
    destruct (gt (calculateSimilarity entityText (fst entry)) 0.8) eqn:E;
      [|exact Hbest].
    unfold gt in E. apply negb_true_iff, Qle_bool_false in E.
    destruct (calculateSimilarity_unit entityText (fst entry)) as [_ Hle].
    right.
    destruct (Q.max_spec best
                (calculateSimilarity entityText (fst entry) * 0.8))
      as [[Hlt ->]|[Hge ->]]; [lra|].
    destruct Hbest as [Hbest|Hbest]; lra. }
  apply H. left. reflexivity.
Qed.

(** X16: a name that the index of known entities holds scores between
    0.81 and 1 in [scoreCrossReference]; a name that it does not hold
    scores 0, or above 0.64 and at most 0.8: an exact match always
    scores above a partial one. *)
Theorem scoreCrossReference_ranges (v : Validated) (context : Context) :
  let normalizedEntity :=
    match toLowerCase (v_entityNormalized v) with
    | [] => toLowerCase (v_entityText v)
    | n => n
    end in
  match JsValue.mapGet streq knownEntities normalizedEntity with
  | Some _ => (0.81 <= scoreCrossReference v context <= 1)%Q
  | None =>
      (scoreCrossReference v context == 0
       \/ 0.64 < scoreCrossReference v context <= 0.8)%Q
  end.
Proof.
  cbv zeta. unfold scoreCrossReference. cbv zeta.
  destruct (JsValue.mapGet streq knownEntities _) as [knownEntity|];
    [|apply fuzzyMatchKnownEntity_range].
  split; [|apply Qmin_one_le].
  apply Q.min_glb; [|lra].
  destruct (typeIs _ _ && optStreq _ _);
    destruct (industry context) as [i|]; try lra;
    destruct (negb (FuzzyMatcher.isEmpty i) && _); try lra;
    destruct (checkSectorConsistency _ _); lra.
Qed.

(** *** The weakest factor *)

Lemma weakestOf_least (l : list (jsstring * Q)) :
  forall (weakest : option jsstring) (lowest : Q),
    let r := weakestOf l (weakest, lowest) in
    (snd r <= lowest)%Q
    /\ (forall e, In e l -> (snd r <= snd e)%Q)
    /\ ((exists e, In e l /\ (snd e < lowest)%Q) ->
        exists e, In e l /\ fst r = Some (fst e) /\ snd r = snd e).
Proof.
  induction l as [|x l IH]; intros weakest lowest; cbv zeta.
  - cbn. split; [lra|]. split; [intros e []|]. intros (e & [] & _).
  - unfold weakestOf in *. cbn [fold_left fst snd].
    destruct (Qle_bool lowest (snd x)) eqn:E; cbn [negb].
    + apply Qle_bool_iff in E.
      destruct (IH weakest lowest) as (Hle & Hall & Hex).
      split; [exact Hle|]. split.
      * intros e [<-|He]; [lra|now apply Hall].
      * intros (e & [<-|He] & Hlt); [lra|].
        destruct Hex as (e' & He' & Hf & Hs); [now exists e|].
        exists e'. split; [now right|now split].
    + apply Qle_bool_false in E.
      destruct (IH (Some (fst x)) (snd x)) as (Hle & Hall & Hex).
      split; [lra|]. split.
      * intros e [<-|He]; [exact Hle|now apply Hall].
      * intros _.
        destruct (Qlt_le_dec
                    (snd (fold_left
                            (fun acc e =>
                               if negb (Qle_bool (snd acc) (snd e))
                               then (Some (fst e), snd e) else acc)
                            l (Some (fst x), snd x)))
                    (snd x)) as [Hlt|Hge].
        -- assert (exists e, In e l /\ (snd e < snd x)%Q) as Hsome.
           { clear - Hlt. revert Hlt.
             generalize (Some (fst x)). generalize (snd x) as b.
             induction l as [|y l IHl]; intros b w Hlt;
               [cbn in Hlt; lra|].
             cbn [fold_left fst snd] in Hlt.
             destruct (Qle_bool b (snd y)) eqn:E; cbn [negb] in Hlt.
             - destruct (IHl b w Hlt) as (e & He & Hs).
               exists e. split; [now right|exact Hs].
             - apply Qle_bool_false in E. exists y. split; [now left|].
               exact E. }
           destruct (Hex Hsome) as (e' & He' & Hf & Hs).
           exists e'. split; [now right|now split].
        -- exists x. split; [now left|].
           assert (forall (b : Q) (w : option jsstring),
                     (forall e, In e l -> (b <= snd e)%Q) ->
                     fold_left
                       (fun acc e =>
                          if negb (Qle_bool (snd acc) (snd e))
                          then (Some (fst e), snd e) else acc)
                       l (w, b) = (w, b)) as Hstay.
           { clear. induction l as [|y l IHl]; intros b w Hall;
               [reflexivity|].
             cbn [fold_left fst snd].
             assert (Qle_bool b (snd y) = true) as ->
               by (apply Qle_bool_iff, Hall; now left).
             cbn [negb]. apply IHl. intros e He. apply Hall. now right. }
           rewrite Hstay; [now split|].
           intros e He. specialize (Hall e He). lra.
Qed.

Lemma calculateWeightedScore_ge (scores : Scores) :
  (1 <= s_patternMatch scores)%Q -> (1 <= s_domContext scores)%Q ->
  (1 <= s_nlpConfidence scores)%Q -> (1 <= s_crossReference scores)%Q ->
  (1 <= s_contextConsistency scores)%Q ->
  (1 <= calculateWeightedScore scores)%Q.
Proof.
  intros H1 H2 H3 H4 H5. unfold calculateWeightedScore, weights.
  cbn [fold_left fst snd w_patternMatch w_domContext w_nlpConfidence
         w_crossReference w_contextConsistency].
  destruct (Qlt_le_dec 0 _) as [Hpos|Hneg]; [|lra].
  apply Qle_shift_div_l; [assumption|]. lra.
Qed.

(** X17: when the level of a score is [medium], the recommendation of
    [calculateScore] names a factor, never the unknown factor: one of
    the five of the breakdown whose score is below 1 and is the least
    of the five. *)
Theorem medium_recommendation_names_weakest (factors : Factors)
  (context : Context) :
  level (calculateScore factors context) = medium ->
  exists (scores : Scores) (factor name : jsstring) (least : Q),
    breakdown (calculateScore factors context) = Some scores
    /\ In (factor, least) (entries scores)
    /\ (least < 1)%Q
    /\ (forall e, In e (entries scores) -> (least <= snd e)%Q)
    /\ JsValue.mapGet streq factorNames factor = Some name
    /\ recommendation factors context
       = str "Entity moderately reliable - verify " ++ name.
Proof.
  unfold recommendation. cbv zeta.
  destruct (calculateScore_cases factors context)
    as [(_ & scores & -> & _)|[_ ->]]; [|discriminate].
  cbn [level score breakdown]. intros Hmedium. rewrite Hmedium.
  assert (exists e, In e (entries scores) /\ (snd e < 1.0)%Q) as Hsome.
  { destruct (Qlt_le_dec (s_patternMatch scores) 1) as [H1|H1];
      [eexists; split; [left; reflexivity|cbn [snd]; lra]|].
    destruct (Qlt_le_dec (s_domContext scores) 1) as [H2|H2];
      [eexists; split; [right; left; reflexivity|cbn [snd]; lra]|].
    destruct (Qlt_le_dec (s_nlpConfidence scores) 1) as [H3|H3];
      [eexists; split; [do 2 right; left; reflexivity|cbn [snd]; lra]|].
    destruct (Qlt_le_dec (s_crossReference scores) 1) as [H4|H4];
      [eexists; split; [do 3 right; left; reflexivity|cbn [snd]; lra]|].
    destruct (Qlt_le_dec (s_contextConsistency scores) 1) as [H5|H5];
      [eexists; split; [do 4 right; left; reflexivity|cbn [snd]; lra]|].
    exfalso.
    pose proof (calculateWeightedScore_ge scores H1 H2 H3 H4 H5) as Hge.
    destruct (determineConfidenceLevel_cases (calculateWeightedScore scores))
      as [[_ E]|[[[_ Hlt] _]|[[_ E]|[_ E]]]]; try congruence. lra. }
  destruct (weakestOf_least (entries scores) None 1.0%Q)
    as (Hle & Hall & Hex).
  destruct (Hex Hsome) as (e & He & Hf & Hs).
  assert (exists name, JsValue.mapGet streq factorNames (fst e) = Some name)
    as [name Hname].
  { cbn [entries In] in He.
    repeat (destruct He as [<-|He]; [eexists; reflexivity|]).
    destruct He. }
  exists scores, (fst e), name, (snd e).
  split; [reflexivity|].
  split; [now destruct e|]. split; [|split; [|split; [exact Hname|]]].
  - rewrite <- Hs. destruct Hsome as (e' & He' & Hlt).
    specialize (Hall e' He'). lra.
  - intros e' He'. rewrite <- Hs. now apply Hall.
  - cbn [getRecommendation]. unfold findWeakestFactor.
    now rewrite Hf, Hname.
Qed.

(** X17 on three confidences of 0.9 and no entity: the factor named is
    the cross reference, of score 0. *)
Lemma medium_recommendation_names_weakest_witness :
  exists (scores : Scores) (factor name : jsstring) (least : Q),
    breakdown (calculateScore (plainFactors 0.9 0.9 0.9)
                 {| industry := None |}) = Some scores
    /\ In (factor, least) (entries scores)
    /\ (least < 1)%Q
    /\ (forall e, In e (entries scores) -> (least <= snd e)%Q)
    /\ JsValue.mapGet streq factorNames factor = Some name
    /\ recommendation (plainFactors 0.9 0.9 0.9) {| industry := None |}
       = str "Entity moderately reliable - verify " ++ name.
Proof.
  apply (medium_recommendation_names_weakest (plainFactors 0.9 0.9 0.9)
           {| industry := None |}).
  vm_compute. reflexivity.
Defined.

(** *** The statistics *)

Lemma updateStatistics_mean (score : Q) (l : Level) (stats : ScoringStats) :
  (averageScore (updateStatistics score l stats)
   * FuzzyMatcher.ofNat (totalScored (updateStatistics score l stats))
   == averageScore stats * FuzzyMatcher.ofNat (totalScored stats) + score)%Q.
Proof.
  unfold updateStatistics. cbv zeta. cbn [averageScore totalScored].
  rewrite Nat.sub_1_r. cbn [Nat.pred].
  assert (0 < FuzzyMatcher.ofNat (S (totalScored stats)))%Q as Hpos
    by (apply ofNat_pos; lia).
  field. intros E. rewrite E in Hpos. now apply Qlt_irrefl in Hpos.
Qed.

Lemma afterScores_counts (scores : list Q) :
  forall stats : ScoringStats,
    let stats' := afterScores scores stats in
    totalScored stats' = (totalScored stats + length scores)%nat
    /\ d_high (distributionByLevel stats')
       = (d_high (distributionByLevel stats) + countOf high scores)%nat
    /\ d_medium (distributionByLevel stats')
       = (d_medium (distributionByLevel stats) + countOf medium scores)%nat
    /\ d_low (distributionByLevel stats')
       = (d_low (distributionByLevel stats) + countOf low scores)%nat
    /\ d_reject (distributionByLevel stats')
       = (d_reject (distributionByLevel stats) + countOf reject scores)%nat
    /\ (averageScore stats' * FuzzyMatcher.ofNat (totalScored stats')
        == averageScore stats * FuzzyMatcher.ofNat (totalScored stats)
           + sumOf scores)%Q.
Proof.
  induction scores as [|score scores IH]; intros stats; cbv zeta.
  - cbn. repeat split; try lia. ring.
  - unfold afterScores in *. cbn [fold_left].
    destruct (IH (updateStatistics score (determineConfidenceLevel score)
                    stats)) as (Hn & Hh & Hm & Hl & Hr & Ha).
    split; [|split; [|split; [|split; [|split]]]].
    6:{ rewrite Ha, updateStatistics_mean. cbn [sumOf fold_right].
        fold (sumOf scores). ring. }
    all: rewrite ?Hn, ?Hh, ?Hm, ?Hl, ?Hr; unfold countOf; cbn [filter length];
      destruct (determineConfidenceLevel_cases score)
        as [[_ E]|[[_ E]|[[_ E]|[_ E]]]]; rewrite E;
      cbn [updateStatistics totalScored distributionByLevel d_high d_medium
             d_low d_reject length]; lia.
Qed.

Lemma countOf_total (scores : list Q) :
  (countOf high scores + countOf medium scores + countOf low scores
   + countOf reject scores)%nat
  = length scores.
Proof.
  unfold countOf. induction scores as [|score scores IH]; [reflexivity|].
  cbn [filter length].
  destruct (determineConfidenceLevel_cases score)
    as [[_ E]|[[_ E]|[[_ E]|[_ E]]]]; rewrite E; cbn [length]; lia.
Qed.

(** X18: after a new scorer has scored [scores], [totalScored] is their
    number, each of the four counts of [distributionByLevel] is the
    number of scores of its level, the four add up to [totalScored],
    and [averageScore] times [totalScored] is the sum of the scores. *)
Theorem statistics_consistent (scores : list Q) :
  let stats := afterScores scores newStats in
  let d := distributionByLevel stats in
  totalScored stats = length scores
  /\ d_high d = countOf high scores /\ d_medium d = countOf medium scores
  /\ d_low d = countOf low scores /\ d_reject d = countOf reject scores
  /\ (d_high d + d_medium d + d_low d + d_reject d)%nat = totalScored stats
  /\ (averageScore stats * FuzzyMatcher.ofNat (totalScored stats)
      == sumOf scores)%Q.
Proof.
  cbv zeta.
  destruct (afterScores_counts scores newStats)
    as (Hn & Hh & Hm & Hl & Hr & Ha).
  cbn [newStats totalScored distributionByLevel d_high d_medium d_low
         d_reject averageScore Nat.add] in *.
  repeat split; try assumption.
  - rewrite Hh, Hm, Hl, Hr, Hn. apply countOf_total.
  - rewrite Ha. change (FuzzyMatcher.ofNat 0) with 0%Q. ring.
Qed.

End ScorerMoreFacts.

(** ** [DOMInterpreter]: the confidence of an analysis *)

Module DomConfidenceFacts.
Import DOMInterpreter JsFacts ScorerFacts.

Lemma times_raises (c : Q) (multiplier : option Q) :
  (0 <= c)%Q -> raises multiplier -> given multiplier = true ->
  exists c', times (Num c) multiplier = Num c' /\ (c <= c')%Q.
Proof.
  intros Hc Hr Hg. destruct multiplier as [q|]; [|discriminate].
  cbn in Hr. exists (c * q)%Q. split; [reflexivity|].
  assert (0 <= c * (q - 1))%Q by (apply Qmult_le_0_compat; lra).
  setoid_replace (c * q)%Q with (c + c * (q - 1))%Q by ring. lra.
Qed.

Lemma applyClue_raises (m : Multipliers) (c : Q) (clueType : jsstring) :
  raising m -> (0 <= c)%Q ->
  exists c', applyClue m (Num c) clueType = Num c' /\ (c <= c')%Q.
Proof.
  intros (_ & _ & Hd & Ht & Hc) H0. unfold applyClue.
  destruct (streq clueType _ && given (hasDataSymbol m)) eqn:E1.
  { apply andb_true_iff in E1 as [_ E1]. now apply times_raises. }
  destruct (includes clueType _ && given (hasTicker m)) eqn:E2.
  { apply andb_true_iff in E2 as [_ E2]. now apply times_raises. }
  destruct (includes clueType _ && given (hasCompanyTag m)) eqn:E3.
  { apply andb_true_iff in E3 as [_ E3]. now apply times_raises. }
  exists c. split; [reflexivity|lra].
Qed.

Lemma clues_raise (m : Multipliers) (clueTypes : list jsstring) :
  raising m ->
  forall c : Q,
    (0 <= c)%Q ->
    exists c', fold_left (applyClue m) clueTypes (Num c) = Num c'
               /\ (c <= c')%Q.
Proof.
  intros Hm. induction clueTypes as [|t clueTypes IH]; intros c Hc.
  - exists c. split; [reflexivity|lra].
  - cbn [fold_left].
    destruct (applyClue_raises m c t Hm Hc) as (c1 & -> & H1).
    destruct (IH c1) as (c2 & -> & H2); [lra|].
    exists c2. split; [reflexivity|lra].
Qed.

Lemma clues_keep_NaN (m : Multipliers) (clueTypes : list jsstring) :
  fold_left (applyClue m) clueTypes NaN = NaN.
Proof.
  induction clueTypes as [|t clueTypes IH]; [reflexivity|].
  cbn [fold_left]. unfold applyClue at 2.
  repeat match goal with
         | |- context [if ?b then _ else _] => destruct b
         end; exact IH.
Qed.

Lemma structuralWeight_nonneg (positions : list jsstring) :
  forall a w : Q,
    fold_left (fun maxWeight pos => max maxWeight (weightOf pos)) positions
      (Num a) = Num w ->
    (a <= w)%Q.
Proof.
  induction positions as [|pos positions IH]; intros a w H.
  - cbn in H. injection H as <-. lra.
  - cbn [fold_left] in H. destruct (weightOf pos) as [x|].
    + cbn [max] in H. apply IH in H.
      pose proof (Q.le_max_l a x). lra.
    + cbn [max] in H. exfalso. revert H. clear.
      induction positions as [|p positions IH]; [discriminate|].
      cbn [fold_left max]. exact IH.
Qed.

Lemma siteMultipliers_raising (site : jsstring) (m : Multipliers) :
  In (site, m) siteMultipliers -> raising m.
Proof.
  unfold siteMultipliers. cbn [In].
  intros H.
  repeat (destruct H as [H|H];
          [injection H as _ <-; repeat split; cbn; try lra; exact I|]).
  destruct H.
Qed.

(** X19: with the multipliers of one of the four site profiles, the
    confidence of an analysis is a number when the structural weight of
    its positions is one, and then lies between that weight capped at 1
    and 1: headline, first paragraph and context clues never lower the
    confidence.  When the structural weight is no number, neither is
    the confidence. *)
Theorem calculateDOMConfidence_bounds (site : jsstring) (m : Multipliers)
  (positions clueTypes : list jsstring) :
  In (site, m) siteMultipliers ->
  match calculateStructuralWeight positions with
  | Num w =>
      exists c,
        calculateDOMConfidence (Num w) positions clueTypes m = Num c
        /\ (0 <= c)%Q /\ (Qmin w 1 <= c)%Q /\ (c <= 1)%Q
  | NaN => calculateDOMConfidence NaN positions clueTypes m = NaN
  end.
Proof.
  intros Hsite. pose proof (siteMultipliers_raising site m Hsite) as Hm.
  destruct (calculateStructuralWeight positions) as [w|] eqn:Ew.
  - apply structuralWeight_nonneg in Ew.
    unfold calculateDOMConfidence. cbv zeta.
    assert (exists c1,
              (if setHas positions (str "h1") && given (inHeadline m)
               then times (Num w) (inHeadline m) else Num w) = Num c1
              /\ (w <= c1)%Q) as (c1 & -> & H1).
    { destruct (setHas positions (str "h1") && given (inHeadline m)) eqn:E.
      - apply andb_true_iff in E as [_ E].
        apply times_raises; [assumption|apply Hm|assumption].
      - exists w. split; [reflexivity|lra]. }
    assert (exists c2,
              (if setHas positions (str "firstParagraph")
                  && given (inFirstParagraph m)
               then times (Num c1) (inFirstParagraph m) else Num c1) = Num c2
              /\ (c1 <= c2)%Q) as (c2 & -> & H2).
    { destruct (setHas positions (str "firstParagraph")
                && given (inFirstParagraph m)) eqn:E.
      - apply andb_true_iff in E as [_ E].
        apply times_raises; [lra|apply Hm|assumption].
      - exists c1. split; [reflexivity|lra]. }
    destruct (clues_raise m clueTypes Hm c2) as (c3 & -> & H3); [lra|].
    exists (Qmin c3 1.0). split; [reflexivity|].
    split; [apply Qmin_one_nonneg; lra|]. split; [|apply Qmin_one_le].
    apply Q.min_glb.
    + apply Qle_trans with w; [apply Q.le_min_l|lra].
    + apply Qle_trans with 1%Q; [apply Q.le_min_r|lra].
  - unfold calculateDOMConfidence. cbv zeta.
    assert (forall (b : bool) (o : option Q),
              (if b then times NaN o else NaN) = NaN) as Hnan
      by (intros [] o; reflexivity).
    now rewrite !Hnan, clues_keep_NaN.
Qed.

(** X19 on a ticker in a headline of the Bloomberg profile. *)
Lemma calculateDOMConfidence_bounds_witness :
  exists c,
    calculateDOMConfidence (Num 0.9) [str "h1"; str "headline"]
      [str "tickerFormat"]
      {| inHeadline := Some 1.5%Q; inFirstParagraph := None;
         hasDataSymbol := None; hasTicker := Some 1.6%Q;
         hasCompanyTag := Some 1.4%Q |}
    = Num c
    /\ (0 <= c)%Q /\ (Qmin 0.9 1 <= c)%Q /\ (c <= 1)%Q.
Proof.
  apply (calculateDOMConfidence_bounds (str "bloomberg") _
           [str "h1"; str "headline"] [str "tickerFormat"]).
  right. right. left. reflexivity.
Defined.

End DomConfidenceFacts.

(** ** [CompanyKnowledgeBase]: a company added is found *)

Module AddCompanyFacts.
Import JsValue CompanyKnowledgeBase JsFacts KnowledgeBaseFacts.

(** The filing of the aliases touches the alias index only. *)
Lemma aliases_filed (id : jsval) (items : list jsval) :
  forall s : state,
    normalizer s = true ->
    exists aliasIndex',
      forEach
        (fun alias =>
           normalizedAlias <- normalizedKey alias ;;
           addToAliasIndex normalizedAlias id)
        items s
      = (inr tt,
         {| companies := companies s; nameIndex := nameIndex s;
            tickerIndex := tickerIndex s; aliasIndex := aliasIndex';
            normalizer := true |}).
Proof.
  induction items as [|alias items IH]; intros s Hs.
  - exists (aliasIndex s). cbn. rewrite <- Hs. now destruct s.
  - cbn [forEach]. unfold bind at 1. unfold bind at 1.
    unfold normalizedKey at 1. unfold bind at 1, get at 1. rewrite Hs.
    unfold ret at 1. unfold addToAliasIndex at 1.
    unfold bind at 1, get at 1, put at 1.
    match goal with
    | |- context [forEach ?f items ?s1] =>
        destruct (IH s1 Hs) as [a' ->]
    end.
    cbn [companies nameIndex tickerIndex]. now exists a'.
Qed.

Lemma mapGet_mapSet_present_key (m : list (jsval * company)) (i : jsstring)
  (c : company) :
  streq i i = true ->
  mapGet sameValue (mapSet sameValue m (VStr i) c) (VStr i) = Some c.
Proof.
  intros Hi. induction m as [|[k' c'] m IH]; cbn [mapSet mapGet].
  - cbn [sameValue]. now rewrite Hi.
  - destruct (sameValue k' (VStr i)) eqn:E; cbn [mapGet]; rewrite E;
      [reflexivity|exact IH].
Qed.

Lemma metadata_keeps (props : list (jsstring * jsval)) (k : jsstring) :
  (streq k k_id || streq k k_name || streq k k_aliases || streq k k_ticker)
  = true ->
  ~ In k
      (map fst
         (filter
            (fun p => negb (streq (fst p) k_id || streq (fst p) k_name
                            || streq (fst p) k_aliases
                            || streq (fst p) k_ticker))
            props)).
Proof.
  intros Hk Hin. apply in_map_iff in Hin as (p & <- & Hp).
  apply filter_In in Hp as [_ Hp]. rewrite Hk in Hp. discriminate.
Qed.

Lemma addCompany_runs (now : Q) (ref : N)
  (props : list (jsstring * jsval)) (s : state) (i n t : jsstring) :
  normalizer s = true ->
  getProp props k_id = VStr i ->
  getProp props k_name = VStr n ->
  getProp props k_ticker = VStr t -> t <> [] ->
  match getProp props k_aliases with
  | VUndefined | VArr _ _ => True
  | _ => False
  end ->
  exists (aliasSet : list jsval) (aliasIndex' : list (jsstring * list jsval)),
    addCompany now (VObj ref props) s
    = (inr tt,
       {| companies :=
            mapSet sameValue (companies s) (VStr i)
              (mapSet streq
                 (assign
                    [(k_id, VStr i); (k_name, VStr n);
                     (k_normalizedName, VStr (CompanyNormalizer.normalize n));
                     (k_aliases, VSet aliasSet); (k_ticker, VStr t)]
                    (filter
                       (fun p =>
                          negb (streq (fst p) k_id || streq (fst p) k_name
                                || streq (fst p) k_aliases
                                || streq (fst p) k_ticker))
                       props))
                 k_dateAdded (VNum now));
          nameIndex :=
            mapSet streq (nameIndex s) (CompanyNormalizer.normalize n)
              (valSetAdd
                 match mapGet streq (nameIndex s)
                         (CompanyNormalizer.normalize n) with
                 | Some ids => ids
                 | None => []
                 end
                 (VStr i));
          tickerIndex := mapSet streq (tickerIndex s) (toUpperCase t) (VStr i);
          aliasIndex := aliasIndex';
          normalizer := true |}).
Proof.
  intros Hs Hid Hname Hticker Ht Haliases.
  unfold addCompany. unfold getProp in *. cbn [getField ownProps].
  rewrite Hid, Hname, Hticker.
  set (aliases0 := match mapGet streq props k_aliases with
                   | Some v => v
                   | None => VUndefined
                   end) in *.
  assert (truthy (VStr t) = true) as Htruthy
    by (destruct t; [congruence|reflexivity]).
  destruct aliases0 as [| | | | |r items| |]; try contradiction;
    cbv beta iota zeta delta [bind lift normalizedKey get ret setCompany put
                                addToNameIndex newSet];
    rewrite Hs; cbv beta iota;
    cbn [normalizer companies nameIndex tickerIndex aliasIndex];
    rewrite Hs; cbv beta iota;
    match goal with
    | |- context [forEach ?f ?l ?s1] =>
        destruct (aliases_filed (VStr i) l s1 eq_refl) as [a' E];
        change (forEach f l s1)
          with (forEach
                  (fun alias =>
                     normalizedAlias <- normalizedKey alias ;;
                     addToAliasIndex normalizedAlias (VStr i))
                  l s1);
        rewrite E
    end;
    cbv beta iota; rewrite Htruthy;
    cbv beta iota delta [setTicker bind get put];
    cbn [normalizer companies nameIndex tickerIndex aliasIndex].
  all: eexists _, a'; reflexivity.
Qed.

(** X20: a company given as an object with a text for [id] and one for
    [ticker], neither empty, and with an array of aliases or none, is
    added without error by a base that has a normalizer.  From then on
    [findByTicker] answers the company added for the ticker in any
    case of its letters, with the [id], [name] and [ticker] given; and
    [findByName] answers it for its name unless a company was filed
    under the same normalized name before, which is then the answer. *)
Theorem addCompany_then_found (now : Q) (ref : N)
  (props : list (jsstring * jsval)) (s : state) (i n t : jsstring) :
  normalizer s = true ->
  getProp props k_id = VStr i -> i <> [] ->
  getProp props k_name = VStr n ->
  getProp props k_ticker = VStr t -> t <> [] ->
  match getProp props k_aliases with
  | VUndefined | VArr _ _ => True
  | _ => False
  end ->
  let r := addCompany now (VObj ref props) s in
  fst r = inr tt
  /\ exists c : company,
       getCompany (snd r) (VStr i) = Value c
       /\ getProp c k_id = VStr i /\ getProp c k_name = VStr n
       /\ getProp c k_ticker = VStr t
       /\ (forall t', toUpperCase t' = toUpperCase t ->
                      findByTicker (snd r) t' = Value c)
       /\ findByName (snd r) n
          = match mapGet streq (nameIndex s) (normalizeString s n) with
            | Some (first :: _) => getCompany (snd r) first
            | _ => Value c
            end.
Proof.
  intros Hs Hid Hi Hname Hticker Ht Haliases. cbv zeta.
  destruct (addCompany_runs now ref props s i n t Hs Hid Hname Hticker Ht
              Haliases) as (aliasSet & aliasIndex' & ->).
  cbn [fst snd]. split; [reflexivity|].
  eexists. unfold findByTicker, findByName, getCompany.
  cbn [companies nameIndex tickerIndex normalizer].
  rewrite mapGet_mapSet_present_key by apply streq_refl.
  split; [reflexivity|].
  assert (forall k v,
            (streq k k_id || streq k k_name || streq k k_aliases
             || streq k k_ticker) = true ->
            getProp [(k_id, VStr i); (k_name, VStr n);
                     (k_normalizedName, VStr (CompanyNormalizer.normalize n));
                     (k_aliases, VSet aliasSet); (k_ticker, VStr t)] k = v ->
            streq k_dateAdded k = false ->
            getProp
              (mapSet streq
                 (assign
                    [(k_id, VStr i); (k_name, VStr n);
                     (k_normalizedName, VStr (CompanyNormalizer.normalize n));
                     (k_aliases, VSet aliasSet); (k_ticker, VStr t)]
                    (filter
                       (fun p =>
                          negb (streq (fst p) k_id || streq (fst p) k_name
                                || streq (fst p) k_aliases
                                || streq (fst p) k_ticker))
                       props))
                 k_dateAdded (VNum now)) k = v) as Hprop.
  { intros k v Hk Hv Hd. unfold getProp at 1.
    rewrite mapGet_mapSet_other by exact Hd.
    fold (getProp
            (assign
               [(k_id, VStr i); (k_name, VStr n);
                (k_normalizedName, VStr (CompanyNormalizer.normalize n));
                (k_aliases, VSet aliasSet); (k_ticker, VStr t)]
               (filter
                  (fun p =>
                     negb (streq (fst p) k_id || streq (fst p) k_name
                           || streq (fst p) k_aliases
                           || streq (fst p) k_ticker))
                  props)) k).
    rewrite assign_other by (now apply metadata_keeps). exact Hv. }
  split; [apply Hprop; reflexivity|].
  split; [apply Hprop; reflexivity|].
  split; [apply Hprop; reflexivity|].
  split.
  - intros t' Ht'. rewrite Ht', mapGet_mapSet_same.
    assert (truthy (VStr i) = true) as ->
      by (destruct i; [congruence|reflexivity]).
    now rewrite mapGet_mapSet_present_key by apply streq_refl.
  - unfold normalizeString. rewrite Hs. rewrite mapGet_mapSet_same.
    destruct (mapGet streq (nameIndex s) (CompanyNormalizer.normalize n))
      as [[|first rest]|].
    + cbn. now rewrite mapGet_mapSet_present_key by apply streq_refl.
    + unfold valSetAdd. destruct (valSetHas (first :: rest) (VStr i));
        reflexivity.
    + cbn. now rewrite mapGet_mapSet_present_key by apply streq_refl.
Qed.

(** X20 on a company added to the base of the constructor. *)
Lemma addCompany_then_found_witness :
  let r :=
    addCompany 0
      (VObj 200
         [(k_id, sv "acme"); (k_name, sv "Acme Corp.");
          (k_aliases, VArr 201 [sv "Acme"]); (k_ticker, sv "acme")])
      (construct true (fun _ => 0%Q)) in
  fst r = inr tt
  /\ exists c : company,
       findByTicker (snd r) (str "ACME") = Value c
       /\ getProp c k_name = sv "Acme Corp.".
Proof.
  cbv zeta.
  assert (normalizer (construct true (fun _ => 0%Q)) = true) as Hs
    by (vm_compute; reflexivity).
  assert (str "acme" <> []) as Hne by discriminate.
  assert (toUpperCase (str "ACME") = toUpperCase (str "acme")) as Hupper
    by (vm_compute; reflexivity).
  destruct (addCompany_then_found 0 200
              [(k_id, sv "acme"); (k_name, sv "Acme Corp.");
               (k_aliases, VArr 201 [sv "Acme"]); (k_ticker, sv "acme")]
              (construct true (fun _ => 0%Q))
              (str "acme") (str "Acme Corp.") (str "acme")
              Hs eq_refl Hne eq_refl eq_refl Hne I)
    as (Hrun & c & _ & _ & Hn & _ & Hfind & _).
  split; [exact Hrun|]. exists c. split; [|exact Hn].
  exact (Hfind (str "ACME") Hupper).
Defined.

End AddCompanyFacts.
